(** * Dilated max pooling (onnx_tf/handlers/backend/dilated_maxpooling.py)

    A shallow embedding of the class [DilatedPooling] and of the host tensor
    primitives it calls, followed by the properties of the padding
    calculator, the dilation reducer, the index remapper and the strategy
    selector.

    Conventions of the embedding:
    - tensor sizes and indices are [Z]; Python's [//] on integers is [Z.div]
      (both round towards minus infinity);
    - [np.ceil (a / b)] and [np.floor (a / b)] on integer operands are the
      exact ceiling and floor of the quotient (the float64 quotient of two
      tensor sizes is far inside the range where it is exact enough for
      both roundings);
    - the static ([np]) and dynamic ([tf]) shape branches evaluate the same
      formulas, so one definition stands for both; the flag
      [is_known_shape] that selects them is kept, because [_pad_input]
      also tests it before it hands an unpadded input back;
    - tensor elements are integers extended with minus infinity (the
      padding constant of MAX pooling); only their order matters;
    - an attribute that [__init__] does not assign is an [option] field
      which is [None] until a method assigns it. *)

From Stdlib Require Import String Ascii.
From Stdlib Require Import ZArith List Lia Bool.
Import ListNotations.
Local Open Scope string_scope.
Local Open Scope list_scope.
Local Open Scope Z_scope.

(** ** Exceptions and the result type *)

Inductive exn : Type :=
| AssertionError
| AttributeError (attr : string)
| IndexError
| ValueError (what : string)
| InvalidArgument (op : string).

Definition res (A : Type) : Type := (exn + A)%type.

Definition Ok {A} (a : A) : res A := inr a.
Definition Raise {A} (e : exn) : res A := inl e.

Definition bindR {A B} (c : res A) (k : A -> res B) : res B :=
  match c with
  | inl e => inl e
  | inr a => k a
  end.

Declare Scope res_scope.
Delimit Scope res_scope with res.
Notation "x <~ c ;; k" := (bindR c (fun x => k))
  (at level 61, c at next level, right associativity) : res_scope.
Local Open Scope res_scope.

(** [for i in idx: s = body i s], stopping at the first exception. *)
Fixpoint for_loop {S : Type} (idx : list nat) (body : nat -> S -> res S)
  (s : S) : res S :=
  match idx with
  | [] => Ok s
  | i :: rest => s' <~ body i s ;; for_loop rest body s'
  end.

(** [range(n)] and [range(n - 1, -1, -1)]. *)
Definition range (n : nat) : list nat := seq 0 n.
Definition range_down (n : nat) : list nat := rev (seq 0 n).

(** [l[i]] for a non-negative [i]. *)
Definition getitem (l : list Z) (i : nat) : res Z :=
  match nth_error l i with
  | Some x => Ok x
  | None => Raise IndexError
  end.

(** ** Python string helpers *)

Definition lower_ascii (c : ascii) : ascii :=
  let n := nat_of_ascii c in
  if (Nat.leb 65 n && Nat.leb n 90)%bool then ascii_of_nat (n + 32) else c.

Fixpoint lower (s : string) : string :=
  match s with
  | EmptyString => EmptyString
  | String c s' => String (lower_ascii c) (lower s')
  end.

Definition startswith (s p : string) : bool := String.prefix p s.

(** ** Integer arithmetic of the shape formulas *)

(** [np.floor (a / b)] and [np.ceil (a / b)]. *)
Definition floor_div (a b : Z) : Z := a / b.
Definition ceil_div (a b : Z) : Z := - ((- a) / b).

(** Element-wise combination of two lists. *)
Fixpoint map2 {A B C} (f : A -> B -> C) (l1 : list A) (l2 : list B)
  : list C :=
  match l1, l2 with
  | a :: l1', b :: l2' => f a b :: map2 f l1' l2'
  | _, _ => []
  end.

(** [a += b] on a numpy vector [a] and a list [b]; every list the class
    adds has one entry per entry of [a]. *)
Definition np_add (a b : list Z) : res (list Z) :=
  if Nat.eqb (List.length a) (List.length b) then Ok (map2 Z.add a b)
  else Raise (ValueError "operands could not be broadcast together").

Definition np_zeros (n : nat) : list Z := repeat 0 n.

Definition count_nonzero (l : list Z) : nat :=
  List.length (filter (fun x => negb (x =? 0)) l).

(** ** Tensors *)

Inductive value : Type :=
| NegInf
| Fin (z : Z).

Definition vltb (a b : value) : bool :=
  match a, b with
  | NegInf, NegInf => false
  | NegInf, Fin _ => true
  | Fin _, NegInf => false
  | Fin x, Fin y => x <? y
  end.

Record tensor (A : Type) : Type := mkTensor {
  shape : list Z;
  data : list A
}.
Arguments mkTensor {A} _ _.
Arguments shape {A} _.
Arguments data {A} _.

Definition prod (l : list Z) : Z := fold_right Z.mul 1 l.

(** The padding argument: a string or an explicit list. *)
Inductive padding_t : Type :=
| PadStr (s : string)
| PadList (l : list Z).

(** Host primitives, recorded in the order the engine calls them. *)
Inductive prim : Type :=
| TfPad (paddings : list (Z * Z))
| TfGatherNd
| TfPool (window strides rates : list Z) (padding_ : string)
| TfDilation2d (strides rates : list Z) (padding_ : string)
| TfMaxPoolWithArgmax (ksize strides : list Z) (padding_ : string).

(** ** The object *)

Record DilatedPooling : Type := mkDP {
  kernel_shape : list Z;
  strides : list Z;
  dilations : list Z;
  padding : padding_t;
  ceil_mode : bool;
  pooling_type : string;
  is_known_shape : bool;
  spatial_size : nat;
  input_rank : nat;
  orig_input_shape : list Z;
  input_shape : list Z;
  input : tensor value;
  padding_constant : value;
  (* assigned by _pad_input only *)
  pads : option (list Z);
  (* assigned by _reduce_dilations only *)
  output_shape : option (list Z);
  (* ghost field: the host pooling, padding and gather calls made so far *)
  calls : list prim
}.

(** [_tf_shape]. *)
Definition _tf_shape {A} (a : tensor A) : list Z := shape a.

(** [__init__] (the rank of the input is taken as known).  A tensor of
    this development carries its run-time shape; [fully_defined] tells
    whether that shape is also known statically, which is what
    [input.shape.is_fully_defined()] returns. *)
Definition init_with (fully_defined : bool) (input0 : tensor value)
  (kernel_shape0 strides0 dilations0 : list Z)
  (padding0 : padding_t) (ceil_mode0 : bool) (pooling_type0 : string)
  : DilatedPooling :=
  {| kernel_shape := kernel_shape0;
     strides := strides0;
     dilations := dilations0;
     padding := padding0;
     ceil_mode := ceil_mode0;
     pooling_type := pooling_type0;
     is_known_shape := fully_defined;
     spatial_size := List.length kernel_shape0;
     input_rank := (List.length kernel_shape0 + 2)%nat;
     orig_input_shape := _tf_shape input0;
     input_shape := _tf_shape input0;
     input := input0;
     padding_constant :=
       if String.eqb pooling_type0 "MAX" then NegInf else Fin 0;
     pads := None;
     output_shape := None;
     calls := [] |}.

(** [__init__] on an input whose shape is statically known. *)
Definition init (input0 : tensor value) (kernel_shape0 strides0 dilations0 : list Z)
  (padding0 : padding_t) (ceil_mode0 : bool) (pooling_type0 : string)
  : DilatedPooling :=
  init_with true input0 kernel_shape0 strides0 dilations0 padding0 ceil_mode0
    pooling_type0.

(** ** Padding calculator *)

Definition is_same_lower (p : padding_t) : bool :=
  match p with
  | PadStr s => String.eqb (lower s) "same_lower"
  | PadList _ => false
  end.

(** [_calc_pads_same]. *)
Definition _calc_pads_same (self : DilatedPooling) (in_spatial_shape : list Z)
  : res (list Z) :=
  for_loop (range (spatial_size self))
    (fun i pads_ =>
       in_size <~ getitem in_spatial_shape i ;;
       k <~ getitem (kernel_shape self) i ;;
       d <~ getitem (dilations self) i ;;
       s <~ getitem (strides self) i ;;
       let filter_size := (k - 1) * d + 1 in
       let out_size := ceil_div in_size s in
       let pad_along_axis := Z.max ((out_size - 1) * s + filter_size - in_size) 0 in
       let pad_begin :=
         if is_same_lower (padding self) then ceil_div pad_along_axis 2
         else floor_div pad_along_axis 2 in
       let pad_end := pad_along_axis - pad_begin in
       Ok (pads_ ++ [pad_begin; pad_end]))
    [].

(** [_calc_pads_explicit]. *)
Definition _calc_pads_explicit (self : DilatedPooling) : res (list Z) :=
  match padding self with
  | PadStr _ => Raise AssertionError
  | PadList l =>
      for_loop (range (spatial_size self))
        (fun i pads_ =>
           lo <~ getitem l i ;;
           hi <~ getitem l (i + spatial_size self) ;;
           Ok (pads_ ++ [lo; hi]))
        []
  end.

(** [_calc_pads_ceil_mode]. *)
Definition _calc_pads_ceil_mode (self : DilatedPooling) (in_spatial_shape : list Z)
  : res (list Z) :=
  for_loop (range (spatial_size self))
    (fun i pads_ =>
       dim_size <~ getitem in_spatial_shape i ;;
       k <~ getitem (kernel_shape self) i ;;
       d <~ getitem (dilations self) i ;;
       s <~ getitem (strides self) i ;;
       let filter_size := (k - 1) * d + 1 in
       let pad_size :=
         ceil_div (dim_size - filter_size) s
         - floor_div (dim_size - filter_size) s in
       Ok (pads_ ++ [0; pad_size * s]))
    [].

Definition is_list (p : padding_t) : bool :=
  match p with
  | PadList _ => true
  | PadStr _ => false
  end.

Definition lower_startswith_same (p : padding_t) : bool :=
  match p with
  | PadStr s => startswith (lower s) "same"
  | PadList _ => false
  end.

(** [_calc_pads]. *)
Definition _calc_pads (self : DilatedPooling) (in_spatial_shape : list Z)
  : res (list Z) :=
  let pads0 := np_zeros (spatial_size self * 2) in
  pads1 <~ (if is_list (padding self) then
              e <~ _calc_pads_explicit self ;; np_add pads0 e
            else if lower_startswith_same (padding self) then
              e <~ _calc_pads_same self in_spatial_shape ;; np_add pads0 e
            else Ok pads0) ;;
  if (ceil_mode self
      && (is_list (padding self) || negb (lower_startswith_same (padding self))))%bool
  then
    new_spatial_shape <~
      for_loop (range (spatial_size self))
        (fun i acc =>
           n <~ getitem in_spatial_shape i ;;
           lo <~ getitem pads1 (i * 2) ;;
           hi <~ getitem pads1 (i * 2 + 1) ;;
           Ok (acc ++ [n + lo + hi]))
        [] ;;
    e <~ _calc_pads_ceil_mode self new_spatial_shape ;;
    np_add pads1 e
  else Ok pads1.

(** ** Host tensor primitives

    Models of the TensorFlow operations the class calls, written from their
    documented behaviour on dense row-major tensors. *)

Definition zrange (n : Z) : list Z := map Z.of_nat (seq 0 (Z.to_nat n)).

(** [tf.range(n)]. *)
Definition tf_range (n : Z) : tensor Z := mkTensor [Z.max n 0] (zrange n).

(** [tf.expand_dims(t, axis)]. *)
Definition tf_expand_dims {A} (t : tensor A) (axis : nat) : tensor A :=
  mkTensor (firstn axis (shape t) ++ 1 :: skipn axis (shape t)) (data t).

Fixpoint chunks_fuel {A} (fuel k : nat) (l : list A) : list (list A) :=
  match fuel, l with
  | S f, _ :: _ => firstn k l :: chunks_fuel f k (skipn k l)
  | _, _ => []
  end.

(** The consecutive blocks of [k] elements of [l]. *)
Definition chunks {A} (k : nat) (l : list A) : list (list A) :=
  chunks_fuel (List.length l) k l.

Fixpoint tile_data {A} (sh mult : list Z) (d : list A) : list A :=
  match sh, mult with
  | _ :: sh', m :: mult' =>
      let inner :=
        flat_map (tile_data sh' mult') (chunks (Z.to_nat (prod sh')) d) in
      concat (repeat inner (Z.to_nat m))
  | _, _ => d
  end.

(** [tf.tile(t, multiples)]. *)
Definition tf_tile {A} (t : tensor A) (multiples : list Z) : res (tensor A) :=
  if Nat.eqb (List.length (shape t)) (List.length multiples) then
    Ok (mkTensor (map2 Z.mul (shape t) multiples)
          (tile_data (shape t) multiples (data t)))
  else Raise (InvalidArgument "tile").

(** [tf.reshape(t, new_shape)], with one [-1] entry inferred. *)
Definition tf_reshape {A} (t : tensor A) (new_shape : list Z) : res (tensor A) :=
  let size := Z.of_nat (List.length (data t)) in
  let known := prod (filter (fun x => negb (x =? -1)) new_shape) in
  let sh := map (fun x => if x =? -1 then size / known else x) new_shape in
  if (prod sh =? size) && forallb (fun x => 0 <=? x) sh then
    Ok (mkTensor sh (data t))
  else Raise (InvalidArgument "reshape").

(** [tf.concat([a, b], axis=1)] on two matrices. *)
Definition tf_concat1 {A} (a b : tensor A) : res (tensor A) :=
  match shape a, shape b with
  | [ra; ca], [rb; cb] =>
      if ra =? rb then
        Ok (mkTensor [ra; ca + cb]
              (concat (map2 (@app A) (chunks (Z.to_nat ca) (data a))
                                     (chunks (Z.to_nat cb) (data b)))))
      else Raise (InvalidArgument "concat")
  | _, _ => Raise (InvalidArgument "concat")
  end.

(** Row-major offset of a multi-index. *)
Fixpoint ravel (sh idx : list Z) (acc : Z) : Z :=
  match sh, idx with
  | n :: sh', i :: idx' => ravel sh' idx' (acc * n + i)
  | _, _ => acc
  end.

Fixpoint in_bounds (sh idx : list Z) : bool :=
  match sh, idx with
  | [], [] => true
  | n :: sh', i :: idx' => (0 <=? i) && (i <? n) && in_bounds sh' idx'
  | _, _ => false
  end.

(** The element at a full multi-index, if the index is inside the tensor. *)
Definition tget {A} (t : tensor A) (idx : list Z) : option A :=
  if in_bounds (shape t) idx
  then nth_error (data t) (Z.to_nat (ravel (shape t) idx 0))
  else None.

Fixpoint sequence_res {A} (l : list (res A)) : res (list A) :=
  match l with
  | [] => Ok []
  | r :: l' => a <~ r ;; rest <~ sequence_res l' ;; Ok (a :: rest)
  end.

(** [tf.gather_nd(params, indices, batch_dims=1)] for indices whose last
    axis holds full multi-indices into one batch element of [params]. *)
Definition tf_gather_nd (params : tensor value) (indices : tensor Z)
  : res (tensor value) :=
  let n := hd 0 (shape indices) in
  let k := last (shape indices) 0 in
  if (n =? hd 0 (shape params))
     && (Z.of_nat (List.length (shape params)) =? k + 1) then
    let per_batch := chunks (Z.to_nat (Z.of_nat (List.length (data indices)) / n))
                            (data indices) in
    vals <~ sequence_res
      (concat
         (map2 (fun b rows =>
                  map (fun row =>
                         match tget params (b :: row) with
                         | Some v => Ok v
                         | None => Raise (InvalidArgument "gather_nd")
                         end)
                      (chunks (Z.to_nat k) rows))
               (zrange n) per_batch)) ;;
    Ok (mkTensor (removelast (shape indices)) vals)
  else Raise (InvalidArgument "gather_nd").

Fixpoint padded_shape (sh : list Z) (paddings : list (Z * Z)) : list Z :=
  match sh, paddings with
  | n :: sh', (lo, hi) :: p' => (lo + n + hi) :: padded_shape sh' p'
  | _, _ => sh
  end.

Fixpoint pad_data {A} (sh : list Z) (paddings : list (Z * Z)) (c : A)
  (d : list A) : list A :=
  match sh, paddings with
  | _ :: sh', (lo, hi) :: p' =>
      let inner := Z.to_nat (prod (padded_shape sh' p')) in
      repeat c (Z.to_nat lo * inner)
      ++ flat_map (pad_data sh' p' c) (chunks (Z.to_nat (prod sh')) d)
      ++ repeat c (Z.to_nat hi * inner)
  | _, _ => d
  end.

(** [tf.pad(t, paddings, mode='CONSTANT', constant_values=c)]. *)
Definition tf_pad {A} (t : tensor A) (paddings : list (Z * Z)) (c : A)
  : res (tensor A) :=
  if Nat.eqb (List.length (shape t)) (List.length paddings)
     && forallb (fun p => (0 <=? fst p) && (0 <=? snd p)) paddings then
    Ok (mkTensor (padded_shape (shape t) paddings)
          (pad_data (shape t) paddings c (data t)))
  else Raise (InvalidArgument "pad").

(** *** Pooling primitives *)

Definition batch_of (sh : list Z) : Z := hd 0 sh.
Definition channels_of (sh : list Z) : Z := last sh 0.
Definition spatial_of (sh : list Z) : list Z := removelast (tl sh).

(** All multi-indices below [dims], in row-major order. *)
Fixpoint grid (dims : list Z) : list (list Z) :=
  match dims with
  | [] => [[]]
  | n :: dims' => flat_map (fun i => map (cons i) (grid dims')) (zrange n)
  end.

Definition better (acc cand : option (value * Z)) : option (value * Z) :=
  match acc, cand with
  | _, None => acc
  | None, Some _ => cand
  | Some (v, _), Some (v', _) => if vltb v v' then cand else acc
  end.

(** The maximum of one window and the flattened position, inside one batch
    element of [t], where it is first found.  The window of output position
    [o] reads the input positions [o * strides + w * rates - offs] for [w]
    below [window]; positions outside the tensor are skipped. *)
Definition window_max (window strides rates offs : list Z) (t : tensor value)
  (b : Z) (o : list Z) (c : Z) : value * Z :=
  let sp := spatial_of (shape t) in
  let ch := channels_of (shape t) in
  let cands :=
    map (fun w =>
           let x := map2 Z.sub
                      (map2 Z.add (map2 Z.mul o strides) (map2 Z.mul w rates))
                      offs in
           match tget t (b :: x ++ [c]) with
           | Some v => Some (v, ravel (sp ++ [ch]) (x ++ [c]) 0)
           | None => None
           end)
        (grid window) in
  match fold_left better cands None with
  | Some r => r
  | None => (NegInf, 0)
  end.

Definition pool_core (window strides rates offs outs : list Z)
  (t : tensor value) : tensor (value * Z) :=
  let sh := shape t in
  mkTensor (batch_of sh :: outs ++ [channels_of sh])
    (flat_map
       (fun b =>
          flat_map
            (fun o =>
               map (window_max window strides rates offs t b o)
                   (zrange (channels_of sh)))
            (grid outs))
       (zrange (batch_of sh))).

Definition tmap {A B} (f : A -> B) (t : tensor A) : tensor B :=
  mkTensor (shape t) (map f (data t)).

(** Output sizes and leading offsets of the windows for a padding mode. *)
Definition window_geometry (padding_ : string)
  (window strides rates spatial : list Z) : res (list Z * list Z) :=
  let r := List.length spatial in
  if negb (Nat.eqb (List.length window) r && Nat.eqb (List.length strides) r
           && Nat.eqb (List.length rates) r
           && forallb (fun x => 0 <? x) (window ++ strides ++ rates))
  then Raise (InvalidArgument "window")
  else
    let filt := map2 (fun k d => (k - 1) * d + 1) window rates in
    if String.eqb padding_ "VALID" then
      if forallb (fun x => 0 <=? x) (map2 Z.sub spatial filt) then
        Ok (map2 (fun nf s => nf / s + 1) (map2 Z.sub spatial filt) strides,
            map (fun _ => 0) spatial)
      else Raise (InvalidArgument "window larger than input")
    else if String.eqb padding_ "SAME" then
      let outs := map2 ceil_div spatial strides in
      let total :=
        map2 (fun os fn => Z.max ((fst os - 1) * snd os + fn) 0)
             (combine outs strides) (map2 Z.sub filt spatial) in
      Ok (outs, map (fun p => p / 2) total)
    else Raise (ValueError "padding").

Definition list_eqb (a b : list Z) : bool :=
  Nat.eqb (List.length a) (List.length b)
  && forallb (fun p => fst p =? snd p) (combine a b).

Definition ones (n : nat) : list Z := repeat 1 n.

(** [tf.nn.pool(t, window_shape, pooling_type, padding, dilation_rate,
    strides)]; only MAX pooling is modelled. *)
Definition tf_nn_pool (t : tensor value) (window_shape strides_ dilation_rate : list Z)
  (padding_ pooling_type_ : string) : res (tensor value) :=
  if negb (String.eqb pooling_type_ "MAX") then
    Raise (InvalidArgument "pooling_type")
  else if negb (list_eqb strides_ (ones (List.length strides_)))
          && negb (list_eqb dilation_rate (ones (List.length dilation_rate)))
  then Raise (ValueError "strides > 1 with dilation_rate > 1")
  else
    g <~ window_geometry padding_ window_shape strides_ dilation_rate
           (spatial_of (shape t)) ;;
    Ok (tmap fst (pool_core window_shape strides_ dilation_rate (snd g) (fst g) t)).

(** The middle of a 4-element NHWC attribute [[1; a; b; 1]]. *)
Definition nhwc_middle (l : list Z) : res (list Z) :=
  match l with
  | [1; a; b; 1] => Ok [a; b]
  | _ => Raise (InvalidArgument "NHWC attribute")
  end.

(** [tf.nn.dilation2d(input, filter, strides, rates, padding)] with an
    all-zero [filter] of spatial shape [kshape]. *)
Definition tf_nn_dilation2d (t : tensor value) (kshape strides4 rates4 : list Z)
  (padding_ : string) : res (tensor value) :=
  if negb (Nat.eqb (List.length (shape t)) 4) then
    Raise (InvalidArgument "dilation2d")
  else
    s <~ nhwc_middle strides4 ;;
    r <~ nhwc_middle rates4 ;;
    g <~ window_geometry padding_ kshape s r (spatial_of (shape t)) ;;
    Ok (tmap fst (pool_core kshape s r (snd g) (fst g) t)).

(** [tf.nn.max_pool_with_argmax(input, ksize, strides, padding)]: the pooled
    tensor and, per output element, the index [(y * width + x) * channels + c]
    of its maximum in the input. *)
Definition tf_nn_max_pool_with_argmax (t : tensor value) (ksize4 strides4 : list Z)
  (padding_ : string) : res (tensor value * tensor Z) :=
  if negb (Nat.eqb (List.length (shape t)) 4) then
    Raise (InvalidArgument "max_pool_with_argmax")
  else
    k <~ nhwc_middle ksize4 ;;
    s <~ nhwc_middle strides4 ;;
    g <~ window_geometry padding_ k s (ones 2) (spatial_of (shape t)) ;;
    let p := pool_core k s (ones 2) (snd g) (fst g) t in
    Ok (tmap fst p, tmap snd p).

(** ** Methods: computations over the object *)

Definition M (A : Type) : Type := DilatedPooling -> res A * DilatedPooling.

Definition retM {A} (a : A) : M A := fun self => (Ok a, self).
Definition raiseM {A} (e : exn) : M A := fun self => (Raise e, self).
Definition liftR {A} (r : res A) : M A := fun self => (r, self).

Definition bindM {A B} (c : M A) (k : A -> M B) : M B :=
  fun self =>
    match c self with
    | (inl e, self') => (inl e, self')
    | (inr a, self') => k a self'
    end.

Declare Scope M_scope.
Delimit Scope M_scope with M.
Notation "x <- c ;; k" := (bindM c (fun x => k))
  (at level 61, c at next level, right associativity) : M_scope.
Notation "c ;;; k" := (bindM c (fun _ => k))
  (at level 61, right associativity) : M_scope.

Definition getM {A} (f : DilatedPooling -> A) : M A :=
  fun self => (Ok (f self), self).

(** Reading an attribute that may not have been assigned yet. *)
Definition getattr {A} (name : string) (f : DilatedPooling -> option A) : M A :=
  fun self =>
    match f self with
    | Some a => (Ok a, self)
    | None => (Raise (AttributeError name), self)
    end.

Definition set_pads (v : list Z) : M unit :=
  fun self =>
    (Ok tt,
     mkDP (kernel_shape self) (strides self) (dilations self) (padding self)
       (ceil_mode self) (pooling_type self) (is_known_shape self)
       (spatial_size self)
       (input_rank self) (orig_input_shape self) (input_shape self)
       (input self) (padding_constant self) (Some v) (output_shape self)
       (calls self)).

Definition set_output_shape (v : list Z) : M unit :=
  fun self =>
    (Ok tt,
     mkDP (kernel_shape self) (strides self) (dilations self) (padding self)
       (ceil_mode self) (pooling_type self) (is_known_shape self)
       (spatial_size self)
       (input_rank self) (orig_input_shape self) (input_shape self)
       (input self) (padding_constant self) (pads self) (Some v)
       (calls self)).

Definition set_input (t : tensor value) : M unit :=
  fun self =>
    (Ok tt,
     mkDP (kernel_shape self) (strides self) (dilations self) (padding self)
       (ceil_mode self) (pooling_type self) (is_known_shape self)
       (spatial_size self)
       (input_rank self) (orig_input_shape self) (input_shape self)
       t (padding_constant self) (pads self) (output_shape self)
       (calls self)).

Definition set_input_shape (v : list Z) : M unit :=
  fun self =>
    (Ok tt,
     mkDP (kernel_shape self) (strides self) (dilations self) (padding self)
       (ceil_mode self) (pooling_type self) (is_known_shape self)
       (spatial_size self)
       (input_rank self) (orig_input_shape self) v
       (input self) (padding_constant self) (pads self) (output_shape self)
       (calls self)).

(** Ghost: note that a host primitive is being called. *)
Definition call (p : prim) : M unit :=
  fun self =>
    (Ok tt,
     mkDP (kernel_shape self) (strides self) (dilations self) (padding self)
       (ceil_mode self) (pooling_type self) (is_known_shape self)
       (spatial_size self)
       (input_rank self) (orig_input_shape self) (input_shape self)
       (input self) (padding_constant self) (pads self) (output_shape self)
       (calls self ++ [p])).

Local Open Scope M_scope.

Fixpoint for_loopM {S : Type} (idx : list nat) (body : nat -> S -> M S)
  (s : S) : M S :=
  match idx with
  | [] => retM s
  | i :: rest => s' <- body i s ;; for_loopM rest body s'
  end.

(** ** Dilation reducer *)

(** [_calc_input_ind] on one index. *)
Definition _calc_input_ind (ind k d s : Z) : Z :=
  (ind / k) * (s - k * d) + ind * d.

(** [_tf_product]. *)
Definition _tf_product (a b : tensor Z) : res (tensor Z) :=
  tile_b <~ tf_tile (tf_expand_dims b 1) [1; hd 0 (shape a)] ;;
  let tile_b := tf_expand_dims tile_b 2 in
  tile_b <~ tf_reshape tile_b [-1; 1] ;;
  a <~ tf_tile a [hd 0 (shape b); 1] ;;
  tf_concat1 tile_b a.

(** The body of the loop of [_reduce_dilations] over the spatial axes. *)
Definition reduce_axis (in_spatial_shape : list Z) (dim : nat)
  (gather_ind : tensor Z) : M (tensor Z) :=
  k <- (self_k <- getM kernel_shape ;; liftR (getitem self_k dim)) ;;
  d <- (self_d <- getM dilations ;; liftR (getitem self_d dim)) ;;
  s <- (self_s <- getM strides ;; liftR (getitem self_s dim)) ;;
  n <- liftR (getitem in_spatial_shape dim) ;;
  let filter_size := (k - 1) * d + 1 in
  let output_size := ((n - filter_size) / s + 1) * k in
  os <- getattr "output_shape" output_shape ;;
  set_output_shape (os ++ [output_size]) ;;;
  let local_ind := tf_range output_size in
  let local_ind := tmap (fun ind => _calc_input_ind ind k d s) local_ind in
  liftR (_tf_product gather_ind local_ind).

(** [_reduce_dilations]. *)
Definition _reduce_dilations : M (tensor value) :=
  inp <- getM input ;;
  r <- getM spatial_size ;;
  let input_shape_ := _tf_shape inp in
  let in_spatial_shape := firstn r (skipn 1 input_shape_) in
  channel_num <- liftR (getitem input_shape_ (r + 1)) ;;
  let gather_ind := tf_expand_dims (tf_range channel_num) 1 in
  batch <- liftR (getitem input_shape_ 0) ;;
  set_output_shape [batch] ;;;
  gather_ind <-
    for_loopM (range_down r) (reduce_axis in_spatial_shape) gather_ind ;;
  os <- getattr "output_shape" output_shape ;;
  set_output_shape (os ++ [channel_num]) ;;;
  gather_ind <-
    for_loopM (range r)
      (fun _ gather_ind => retM (tf_expand_dims gather_ind 0))
      gather_ind ;;
  gather_ind <- liftR (tf_tile gather_ind (batch :: ones (r + 1))) ;;
  call TfGatherNd ;;;
  inp <- getM input ;;
  output <- liftR (tf_gather_nd inp gather_ind) ;;
  os <- getattr "output_shape" output_shape ;;
  liftR (tf_reshape output os).

(** ** Padding the input *)

(** The test that opens [_pad_input]: no ceil mode and either an explicit
    all-zero list or the exact string [VALID]. *)
Definition nothing_to_pad (self : DilatedPooling) : bool :=
  negb (ceil_mode self)
  && match padding self with
     | PadList l => list_eqb l (np_zeros (spatial_size self * 2))
     | PadStr s => String.eqb s "VALID"
     end.

(** [_pad_input] (callers ignore what it returns). *)
Definition _pad_input : M unit :=
  skip <- getM nothing_to_pad ;;
  r <- getM spatial_size ;;
  if skip then set_pads (np_zeros (r * 2))
  else
    in_shape <- getM input_shape ;;
    let in_spatial_shape := firstn r (skipn 1 in_shape) in
    pads_ <- (fun self => (_calc_pads self in_spatial_shape, self)) ;;
    known <- getM is_known_shape ;;
    if known && Nat.eqb (count_nonzero pads_) 0 then set_pads pads_
    else
      spatial_paddings <-
        liftR (for_loop (range r)
                 (fun i acc =>
                    lo <~ getitem pads_ (i * 2) ;;
                    hi <~ getitem pads_ (i * 2 + 1) ;;
                    Ok (acc ++ [(lo, hi)]))
                 [])%res ;;
      let tf_paddings := [(0, 0)] ++ spatial_paddings ++ [(0, 0)] in
      inp <- getM input ;;
      c <- getM padding_constant ;;
      call (TfPad tf_paddings) ;;;
      padded <- liftR (tf_pad inp tf_paddings c) ;;
      set_input padded ;;;
      set_input_shape (_tf_shape padded) ;;;
      set_pads pads_.

(** ** Index remapper *)

(** [_calc_orig_ind]. *)
Definition _calc_orig_ind (ind : tensor Z) : M (tensor Z) :=
  orig <- getM orig_input_shape ;;
  in_width <- liftR (getitem orig 2) ;;
  num_channels <- liftR (getitem orig 3) ;;
  os <- getattr "output_shape" output_shape ;;
  output_width <- liftR (getitem os 2) ;;
  ks <- getM kernel_shape ;;
  ds <- getM dilations ;;
  ss <- getM strides ;;
  k0 <- liftR (getitem ks 0) ;;
  d0 <- liftR (getitem ds 0) ;;
  s0 <- liftR (getitem ss 0) ;;
  ps <- getattr "pads" pads ;;
  p0 <- liftR (getitem ps 0) ;;
  k1 <- liftR (getitem ks 1) ;;
  d1 <- liftR (getitem ds 1) ;;
  s1 <- liftR (getitem ss 1) ;;
  p2 <- liftR (getitem ps 2) ;;
  retM (tmap (fun ind =>
                let ind_ := ind / num_channels in
                let inRow := ind_ / output_width in
                let inCol := ind_ - (ind_ / output_width) * output_width in
                let ind_channel := ind - ind_ * num_channels in
                let row := _calc_input_ind inRow k0 d0 s0 - p0 in
                let col := _calc_input_ind inCol k1 d1 s1 - p2 in
                num_channels * (row * in_width + col) + ind_channel)
             ind).

(** [_calc_argmax_without_padding]. *)
Definition _calc_argmax_without_padding (ind : tensor Z) : M (tensor Z) :=
  orig <- getM orig_input_shape ;;
  in_width <- liftR (getitem orig 2) ;;
  cur <- getM input_shape ;;
  padded_width <- liftR (getitem cur 2) ;;
  num_channels <- liftR (getitem cur 3) ;;
  ps <- getattr "pads" pads ;;
  p2 <- liftR (getitem ps 2) ;;
  p3 <- liftR (getitem ps 3) ;;
  p0 <- liftR (getitem ps 0) ;;
  retM (tmap (fun ind =>
                let ind_ := ind / num_channels in
                let ind_channel := ind - ind_ * num_channels in
                let ind__ := (ind_ / padded_width) * (p2 + p3) in
                let ind__ := ind_ - ind__ - p0 * in_width - p2 in
                num_channels * ind__ + ind_channel)
             ind).

(** ** Strategy selector *)

(** The padding dispatch that opens [dilated_maxpool] and the branch of
    [dilated_maxpool_with_argmax] without dilations: it pads for an explicit
    list and for SAME_LOWER, and yields the padding string [padding_] that is
    handed to the pooling primitive. *)
Definition padding_dispatch : M string :=
  p <- getM padding ;;
  match p with
  | PadList _ => _pad_input ;;; retM "VALID"
  | PadStr s =>
      if String.eqb (lower s) "same_lower" then _pad_input ;;; retM "VALID"
      else if String.eqb (lower s) "same_upper" then retM "SAME"
      else retM s
  end.

Definition nhwc (l : list Z) : list Z := [1] ++ l ++ [1].

(** [dilated_maxpool_with_argmax]. *)
Definition dilated_maxpool_with_argmax (force_custom_impl : bool)
  : M (tensor value * tensor Z) :=
  r <- getM spatial_size ;;
  if negb (Nat.eqb r 2) then raiseM AssertionError
  else
    ds <- getM dilations ;;
    ks <- getM kernel_shape ;;
    if negb (list_eqb ds (ones r)) || force_custom_impl then
      _pad_input ;;;
      new_input <- _reduce_dilations ;;
      let kernel_shape_ := nhwc ks in
      call (TfMaxPoolWithArgmax kernel_shape_ kernel_shape_ "VALID") ;;;
      pr <- liftR (tf_nn_max_pool_with_argmax new_input kernel_shape_
                     kernel_shape_ "VALID") ;;
      new_ind <- _calc_orig_ind (snd pr) ;;
      retM (fst pr, new_ind)
    else
      padding_ <- padding_dispatch ;;
      ss <- getM strides ;;
      let strides_ := nhwc ss in
      let kernel_shape_ := nhwc ks in
      inp <- getM input ;;
      call (TfMaxPoolWithArgmax kernel_shape_ strides_ padding_) ;;;
      pr <- liftR (tf_nn_max_pool_with_argmax inp kernel_shape_ strides_
                     padding_) ;;
      ps <- getattr "pads" pads ;;
      if negb (Nat.eqb (count_nonzero ps) 0) then
        new_ind <- _calc_argmax_without_padding (snd pr) ;;
        retM (fst pr, new_ind)
      else retM pr.

(** [dilated_maxpool]. *)
Definition dilated_maxpool (force_custom_impl : bool) : M (tensor value) :=
  padding_ <- padding_dispatch ;;
  r <- getM spatial_size ;;
  ks <- getM kernel_shape ;;
  ss <- getM strides ;;
  ds <- getM dilations ;;
  if Nat.eqb r 2 && negb force_custom_impl then
    let strides_ := nhwc ss in
    let dilations_ := nhwc ds in
    k0 <- liftR (getitem ks 0) ;;
    k1 <- liftR (getitem ks 1) ;;
    in_shape <- getM input_shape ;;
    _ <- liftR (getitem in_shape 3) ;;
    inp <- getM input ;;
    call (TfDilation2d strides_ dilations_ padding_) ;;;
    liftR (tf_nn_dilation2d inp [k0; k1] strides_ dilations_ padding_)
  else if list_eqb ss (ones r)
          || (list_eqb ds (ones r) && negb force_custom_impl) then
    inp <- getM input ;;
    call (TfPool ks ss ds padding_) ;;;
    liftR (tf_nn_pool inp ks ss ds padding_ "MAX")
  else
    (if String.eqb padding_ "SAME" then _pad_input else retM tt) ;;;
    input_ <- _reduce_dilations ;;
    pt <- getM pooling_type ;;
    call (TfPool ks ks (ones (List.length ks)) "VALID") ;;;
    liftR (tf_nn_pool input_ ks ks (ones (List.length ks)) "VALID" pt).

(** * Specification-side definitions *)

(** The invariant of a pooling configuration for an input of spatial shape
    [in_spatial_shape]: one kernel size, dilation and stride per spatial
    axis, and positive strides. *)
Definition axes_ok (self : DilatedPooling) (in_spatial_shape : list Z) : bool :=
  Nat.eqb (List.length in_spatial_shape) (spatial_size self)
  && Nat.eqb (List.length (kernel_shape self)) (spatial_size self)
  && Nat.eqb (List.length (dilations self)) (spatial_size self)
  && Nat.eqb (List.length (strides self)) (spatial_size self)
  && forallb (fun s => 0 <? s) (strides self).

(** Effective filter extent of an axis. *)
Definition filter_extent (k d : Z) : Z := (k - 1) * d + 1.

(** Total SAME padding of an axis. *)
Definition same_total_pad (in_size k d s : Z) : Z :=
  Z.max ((ceil_div in_size s - 1) * s + filter_extent k d - in_size) 0.

(** The trailing pad of ceil mode for an axis of size [size]. *)
Definition ceil_extra_pad (size k d s : Z) : Z :=
  (ceil_div (size - filter_extent k d) s
   - floor_div (size - filter_extent k d) s) * s.

(** Total SAME padding and its leading part for axis [i] of an object. *)
Definition axis_total_pad (self : DilatedPooling) (ins : list Z) (i : nat) : Z :=
  same_total_pad (nth i ins 0) (nth i (kernel_shape self) 0)
    (nth i (dilations self) 0) (nth i (strides self) 0).

Definition axis_pad_begin (self : DilatedPooling) (ins : list Z) (i : nat) : Z :=
  if is_same_lower (padding self) then ceil_div (axis_total_pad self ins i) 2
  else floor_div (axis_total_pad self ins i) 2.

(** The explicit pads of axis [i] (none for a padding string) and the size
    of the axis once they are applied. *)
Definition explicit_lo (p : padding_t) (i : nat) : Z :=
  match p with
  | PadList l => nth i l 0
  | PadStr _ => 0
  end.

Definition explicit_hi (p : padding_t) (r i : nat) : Z :=
  match p with
  | PadList l => nth (i + r) l 0
  | PadStr _ => 0
  end.

(** The paddings that ceil mode applies to: an explicit list with a pair per
    axis, or a string that does not select SAME padding. *)
Definition ceil_mode_applies (self : DilatedPooling) : bool :=
  match padding self with
  | PadList l => Nat.eqb (List.length l) (spatial_size self * 2)
  | PadStr s => negb (startswith (lower s) "same")
  end.

Definition with_ceil_mode (b : bool) (self : DilatedPooling) : DilatedPooling :=
  mkDP (kernel_shape self) (strides self) (dilations self) (padding self)
    b (pooling_type self) (is_known_shape self) (spatial_size self)
    (input_rank self)
    (orig_input_shape self) (input_shape self) (input self)
    (padding_constant self) (pads self) (output_shape self) (calls self).

(** The object with its padding argument replaced. *)
Definition with_padding (q : padding_t) (self : DilatedPooling)
  : DilatedPooling :=
  mkDP (kernel_shape self) (strides self) (dilations self) q
    (ceil_mode self) (pooling_type self) (is_known_shape self)
    (spatial_size self) (input_rank self) (orig_input_shape self)
    (input_shape self) (input self) (padding_constant self) (pads self)
    (output_shape self) (calls self).

(** ** Example objects *)

Definition fin_tensor (sh : list Z) (l : list Z) : tensor value :=
  mkTensor sh (map Fin l).

(** One axis of size 4, kernel 2, stride 2, explicit pads [(1, 0)], ceil
    mode. *)
Definition explicit_ceil_example : DilatedPooling :=
  init (fin_tensor [1; 4; 1] [0; 1; 2; 3]) [2] [2] [1] (PadList [1; 0]) true
    "MAX".

(** One axis of size 5, kernel 2, stride 2, VALID padding, ceil mode. *)
Definition valid_ceil_example : DilatedPooling :=
  init (fin_tensor [1; 5; 1] [0; 1; 2; 3; 4]) [2] [2] [1] (PadStr "VALID") true
    "MAX".

(** Two axes of size 5 and 4, kernel 2x2, stride 1 and SAME padding. *)
Definition same_example (mode : string) : DilatedPooling :=
  init (fin_tensor [1; 5; 4; 1] (zrange 20)) [2; 2] [1; 1] [1; 1]
    (PadStr mode) false "MAX".

(** A 4x4 input 0..15 with kernel 2x2, dilations 2x2, strides 1x1 (the
    example of the docstrings). *)
Definition docstring_example : DilatedPooling :=
  init (fin_tensor [1; 4; 4; 1] (zrange 16)) [2; 2] [1; 1] [2; 2]
    (PadStr "VALID") false "MAX".

(** A 3x4 input 0..11 with kernel 2x2, dilations 2x2, strides 1x1. *)
Definition wide_example : DilatedPooling :=
  init (fin_tensor [1; 3; 4; 1] (zrange 12)) [2; 2] [1; 1] [2; 2]
    (PadStr "VALID") false "MAX".

(** A 3x5 input 0..14 with kernel 2x2, dilations 2x2, strides 2x2. *)
Definition strided_example : DilatedPooling :=
  init (fin_tensor [1; 3; 5; 1] (zrange 15)) [2; 2] [2; 2] [2; 2]
    (PadStr "VALID") false "MAX".

(** A 2x2 input with kernel 2x2, no dilation, stride 1 and VALID padding. *)
Definition plain_example : DilatedPooling :=
  init (fin_tensor [1; 2; 2; 1] (zrange 4)) [2; 2] [1; 1] [1; 1]
    (PadStr "VALID") false "MAX".

(** A 4x4 input with kernel 2x2, strides 2x2, no dilation and the padding
    string [FOO]. *)
Definition foo_example : DilatedPooling :=
  init (fin_tensor [1; 4; 4; 1] (zrange 16)) [2; 2] [2; 2] [1; 1]
    (PadStr "FOO") false "MAX".

(** A 4x4 input with kernel 2x2, strides 1x1, dilations 2x2 and the padding
    string [FOO]. *)
Definition foo_unit_strides_example : DilatedPooling :=
  init (fin_tensor [1; 4; 4; 1] (zrange 16)) [2; 2] [1; 1] [2; 2]
    (PadStr "FOO") false "MAX".

(** The object of [foo_example] built on an input whose shape is not
    statically known. *)
Definition foo_deferred_example : DilatedPooling :=
  init_with false (fin_tensor [1; 4; 4; 1] (zrange 16)) [2; 2] [2; 2] [1; 1]
    (PadStr "FOO") false "MAX".

(** One spatial axis of size 4. *)
Definition rank1_example : DilatedPooling :=
  init (fin_tensor [1; 4; 1] (zrange 4)) [2] [1] [2] (PadStr "VALID") false
    "MAX".

(** Reduced output length of an axis. *)
Definition reduced_length (in_size k d s : Z) : Z :=
  ((in_size - filter_extent k d) / s + 1) * k.

(** The shape [[batch, L_1, ..., L_R, channels]], axes in their original
    order. *)
Definition reduced_shape (self : DilatedPooling) : list Z :=
  let sh := shape (input self) in
  [batch_of sh]
  ++ map (fun i => reduced_length (nth i (spatial_of sh) 0)
                     (nth i (kernel_shape self) 0) (nth i (dilations self) 0)
                     (nth i (strides self) 0))
         (range (spatial_size self))
  ++ [channels_of sh].

(** Dilated max pooling applied directly: output element [(b, o, c)] is the
    maximum of the input elements [(b, o * strides + w * dilations, c)] for
    [w] below the kernel shape, with VALID output sizes. *)
Definition direct_dilated_maxpool (t : tensor value)
  (kernel strides_ dilations_ : list Z) : res (tensor value) :=
  (g <~ window_geometry "VALID" kernel strides_ dilations_
          (spatial_of (shape t)) ;;
   Ok (tmap fst (pool_core kernel strides_ dilations_ (snd g) (fst g) t)))%res.

(** The element of the original input at a flattened per-batch index. *)
Definition gather_flat (t : tensor value) (ind : Z) : option value :=
  if (0 <=? ind) then nth_error (data t) (Z.to_nat ind) else None.

(** The object of [foo_example] with the padding string [VALID]. *)
Definition foo_as_valid_example : DilatedPooling :=
  init (fin_tensor [1; 4; 4; 1] (zrange 16)) [2; 2] [2; 2] [1; 1]
    (PadStr "VALID") false "MAX".

(** The reduced length of axis [dim] as [_reduce_dilations] computes it. *)
Definition reducer_axis_length (self : DilatedPooling) (dim : nat) : Z :=
  reduced_length
    (nth dim (firstn (spatial_size self) (skipn 1 (shape (input self)))) 0)
    (nth dim (kernel_shape self) 0) (nth dim (dilations self) 0)
    (nth dim (strides self) 0).

(** The fields that the reducer only reads. *)
Definition same_config (a b : DilatedPooling) : Prop :=
  kernel_shape a = kernel_shape b /\ strides a = strides b
  /\ dilations a = dilations b /\ input a = input b
  /\ spatial_size a = spatial_size b.

(** The flattened index of position [(row, col, ch)] in one batch element
    of a tensor with [width] columns and [channels] channels. *)
Definition flat_pos (width channels row col ch : Z) : Z :=
  (row * width + col) * channels + ch.

(** A computation commutes with an update [u] of the object: run after
    [u], it returns the same result and leaves the updated final object. *)
Definition frames {A : Type} (u : DilatedPooling -> DilatedPooling)
  (c : M A) : Prop :=
  forall self, c (u self) = (fst (c self), u (snd (c self))).

(** The docstring example after [_pad_input] and [_reduce_dilations]. *)
Definition reduced_docstring_state : DilatedPooling :=
  snd (bindM _pad_input (fun _ => _reduce_dilations) docstring_example).

(** A 2x2 input, kernel 2x2, stride 1, SAME_LOWER, after [_pad_input]. *)
Definition padded_lower_state : DilatedPooling :=
  snd (_pad_input
         (init (fin_tensor [1; 2; 2; 1] (zrange 4)) [2; 2] [1; 1] [1; 1]
            (PadStr "SAME_LOWER") false "MAX")).

(** What [dilated_maxpool] does once the padding dispatch has produced
    [padding_]. *)
Definition pool_after_dispatch (force_custom_impl : bool) (padding_ : string)
  : M (tensor value) :=
  (r <- getM spatial_size ;;
  ks <- getM kernel_shape ;;
  ss <- getM strides ;;
  ds <- getM dilations ;;
  if Nat.eqb r 2 && negb force_custom_impl then
    let strides_ := nhwc ss in
    let dilations_ := nhwc ds in
    k0 <- liftR (getitem ks 0) ;;
    k1 <- liftR (getitem ks 1) ;;
    in_shape <- getM input_shape ;;
    _ <- liftR (getitem in_shape 3) ;;
    inp <- getM input ;;
    call (TfDilation2d strides_ dilations_ padding_) ;;;
    liftR (tf_nn_dilation2d inp [k0; k1] strides_ dilations_ padding_)
  else if list_eqb ss (ones r)
          || (list_eqb ds (ones r) && negb force_custom_impl) then
    inp <- getM input ;;
    call (TfPool ks ss ds padding_) ;;;
    liftR (tf_nn_pool inp ks ss ds padding_ "MAX")
  else
    (if String.eqb padding_ "SAME" then _pad_input else retM tt) ;;;
    input_ <- _reduce_dilations ;;
    pt <- getM pooling_type ;;
    call (TfPool ks ks (ones (List.length ks)) "VALID") ;;;
    liftR (tf_nn_pool input_ ks ks (ones (List.length ks)) "VALID" pt))%M.

(** A 2x2 input, kernel 2x2, stride 1, SAME_LOWER, freshly built. *)
Definition lower_example : DilatedPooling :=
  init (fin_tensor [1; 2; 2; 1] (zrange 4)) [2; 2] [1; 1] [1; 1]
    (PadStr "SAME_LOWER") false "MAX".

(** * Helpers of onnx_tf/common/__init__.py *)

(** ** Dictionaries: [invertible] and [invert]

    A Python [dict] is its list of items in insertion order, with pairwise
    distinct keys. *)

Section Dict.

Context {K V : Type}.
Variable K_eq_dec : forall x y : K, {x = y} + {x <> y}.
Variable V_eq_dec : forall x y : V, {x = y} + {x <> y}.

(** [d.get(k)]. *)
Fixpoint dict_get (d : list (K * V)) (k : K) : option V :=
  match d with
  | [] => None
  | (k', v) :: d' => if K_eq_dec k k' then Some v else dict_get d' k
  end.

(** [d[k] = v]: the value of an existing key is replaced in place, a new
    key is appended. *)
Fixpoint dict_setitem (d : list (K * V)) (k : K) (v : V) : list (K * V) :=
  match d with
  | [] => [(k, v)]
  | (k', v') :: d' =>
      if K_eq_dec k k' then (k, v) :: d' else (k', v') :: dict_setitem d' k v
  end.

(** [len(set(l))]. *)
Definition len_set (l : list V) : nat := List.length (nodup V_eq_dec l).

(** [invertible]. *)
Definition invertible (d : list (K * V)) : bool :=
  Nat.eqb (List.length (map snd d)) (len_set (map snd d)).

End Dict.

(** [invert]: the comprehension [{v: k for k, v in dict.items()}] assigns
    the items one after the other. *)
Definition invert {K V : Type}
  (V_eq_dec : forall x y : V, {x = y} + {x <> y}) (d : list (K * V))
  : res (list (V * K)) :=
  if negb (invertible V_eq_dec d) then
    Raise (ValueError
             "The dictionary is not invertible because it is not one-to-one.")
  else
    Ok (fold_left (fun inverse kv => dict_setitem V_eq_dec inverse (snd kv) (fst kv))
          d []).

(** ** [op_name_to_lower] *)

Definition is_upper (c : ascii) : bool :=
  (Nat.leb 65 (nat_of_ascii c) && Nat.leb (nat_of_ascii c) 90)%bool.

(** The substitution of the empty match [(?=[A-Z])] by an underscore at
    every position of [s]. *)
Fixpoint underscore_before_upper (s : string) : string :=
  match s with
  | EmptyString => EmptyString
  | String c s' =>
      if is_upper c then String "_" (String c (underscore_before_upper s'))
      else String c (underscore_before_upper s')
  end.

(** Whether every character of a string is an ASCII character. *)
Fixpoint is_ascii (s : string) : bool :=
  match s with
  | EmptyString => true
  | String c s' => Nat.ltb (nat_of_ascii c) 128 && is_ascii s'
  end.

(** [op_name_to_lower]: the lookbehind [(?<!^)] excludes the position in
    front of the first character.  [str.lower()] follows the Unicode case
    tables; on a string of ASCII characters it changes the letters [A-Z]
    only, which is what [lower] does.  The result is given for such names;
    for a name with any other character it is [None]: that case is not
    modelled. *)
Definition op_name_to_lower (name : string) : option string :=
  if is_ascii name then
    Some (lower (match name with
                 | EmptyString => EmptyString
                 | String c s' => String c (underscore_before_upper s')
                 end))
  else None.

(** ** [get_perm_from_formats] *)

(** [s.find(c)] for a one-character [c], counting from [i]. *)
Fixpoint find_char (s : string) (c : ascii) (i : Z) : Z :=
  match s with
  | EmptyString => -1
  | String a s' => if Ascii.eqb a c then i else find_char s' c (i + 1)
  end.

(** [get_perm_from_formats]. *)
Definition get_perm_from_formats (_from _to : string) : list Z :=
  map (fun x => find_char _from x 0) (list_ascii_of_string _to).

(** The character of [s] at a non-negative index. *)
Definition char_at (s : string) (i : Z) : option ascii :=
  if 0 <=? i then String.get (Z.to_nat i) s else None.

(** The number of upper-case letters of a string. *)
Fixpoint count_upper (s : string) : nat :=
  match s with
  | EmptyString => 0
  | String c s' => ((if is_upper c then 1 else 0) + count_upper s')%nat
  end.

(** Whether a string has no upper-case letter. *)
Fixpoint no_upper (s : string) : bool :=
  match s with
  | EmptyString => true
  | String c s' => negb (is_upper c) && no_upper s'
  end.

(** The items of a dictionary with key and value exchanged. *)
Definition swap_items {K V : Type} (d : list (K * V)) : list (V * K) :=
  map (fun kv => (snd kv, fst kv)) d.

(** The attribute dictionary [ONNX_ATTR_TO_TF_ATTR]. *)
Definition ONNX_ATTR_TO_TF_ATTR : list (string * string) :=
  [("scale", "stddev"); ("high", "maxval"); ("low", "minval");
   ("axes", "axis"); ("keepdims", "keep_dims")].

(** All ways of picking one entry per column, first column slowest. *)
Fixpoint cartesian (cols : list (list Z)) : list (list Z) :=
  match cols with
  | [] => [[]]
  | col :: rest => flat_map (fun x => map (cons x) (cartesian rest)) col
  end.

(** The input positions that axis [dim] of the reduced tensor reads, in
    the order of the reduced axis. *)
Definition axis_positions (self : DilatedPooling) (ins : list Z) (dim : nat)
  : list Z :=
  map (fun ind =>
         _calc_input_ind ind (nth dim (kernel_shape self) 0)
           (nth dim (dilations self) 0) (nth dim (strides self) 0))
      (zrange (reduced_length (nth dim ins 0) (nth dim (kernel_shape self) 0)
                 (nth dim (dilations self) 0) (nth dim (strides self) 0))).

(** The reduced length of axis [dim] for spatial sizes [ins]. *)
Definition axis_reduced_length (self : DilatedPooling) (ins : list Z)
  (dim : nat) : Z :=
  reduced_length (nth dim ins 0) (nth dim (kernel_shape self) 0)
    (nth dim (dilations self) 0) (nth dim (strides self) 0).

(** The integer matrix with the given rows of [m] entries. *)
Definition matrix (rows : list (list Z)) (m : nat) : tensor Z :=
  mkTensor [Z.of_nat (List.length rows); Z.of_nat m] (concat rows).

(** Every spatial axis holds at least one dilated window: positive kernel
    size, dilation that is not negative, and an effective filter extent that
    fits in the axis. *)
Definition windows_fit (self : DilatedPooling) (ins : list Z) : bool :=
  forallb
    (fun dim =>
       (0 <? nth dim (kernel_shape self) 0)
       && (0 <=? nth dim (dilations self) 0)
       && (filter_extent (nth dim (kernel_shape self) 0)
             (nth dim (dilations self) 0) <=? nth dim ins 0))
    (range (spatial_size self)).

(** * Properties *)

(** ** Arithmetic of the roundings *)

Lemma floor_div_spec (a b : Z) :
  0 < b -> b * floor_div a b <= a < b * (floor_div a b + 1).
Proof.
  intros Hb. unfold floor_div.
  pose proof (Z.div_mod a b ltac:(lia)) as E.
  pose proof (Z.mod_pos_bound a b Hb) as B.
  nia.
Qed.

Lemma ceil_div_spec (a b : Z) :
  0 < b -> b * (ceil_div a b - 1) < a <= b * ceil_div a b.
Proof.
  intros Hb. unfold ceil_div.
  pose proof (Z.div_mod (- a) b ltac:(lia)) as E.
  pose proof (Z.mod_pos_bound (- a) b Hb) as B.
  nia.
Qed.

Lemma floor_div_unique (a b q : Z) :
  0 < b -> b * q <= a < b * (q + 1) -> floor_div a b = q.
Proof.
  intros Hb H. pose proof (floor_div_spec a b Hb). nia.
Qed.

Lemma ceil_div_unique (a b q : Z) :
  0 < b -> b * (q - 1) < a <= b * q -> ceil_div a b = q.
Proof.
  intros Hb H. pose proof (ceil_div_spec a b Hb). nia.
Qed.

(** The rounding gap is 0 on exact quotients and 1 otherwise. *)
Lemma ceil_minus_floor (a b : Z) :
  0 < b ->
  ceil_div a b - floor_div a b = if a mod b =? 0 then 0 else 1.
Proof.
  intros Hb.
  pose proof (Z.div_mod a b ltac:(lia)) as E.
  pose proof (Z.mod_pos_bound a b Hb) as B.
  destruct (Z.eqb_spec (a mod b) 0) as [H0 | H0].
  - rewrite (ceil_div_unique a b (a / b)), (floor_div_unique a b (a / b)); lia.
  - rewrite (ceil_div_unique a b (a / b + 1)), (floor_div_unique a b (a / b));
      lia.
Qed.

Lemma half_split_odd (t : Z) :
  Z.odd t = true ->
  ceil_div t 2 = t - ceil_div t 2 + 1 /\ t - floor_div t 2 = floor_div t 2 + 1.
Proof.
  intros Ho.
  pose proof (Zodd_bool_iff t) as [Hx _].
  apply Hx, Zodd_ex in Ho. destruct Ho as [m ->].
  rewrite (ceil_div_unique (2 * m + 1) 2 (m + 1)),
          (floor_div_unique (2 * m + 1) 2 m); lia.
Qed.

Lemma half_split_even (t : Z) :
  Z.even t = true -> ceil_div t 2 = floor_div t 2.
Proof.
  intros He.
  pose proof (Zeven_bool_iff t) as [Hx _].
  apply Hx, Zeven_ex in He. destruct He as [m ->].
  rewrite (ceil_div_unique (2 * m) 2 m), (floor_div_unique (2 * m) 2 m); lia.
Qed.

(** ** Loops that append a block per index *)

Lemma for_loop_app {A : Type} (idx : list nat)
  (body : nat -> list A -> res (list A)) (g : nat -> list A) :
  (forall i acc, In i idx -> body i acc = Ok (acc ++ g i)) ->
  forall acc, for_loop idx body acc = Ok (acc ++ flat_map g idx).
Proof.
  induction idx as [| i idx IH]; intros Hbody acc; simpl.
  - now rewrite app_nil_r.
  - rewrite Hbody by now left. simpl.
    rewrite IH by (intros; apply Hbody; now right).
    now rewrite <- app_assoc.
Qed.

Lemma nth_error_pairs_from {A : Type} (g h : nat -> A) (n : nat) :
  forall start i, (i < n)%nat ->
    nth_error (flat_map (fun j => [g j; h j]) (seq start n)) (2 * i)
      = Some (g (start + i)%nat)
    /\ nth_error (flat_map (fun j => [g j; h j]) (seq start n)) (2 * i + 1)
      = Some (h (start + i)%nat).
Proof.
  induction n as [| n IH]; intros start i Hi; [lia |].
  destruct i as [| i].
  - simpl. rewrite Nat.add_0_r. auto.
  - replace (2 * S i)%nat with (S (S (2 * i))) by lia.
    replace (S (S (2 * i)) + 1)%nat with (S (S (2 * i + 1))) by lia.
    cbn [seq flat_map app nth_error].
    destruct (IH (S start) i ltac:(lia)) as [E1 E2].
    rewrite E1, E2.
    replace (S start + i)%nat with (start + S i)%nat by lia. auto.
Qed.

Lemma nth_error_pairs {A : Type} (g h : nat -> A) (n i : nat) :
  (i < n)%nat ->
  nth_error (flat_map (fun j => [g j; h j]) (range n)) (2 * i) = Some (g i)
  /\ nth_error (flat_map (fun j => [g j; h j]) (range n)) (2 * i + 1)
     = Some (h i).
Proof.
  intros Hi. exact (nth_error_pairs_from g h n 0%nat i Hi).
Qed.

Lemma length_pairs {A : Type} (g h : nat -> A) (idx : list nat) :
  List.length (flat_map (fun j => [g j; h j]) idx) = (List.length idx * 2)%nat.
Proof.
  induction idx as [| j idx IH]; simpl; [reflexivity | now rewrite IH].
Qed.

Lemma map2_add_zeros (l : list Z) :
  map2 Z.add (np_zeros (List.length l)) l = l.
Proof.
  unfold np_zeros.
  induction l as [| x l IH]; simpl; [reflexivity | now rewrite IH].
Qed.

Lemma np_add_zeros (n : nat) (l : list Z) :
  List.length l = n -> np_add (np_zeros n) l = Ok l.
Proof.
  intros <-. unfold np_add.
  rewrite map2_add_zeros. unfold np_zeros.
  now rewrite repeat_length, Nat.eqb_refl.
Qed.

Lemma getitem_nth (l : list Z) (i : nat) :
  (i < List.length l)%nat -> getitem l i = Ok (nth i l 0).
Proof.
  intros Hi. unfold getitem.
  now rewrite (nth_error_nth' l 0 Hi).
Qed.

(** ** Padding calculator *)

Lemma axes_ok_lengths (self : DilatedPooling) (ins : list Z) :
  axes_ok self ins = true ->
  List.length ins = spatial_size self
  /\ List.length (kernel_shape self) = spatial_size self
  /\ List.length (dilations self) = spatial_size self
  /\ List.length (strides self) = spatial_size self
  /\ (forall i s, nth_error (strides self) i = Some s -> 0 < s).
Proof.
  unfold axes_ok. rewrite !andb_true_iff, !Nat.eqb_eq.
  intros [[[[H1 H2] H3] H4] H5]. repeat split; auto.
  intros i s Hs. rewrite forallb_forall in H5.
  apply nth_error_In in Hs. apply H5 in Hs. lia.
Qed.

Lemma nth_error_nth_default (l : list Z) (i : nat) (x : Z) :
  nth_error l i = Some x -> nth i l 0 = x.
Proof. intros H. now apply nth_error_nth. Qed.

(** [_calc_pads_same] in closed form. *)
Lemma calc_pads_same_closed (self : DilatedPooling) (ins : list Z) :
  axes_ok self ins = true ->
  _calc_pads_same self ins =
  Ok (flat_map
        (fun i => [axis_pad_begin self ins i;
                   axis_total_pad self ins i - axis_pad_begin self ins i])
        (range (spatial_size self))).
Proof.
  intros Hok. destruct (axes_ok_lengths _ _ Hok) as (L1 & L2 & L3 & L4 & _).
  unfold _calc_pads_same.
  rewrite for_loop_app with
    (g := fun i => [axis_pad_begin self ins i;
                    axis_total_pad self ins i - axis_pad_begin self ins i]).
  - reflexivity.
  - intros i acc Hi. apply in_seq in Hi.
    rewrite !getitem_nth by lia. reflexivity.
Qed.

Lemma calc_pads_same_mode (self : DilatedPooling) (ins : list Z) :
  axes_ok self ins = true ->
  lower_startswith_same (padding self) = true ->
  _calc_pads self ins = _calc_pads_same self ins.
Proof.
  intros Hok Hsame. unfold _calc_pads.
  assert (Hl : is_list (padding self) = false).
  { destruct (padding self); [reflexivity | discriminate]. }
  rewrite Hl, Hsame. simpl negb. simpl orb. rewrite andb_false_r.
  rewrite (calc_pads_same_closed self ins Hok). simpl bindR.
  rewrite np_add_zeros; [reflexivity |].
  unfold range. rewrite length_pairs, length_seq. reflexivity.
Qed.

(** C5. With SAME-mode padding, [_calc_pads] (through [_calc_pads_same])
    gives every axis the pair [(begin, end)] with
    [total_pad = max ((ceil (in_size / stride) - 1) * stride
                      + (kernel - 1) * dilation + 1 - in_size, 0)],
    [end = total_pad - begin], [begin = ceil (total_pad / 2)] for SAME_LOWER
    and [begin = floor (total_pad / 2)] for SAME_UPPER; so an odd
    [total_pad] puts its extra unit at the beginning for SAME_LOWER
    ([begin = end + 1]) and at the end for SAME_UPPER ([end = begin + 1]). *)
Theorem calc_pads_same_split :
  forall (self : DilatedPooling) (ins : list Z) (p : string) (i : nat)
         (in_size k d s : Z),
    axes_ok self ins = true ->
    padding self = PadStr p ->
    lower p = "same_lower" \/ lower p = "same_upper" ->
    nth_error ins i = Some in_size ->
    nth_error (kernel_shape self) i = Some k ->
    nth_error (dilations self) i = Some d ->
    nth_error (strides self) i = Some s ->
    exists pad_begin pad_end pads_,
      _calc_pads self ins = Ok pads_
      /\ _calc_pads_same self ins = Ok pads_
      /\ nth_error pads_ (2 * i) = Some pad_begin
      /\ nth_error pads_ (2 * i + 1) = Some pad_end
      /\ pad_end = same_total_pad in_size k d s - pad_begin
      /\ (lower p = "same_lower" ->
          pad_begin = ceil_div (same_total_pad in_size k d s) 2
          /\ (Z.odd (same_total_pad in_size k d s) = true ->
              pad_begin = pad_end + 1))
      /\ (lower p = "same_upper" ->
          pad_begin = floor_div (same_total_pad in_size k d s) 2
          /\ (Z.odd (same_total_pad in_size k d s) = true ->
              pad_end = pad_begin + 1)).
Proof.
  intros self ins p i in_size k d s Hok Hp Hmode Hin Hk Hd Hs.
  destruct (axes_ok_lengths _ _ Hok) as (L1 & _).
  assert (Hi : (i < spatial_size self)%nat).
  { rewrite <- L1. apply nth_error_Some. congruence. }
  assert (Hsame : lower_startswith_same (padding self) = true).
  { rewrite Hp. simpl. destruct Hmode as [-> | ->]; reflexivity. }
  set (total := same_total_pad in_size k d s).
  set (b := if is_same_lower (padding self)
            then ceil_div total 2 else floor_div total 2).
  exists b, (total - b).
  eexists. rewrite (calc_pads_same_mode self ins Hok Hsame).
  rewrite (calc_pads_same_closed self ins Hok).
  split; [reflexivity |]. split; [reflexivity |].
  destruct (nth_error_pairs (axis_pad_begin self ins)
              (fun j => axis_total_pad self ins j - axis_pad_begin self ins j)
              (spatial_size self) i Hi) as [E1 E2].
  cbv beta in E1, E2. unfold axis_pad_begin, axis_total_pad in E1, E2.
  rewrite (nth_error_nth_default _ _ _ Hin), (nth_error_nth_default _ _ _ Hk),
    (nth_error_nth_default _ _ _ Hd), (nth_error_nth_default _ _ _ Hs) in E1, E2.
  split; [exact E1 |]. split; [exact E2 |]. split; [reflexivity |].
  subst b. rewrite Hp. simpl is_same_lower.
  split; intros Hlow; rewrite Hlow; simpl.
  - split; [reflexivity |]. intros Hodd.
    destruct (half_split_odd total Hodd) as [H1 _]. fold total. lia.
  - split; [reflexivity |]. intros Hodd.
    destruct (half_split_odd total Hodd) as [_ H2]. fold total. lia.
Qed.

Lemma repeat_pairs (n start : nat) :
  repeat 0 (n * 2) = flat_map (fun _ : nat => [0; 0]) (seq start n).
Proof.
  revert start.
  induction n as [| n IH]; intros start; simpl; [reflexivity |].
  now rewrite (IH (S start)).
Qed.

Lemma np_zeros_pairs (n : nat) :
  np_zeros (n * 2) = flat_map (fun _ : nat => [0; 0]) (range n).
Proof. apply repeat_pairs. Qed.

Lemma map2_add_pairs (g h g' h' : nat -> Z) (idx : list nat) :
  map2 Z.add (flat_map (fun i => [g i; h i]) idx)
             (flat_map (fun i => [g' i; h' i]) idx)
  = flat_map (fun i => [g i + g' i; h i + h' i]) idx.
Proof.
  induction idx as [| j idx IH]; simpl; [reflexivity | now rewrite IH].
Qed.

Lemma np_add_pairs (g h g' h' : nat -> Z) (idx : list nat) :
  np_add (flat_map (fun i => [g i; h i]) idx)
         (flat_map (fun i => [g' i; h' i]) idx)
  = Ok (flat_map (fun i => [g i + g' i; h i + h' i]) idx).
Proof.
  unfold np_add. rewrite !length_pairs, Nat.eqb_refl.
  now rewrite map2_add_pairs.
Qed.

Lemma flat_map_ext_on {A B : Type} (f g : A -> list B) (l : list A) :
  (forall a, In a l -> f a = g a) -> flat_map f l = flat_map g l.
Proof.
  induction l as [| x l IH]; intros H; simpl; [reflexivity |].
  rewrite (H x) by now left.
  rewrite IH; [reflexivity | intros; apply H; now right].
Qed.

Lemma flat_map_singleton {A B : Type} (f : A -> B) (l : list A) :
  flat_map (fun x => [f x]) l = map f l.
Proof.
  induction l as [| x l IH]; simpl; [reflexivity | now rewrite IH].
Qed.

Lemma nth_map_range (f : nat -> Z) (n i : nat) :
  (i < n)%nat -> nth i (map f (range n)) 0 = f i.
Proof.
  intros Hi. unfold range.
  rewrite nth_indep with (d' := f 0%nat) by now rewrite length_map, length_seq.
  rewrite map_nth, seq_nth by assumption. reflexivity.
Qed.

(** [_calc_pads_explicit] in closed form. *)
Lemma calc_pads_explicit_closed (self : DilatedPooling) (l : list Z) :
  padding self = PadList l ->
  List.length l = (spatial_size self * 2)%nat ->
  _calc_pads_explicit self =
  Ok (flat_map (fun i => [explicit_lo (padding self) i;
                          explicit_hi (padding self) (spatial_size self) i])
        (range (spatial_size self))).
Proof.
  intros Hp Hlen. unfold _calc_pads_explicit. rewrite Hp.
  rewrite for_loop_app with
    (g := fun i => [explicit_lo (PadList l) i;
                    explicit_hi (PadList l) (spatial_size self) i]).
  - reflexivity.
  - intros i acc Hi. apply in_seq in Hi.
    rewrite !getitem_nth by lia. reflexivity.
Qed.

(** [_calc_pads_ceil_mode] in closed form. *)
Lemma calc_pads_ceil_mode_closed (self : DilatedPooling) (ins : list Z) :
  axes_ok self ins = true ->
  _calc_pads_ceil_mode self ins =
  Ok (flat_map
        (fun i => [0; ceil_extra_pad (nth i ins 0) (nth i (kernel_shape self) 0)
                        (nth i (dilations self) 0) (nth i (strides self) 0)])
        (range (spatial_size self))).
Proof.
  intros Hok. destruct (axes_ok_lengths _ _ Hok) as (L1 & L2 & L3 & L4 & _).
  unfold _calc_pads_ceil_mode.
  rewrite for_loop_app with
    (g := fun i => [0; ceil_extra_pad (nth i ins 0) (nth i (kernel_shape self) 0)
                         (nth i (dilations self) 0) (nth i (strides self) 0)]).
  - reflexivity.
  - intros i acc Hi. apply in_seq in Hi.
    rewrite !getitem_nth by lia. reflexivity.
Qed.

Lemma axes_ok_resize (self : DilatedPooling) (ins ins' : list Z) :
  axes_ok self ins = true ->
  List.length ins' = List.length ins ->
  axes_ok self ins' = true.
Proof.
  unfold axes_ok. intros H E. now rewrite E.
Qed.

(** The ceil-mode step of [_calc_pads] on pads [(lo i, hi i)]. *)
Lemma calc_pads_ceil_step (self : DilatedPooling) (ins : list Z)
  (lo hi : nat -> Z) :
  axes_ok self ins = true ->
  (new_spatial_shape <~
     for_loop (range (spatial_size self))
       (fun i acc =>
          n <~ getitem ins i ;;
          lo_ <~ getitem (flat_map (fun j => [lo j; hi j])
                            (range (spatial_size self))) (i * 2) ;;
          hi_ <~ getitem (flat_map (fun j => [lo j; hi j])
                            (range (spatial_size self))) (i * 2 + 1) ;;
          Ok (acc ++ [n + lo_ + hi_]))
       [] ;;
   e <~ _calc_pads_ceil_mode self new_spatial_shape ;;
   np_add (flat_map (fun j => [lo j; hi j]) (range (spatial_size self))) e)%res
  = Ok (flat_map
          (fun i => [lo i + 0;
                     hi i + ceil_extra_pad (nth i ins 0 + lo i + hi i)
                              (nth i (kernel_shape self) 0)
                              (nth i (dilations self) 0)
                              (nth i (strides self) 0)])
          (range (spatial_size self))).
Proof.
  intros Hok. destruct (axes_ok_lengths _ _ Hok) as (L1 & _).
  rewrite for_loop_app with (g := fun i => [nth i ins 0 + lo i + hi i]).
  2:{ intros i acc Hi. apply in_seq in Hi.
      rewrite getitem_nth by lia.
      destruct (nth_error_pairs lo hi (spatial_size self) i ltac:(lia))
        as [E1 E2].
      unfold getitem. rewrite (Nat.mul_comm i 2), E1, E2. reflexivity. }
  simpl app. rewrite flat_map_singleton. simpl bindR.
  rewrite calc_pads_ceil_mode_closed.
  2:{ apply (axes_ok_resize self ins); [assumption |].
      unfold range. now rewrite length_map, length_seq. }
  simpl bindR. rewrite np_add_pairs. f_equal.
  apply flat_map_ext_on. intros i Hi. apply in_seq in Hi.
  rewrite nth_map_range by lia. reflexivity.
Qed.

Lemma calc_pads_same_split_witness :
  exists pad_begin pad_end pads_,
    _calc_pads (same_example "SAME_LOWER") [5; 4] = Ok pads_
    /\ _calc_pads_same (same_example "SAME_LOWER") [5; 4] = Ok pads_
    /\ nth_error pads_ (2 * 1) = Some pad_begin
    /\ nth_error pads_ (2 * 1 + 1) = Some pad_end
    /\ pad_end = same_total_pad 4 2 1 1 - pad_begin
    /\ (lower "SAME_LOWER" = "same_lower" ->
        pad_begin = ceil_div (same_total_pad 4 2 1 1) 2
        /\ (Z.odd (same_total_pad 4 2 1 1) = true -> pad_begin = pad_end + 1))
    /\ (lower "SAME_LOWER" = "same_upper" ->
        pad_begin = floor_div (same_total_pad 4 2 1 1) 2
        /\ (Z.odd (same_total_pad 4 2 1 1) = true -> pad_end = pad_begin + 1)).
Proof.
  apply (calc_pads_same_split (same_example "SAME_LOWER") [5; 4] "SAME_LOWER"
           1%nat 4 2 1 1);
    first [reflexivity | left; reflexivity].
Defined.

(** [_calc_pads] in closed form when ceil mode applies. *)
Lemma calc_pads_ceil_closed (self : DilatedPooling) (ins : list Z) :
  axes_ok self ins = true ->
  ceil_mode self = true ->
  ceil_mode_applies self = true ->
  _calc_pads self ins =
  Ok (flat_map
        (fun i =>
           [explicit_lo (padding self) i + 0;
            explicit_hi (padding self) (spatial_size self) i
            + ceil_extra_pad
                (nth i ins 0 + explicit_lo (padding self) i
                 + explicit_hi (padding self) (spatial_size self) i)
                (nth i (kernel_shape self) 0) (nth i (dilations self) 0)
                (nth i (strides self) 0)])
        (range (spatial_size self))).
Proof.
  intros Hok Hceil Happ. unfold _calc_pads, ceil_mode_applies in *.
  rewrite Hceil.
  destruct (padding self) as [p | l] eqn:Hp.
  - simpl is_list. simpl lower_startswith_same.
    apply negb_true_iff in Happ. rewrite Happ. simpl.
    rewrite np_zeros_pairs.
    apply (calc_pads_ceil_step self ins (fun _ => 0) (fun _ => 0) Hok).
  - simpl is_list. simpl lower_startswith_same. cbv iota.
    apply Nat.eqb_eq in Happ.
    rewrite (calc_pads_explicit_closed self l Hp Happ), Hp. simpl bindR.
    rewrite np_add_zeros
      by (unfold range; now rewrite length_pairs, length_seq).
    simpl andb. cbv iota.
    apply (calc_pads_ceil_step self ins (explicit_lo (PadList l))
             (explicit_hi (PadList l) (spatial_size self)) Hok).
Qed.

(** With SAME padding the ceil-mode flag does not change [_calc_pads]. *)
Lemma calc_pads_same_ignores_ceil (self : DilatedPooling) (ins : list Z) :
  lower_startswith_same (padding self) = true ->
  _calc_pads (with_ceil_mode true self) ins
  = _calc_pads (with_ceil_mode false self) ins.
Proof.
  intros Hsame. unfold _calc_pads. simpl.
  assert (Hl : is_list (padding self) = false).
  { destruct (padding self); [reflexivity | discriminate]. }
  rewrite Hl, Hsame. simpl. reflexivity.
Qed.

Lemma ceil_extra_pad_cases (size k d s : Z) :
  0 < s ->
  ceil_extra_pad size k d s
  = if (size - filter_extent k d) mod s =? 0 then 0 else s.
Proof.
  intros Hs. unfold ceil_extra_pad.
  rewrite (ceil_minus_floor _ s Hs).
  destruct ((size - filter_extent k d) mod s =? 0); lia.
Qed.

Lemma ceil_extra_pad_output (size k d s : Z) :
  0 < s ->
  floor_div (size + ceil_extra_pad size k d s - filter_extent k d) s + 1
  = ceil_div (size - filter_extent k d) s + 1.
Proof.
  intros Hs. f_equal.
  pose proof (ceil_minus_floor (size - filter_extent k d) s Hs) as G.
  rewrite (ceil_extra_pad_cases size k d s Hs).
  destruct ((size - filter_extent k d) mod s =? 0).
  - replace (size + 0 - filter_extent k d) with (size - filter_extent k d)
      by lia. lia.
  - replace (size + s - filter_extent k d)
      with (size - filter_extent k d + 1 * s) by lia.
    unfold floor_div in *. rewrite Z.div_add by lia. lia.
Qed.

(** C6 (amended).  With ceil mode on and VALID or explicit padding,
    [_calc_pads] keeps the leading pad of every axis and adds to its
    trailing pad [(ceil f - floor f) * stride], where
    [f = (size - ((kernel - 1) * dilation + 1)) / stride] and [size] is the
    size of the axis once its explicit pads are applied (the input size
    itself for VALID).  That extra pad is [stride] when
    [size - filter_size] is not a multiple of [stride] and 0 otherwise, and
    the output size becomes [ceil ((size - filter_size) / stride) + 1].
    With SAME padding the ceil-mode flag changes nothing. *)
Theorem calc_pads_ceil_mode_extra :
  forall (self : DilatedPooling) (ins : list Z) (i : nat) (in_size k d s : Z),
    axes_ok self ins = true ->
    ceil_mode self = true ->
    ceil_mode_applies self = true ->
    nth_error ins i = Some in_size ->
    nth_error (kernel_shape self) i = Some k ->
    nth_error (dilations self) i = Some d ->
    nth_error (strides self) i = Some s ->
    let lo := explicit_lo (padding self) i in
    let hi := explicit_hi (padding self) (spatial_size self) i in
    let size := in_size + lo + hi in
    (exists pads_,
        _calc_pads self ins = Ok pads_
        /\ nth_error pads_ (2 * i) = Some lo
        /\ nth_error pads_ (2 * i + 1) = Some (hi + ceil_extra_pad size k d s))
    /\ ceil_extra_pad size k d s
       = (if (size - filter_extent k d) mod s =? 0 then 0 else s)
    /\ floor_div (size + ceil_extra_pad size k d s - filter_extent k d) s + 1
       = ceil_div (size - filter_extent k d) s + 1
    /\ (forall (self' : DilatedPooling) (ins' : list Z),
           lower_startswith_same (padding self') = true ->
           _calc_pads (with_ceil_mode true self') ins'
           = _calc_pads (with_ceil_mode false self') ins').
Proof.
  intros self ins i in_size k d s Hok Hceil Happ Hin Hk Hd Hs lo hi size.
  destruct (axes_ok_lengths _ _ Hok) as (L1 & _ & _ & _ & Hpos).
  assert (Hi : (i < spatial_size self)%nat).
  { rewrite <- L1. apply nth_error_Some. congruence. }
  assert (Hs0 : 0 < s) by (eapply Hpos; eassumption).
  split; [| split; [| split]].
  - eexists. rewrite (calc_pads_ceil_closed self ins Hok Hceil Happ).
    split; [reflexivity |].
    match goal with
    | |- nth_error (flat_map ?f _) _ = _ /\ _ =>
        destruct (nth_error_pairs
                    (fun j => explicit_lo (padding self) j + 0)
                    (fun j =>
                       explicit_hi (padding self) (spatial_size self) j
                       + ceil_extra_pad
                           (nth j ins 0 + explicit_lo (padding self) j
                            + explicit_hi (padding self) (spatial_size self) j)
                           (nth j (kernel_shape self) 0)
                           (nth j (dilations self) 0)
                           (nth j (strides self) 0))
                    (spatial_size self) i Hi) as [E1 E2]
    end.
    cbv beta in E1, E2.
    rewrite (nth_error_nth_default _ _ _ Hin), (nth_error_nth_default _ _ _ Hk),
      (nth_error_nth_default _ _ _ Hd), (nth_error_nth_default _ _ _ Hs) in E2.
    rewrite Z.add_0_r in E1. split; assumption.
  - apply ceil_extra_pad_cases; assumption.
  - apply ceil_extra_pad_output; assumption.
  - intros self' ins'. apply calc_pads_same_ignores_ceil.
Qed.

Lemma calc_pads_ceil_mode_extra_witness :
  ((exists pads_,
       _calc_pads valid_ceil_example [5] = Ok pads_
       /\ nth_error pads_ (2 * 0) = Some 0
       /\ nth_error pads_ (2 * 0 + 1) = Some (0 + ceil_extra_pad (5 + 0 + 0) 2 1 2))
   /\ ceil_extra_pad (5 + 0 + 0) 2 1 2 = 2)
  /\ (exists pads_,
         _calc_pads explicit_ceil_example [4] = Ok pads_
         /\ nth_error pads_ (2 * 0) = Some 1
         /\ nth_error pads_ (2 * 0 + 1) = Some (0 + ceil_extra_pad (4 + 1 + 0) 2 1 2)).
Proof.
  split.
  - pose proof (calc_pads_ceil_mode_extra valid_ceil_example [5] 0%nat 5 2 1 2
                  eq_refl eq_refl eq_refl eq_refl eq_refl eq_refl eq_refl)
      as (H1 & H2 & _).
    split; [exact H1 | exact H2].
  - exact (proj1 (calc_pads_ceil_mode_extra explicit_ceil_example [4] 0%nat
                    4 2 1 2
                    eq_refl eq_refl eq_refl eq_refl eq_refl eq_refl eq_refl)).
Defined.

(** C6 as stated, with [f] taken from the input size, fails for explicit
    padding: an axis of size 4 with explicit pads [(1, 0)], kernel 2 and
    stride 2 has [(4 - 2) / 2] exact, so the stated extra pad is 0, while
    [_calc_pads] adds 2 because the padded size 5 leaves [(5 - 2) / 2]
    inexact. *)
Lemma calc_pads_ceil_mode_input_size_counterexample :
  _calc_pads explicit_ceil_example [4] = Ok [1; 2]
  /\ explicit_hi (padding explicit_ceil_example) 1 0 + ceil_extra_pad 4 2 1 2 = 0
  /\ ~ (forall pads_,
           _calc_pads explicit_ceil_example [4] = Ok pads_ ->
           nth_error pads_ 1
           = Some (explicit_hi (padding explicit_ceil_example) 1 0
                   + ceil_extra_pad 4 2 1 2)).
Proof.
  split; [reflexivity |]. split; [reflexivity |].
  intros H. specialize (H [1; 2] eq_refl). discriminate H.
Qed.

(** ** Strategy selector *)

Lemma list_eqb_refl (l : list Z) : list_eqb l l = true.
Proof.
  unfold list_eqb. rewrite Nat.eqb_refl. simpl.
  induction l as [| x l IH]; simpl; [reflexivity |].
  now rewrite Z.eqb_refl.
Qed.

(** C9. With a spatial rank other than 2, [dilated_maxpool_with_argmax]
    raises the assertion failure at once: the object is left exactly as it
    was, so nothing was padded, reduced or pooled. *)
Theorem argmax_rank_precondition :
  forall (self : DilatedPooling) (force_custom_impl : bool),
    spatial_size self <> 2%nat ->
    dilated_maxpool_with_argmax force_custom_impl self
    = (Raise AssertionError, self).
Proof.
  intros self force Hr.
  apply Nat.eqb_neq in Hr.
  unfold dilated_maxpool_with_argmax.
  cbv [bindM getM Ok]. rewrite Hr. reflexivity.
Qed.

Lemma argmax_rank_precondition_witness :
  dilated_maxpool_with_argmax true rank1_example
  = (Raise AssertionError, rank1_example)
  /\ calls rank1_example = [].
Proof.
  split.
  - apply (argmax_rank_precondition rank1_example true). discriminate.
  - reflexivity.
Defined.

(** C8 (evaluation of the code).  A fresh object with two spatial axes,
    dilations [[1; 1]] and the padding string [VALID], asked for the argmax
    without forcing the custom path, never returns: [_pad_input] is not
    called on this branch, so the attribute [pads] read after the pooling
    primitive has never been assigned.  The call ends in that attribute
    error, or earlier in the error of the pooling primitive. *)
Theorem argmax_valid_reads_unset_pads :
  forall (inp : tensor value) (k0 k1 : Z) (ss : list Z) (ceil : bool),
    fst (dilated_maxpool_with_argmax false
           (init inp [k0; k1] ss [1; 1] (PadStr "VALID") ceil "MAX"))
    = match tf_nn_max_pool_with_argmax inp (nhwc [k0; k1]) (nhwc ss) "VALID" with
      | inr _ => Raise (AttributeError "pads")
      | inl e => Raise e
      end.
Proof.
  intros inp k0 k1 ss ceil.
  lazy -[tf_nn_max_pool_with_argmax].
  destruct (tf_nn_max_pool_with_argmax _ _ _ _) as [e | pr]; reflexivity.
Qed.

(** The concrete instance: a 2x2 input, kernel 2x2. *)
Lemma argmax_valid_plain_example :
  fst (dilated_maxpool_with_argmax false plain_example)
  = Raise (AttributeError "pads").
Proof. reflexivity. Qed.

(** The padding dispatch on a string that is neither SAME_LOWER nor
    SAME_UPPER (VALID included): no padding, the string itself is handed
    on. *)
Lemma padding_dispatch_other (self : DilatedPooling) (p : string) :
  padding self = PadStr p ->
  String.eqb (lower p) "same_lower" = false ->
  String.eqb (lower p) "same_upper" = false ->
  padding_dispatch self = (Ok p, self).
Proof.
  intros Hp Hl Hu. unfold padding_dispatch, bindM, getM, Ok.
  rewrite Hp. cbv iota beta. rewrite Hl, Hu. reflexivity.
Qed.

Lemma forced_unit_strides_calls (self : DilatedPooling) :
  padding self = PadStr "VALID" ->
  strides self = ones (spatial_size self) ->
  calls (snd (dilated_maxpool true self))
  = calls self
    ++ [TfPool (kernel_shape self) (strides self) (dilations self) "VALID"].
Proof.
  intros Hp Hs. unfold dilated_maxpool. unfold bindM at 1.
  rewrite (padding_dispatch_other self "VALID" Hp eq_refl eq_refl).
  unfold bindM, getM, liftR, call, retM, Ok.
  cbv [negb]. rewrite andb_false_r, Hs, list_eqb_refl.
  cbv [orb]. cbv iota beta.
  destruct (tf_nn_pool _ _ _ _ _ _); reflexivity.
Qed.

(** C7 (evaluation of the code).  With [force_custom_impl] true and strides
    all 1, the second test of [dilated_maxpool] succeeds on its first
    disjunct, whatever the flag: the only host call is the native N-D pool
    on the input itself, with the original strides and dilations, and the
    dilation reducer is not run. *)
Theorem forced_unit_strides_use_native_pool :
  forall (inp : tensor value) (ks ds : list Z) (ceil : bool),
    calls (snd (dilated_maxpool true
                  (init inp ks (ones (List.length ks)) ds (PadStr "VALID") ceil
                     "MAX")))
    = [TfPool ks (ones (List.length ks)) ds "VALID"].
Proof.
  intros inp ks ds ceil.
  now rewrite forced_unit_strides_calls.
Qed.

(** The concrete instance: the 3x4 input with dilations 2x2 and strides
    1x1, where the forced call returns what the native pool returns. *)
Lemma forced_unit_strides_wide_example :
  calls (snd (dilated_maxpool true wide_example))
  = [TfPool [2; 2] [1; 1] [2; 2] "VALID"]
  /\ fst (dilated_maxpool true wide_example)
     = tf_nn_pool (input wide_example) [2; 2] [1; 1] [2; 2] "VALID" "MAX".
Proof. split; reflexivity. Qed.

(** *** Computations that do not look at the padding argument *)

Lemma padding_frames_retM {A : Type} (q : padding_t) (a : A) :
  frames (with_padding q) (retM a).
Proof. intros self. reflexivity. Qed.

Lemma padding_frames_liftR {A : Type} (q : padding_t) (r : res A) :
  frames (with_padding q) (liftR r).
Proof. intros self. reflexivity. Qed.

Lemma padding_frames_getM {A : Type} (q : padding_t)
  (f : DilatedPooling -> A) :
  (forall self, f (with_padding q self) = f self) ->
  frames (with_padding q) (getM f).
Proof. intros Hf self. unfold getM. now rewrite Hf. Qed.

Lemma padding_frames_getattr {A : Type} (q : padding_t) (name : string)
  (f : DilatedPooling -> option A) :
  (forall self, f (with_padding q self) = f self) ->
  frames (with_padding q) (getattr name f).
Proof.
  intros Hf self. unfold getattr. rewrite Hf.
  destruct (f self); reflexivity.
Qed.

Lemma padding_frames_set_output_shape (q : padding_t) (v : list Z) :
  frames (with_padding q) (set_output_shape v).
Proof. intros self. reflexivity. Qed.

Lemma padding_frames_call (q : padding_t) (p : prim) :
  frames (with_padding q) (call p).
Proof. intros self. reflexivity. Qed.

Lemma padding_frames_bindM {A B : Type} (q : padding_t) (c : M A)
  (k : A -> M B) :
  frames (with_padding q) c ->
  (forall a, frames (with_padding q) (k a)) ->
  frames (with_padding q) (bindM c k).
Proof.
  intros Hc Hk self. unfold bindM. rewrite Hc.
  destruct (c self) as [[e | a] self1]; simpl; [reflexivity |].
  apply Hk.
Qed.

Lemma padding_frames_if {A : Type} (q : padding_t) (c : bool) (x y : M A) :
  frames (with_padding q) x ->
  frames (with_padding q) y ->
  frames (with_padding q) (if c then x else y).
Proof. destruct c; auto. Qed.

Lemma padding_frames_for_loopM {S : Type} (q : padding_t) (idx : list nat)
  (body : nat -> S -> M S) :
  (forall i s, frames (with_padding q) (body i s)) ->
  forall s, frames (with_padding q) (for_loopM idx body s).
Proof.
  intros Hbody. induction idx as [| i idx IH]; intros s; simpl.
  - apply padding_frames_retM.
  - apply padding_frames_bindM; [apply Hbody | assumption].
Qed.

Ltac padding_frame_step :=
  first
    [ apply padding_frames_bindM; [| intros ?]
    | apply padding_frames_for_loopM; intros ? ?
    | apply padding_frames_if
    | apply padding_frames_retM
    | apply padding_frames_liftR
    | apply padding_frames_call
    | apply padding_frames_set_output_shape
    | apply padding_frames_getM; reflexivity
    | apply padding_frames_getattr; reflexivity ].

Lemma padding_frames_reduce_axis (q : padding_t) (ins : list Z) (dim : nat)
  (g : tensor Z) :
  frames (with_padding q) (reduce_axis ins dim g).
Proof. unfold reduce_axis. repeat padding_frame_step. Qed.

Lemma padding_frames_reduce_dilations (q : padding_t) :
  frames (with_padding q) _reduce_dilations.
Proof.
  unfold _reduce_dilations.
  repeat first [apply padding_frames_reduce_axis | padding_frame_step].
Qed.

(** Once the dispatch has produced a string other than [SAME], the rest of
    [dilated_maxpool] never reads the padding argument of the object. *)
Lemma padding_frames_pool_after_dispatch (q : padding_t)
  (force_custom_impl : bool) (p : string) :
  String.eqb p "SAME" = false ->
  frames (with_padding q) (pool_after_dispatch force_custom_impl p).
Proof.
  intros Hs. unfold pool_after_dispatch. rewrite Hs.
  repeat first [apply padding_frames_reduce_dilations | padding_frame_step].
Qed.

Lemma with_padding_same (self : DilatedPooling) (q : padding_t) :
  padding self = q -> with_padding q self = self.
Proof. intros <-. destruct self. reflexivity. Qed.

(** On the custom path the string that the dispatch produced is only
    compared with [SAME]. *)
Lemma custom_path_ignores_string (self : DilatedPooling)
  (force_custom_impl : bool) (p p' : string) :
  Nat.eqb (spatial_size self) 2 && negb force_custom_impl = false ->
  list_eqb (strides self) (ones (spatial_size self))
  || (list_eqb (dilations self) (ones (spatial_size self))
      && negb force_custom_impl) = false ->
  String.eqb p "SAME" = false ->
  String.eqb p' "SAME" = false ->
  pool_after_dispatch force_custom_impl p self
  = pool_after_dispatch force_custom_impl p' self.
Proof.
  intros H2 H1 Hs Hs'. unfold pool_after_dispatch.
  unfold bindM at 1. unfold getM at 1. unfold Ok. cbv iota beta.
  unfold bindM at 1. unfold getM at 1. unfold Ok. cbv iota beta.
  unfold bindM at 1. unfold getM at 1. unfold Ok. cbv iota beta.
  unfold bindM at 1. unfold getM at 1. unfold Ok. cbv iota beta.
  symmetry.
  unfold bindM at 1. unfold getM at 1. unfold Ok. cbv iota beta.
  unfold bindM at 1. unfold getM at 1. unfold Ok. cbv iota beta.
  unfold bindM at 1. unfold getM at 1. unfold Ok. cbv iota beta.
  unfold bindM at 1. unfold getM at 1. unfold Ok. cbv iota beta.
  rewrite H2, H1, Hs, Hs'. reflexivity.
Qed.

(** [dilated_maxpool] after a dispatch that changes nothing. *)
Lemma dilated_maxpool_dispatched (self : DilatedPooling)
  (force_custom_impl : bool) (p : string) :
  padding_dispatch self = (Ok p, self) ->
  dilated_maxpool force_custom_impl self
  = pool_after_dispatch force_custom_impl p self.
Proof.
  intros Hd.
  change (dilated_maxpool force_custom_impl)
    with (bindM padding_dispatch (pool_after_dispatch force_custom_impl)).
  unfold bindM. now rewrite Hd.
Qed.

(** C10 (amended).  A padding string other than SAME_LOWER and SAME_UPPER
    (compared in lower case) is not rejected by the padding dispatch: the
    dispatch raises nothing, pads nothing, leaves the object as it is and
    keeps the string as [padding_].  What the pooling step then receives
    depends on the path.  The two native paths pass the string itself to
    the primitive: [tf.nn.dilation2d] with two spatial axes and no
    forcing, [tf.nn.pool] otherwise when the strides are all 1, or the
    dilations are all 1 and nothing is forced.  The custom path never
    passes it: unless the string is exactly [SAME], the input is not
    padded, the reduced input is pooled with [VALID], and the call returns
    what it returns for the same object with the padding string [VALID].
    And [_calc_pads] gives all-zero pads, without ceil mode, to every
    string that does not start with [same]. *)
Theorem unknown_padding_not_rejected :
  forall (self : DilatedPooling) (p : string),
    padding self = PadStr p ->
    lower p <> "same_lower" ->
    lower p <> "same_upper" ->
    padding_dispatch self = (Ok p, self)
    /\ (forall k0 k1 c : Z,
          spatial_size self = 2%nat ->
          nth_error (kernel_shape self) 0 = Some k0 ->
          nth_error (kernel_shape self) 1 = Some k1 ->
          nth_error (input_shape self) 3 = Some c ->
          dilated_maxpool false self
          = (tf_nn_dilation2d (input self) [k0; k1] (nhwc (strides self))
               (nhwc (dilations self)) p,
             snd (call (TfDilation2d (nhwc (strides self))
                          (nhwc (dilations self)) p) self)))
    /\ (forall force_custom_impl : bool,
          Nat.eqb (spatial_size self) 2 && negb force_custom_impl = false ->
          list_eqb (strides self) (ones (spatial_size self))
          || (list_eqb (dilations self) (ones (spatial_size self))
              && negb force_custom_impl) = true ->
          dilated_maxpool force_custom_impl self
          = (tf_nn_pool (input self) (kernel_shape self) (strides self)
               (dilations self) p "MAX",
             snd (call (TfPool (kernel_shape self) (strides self)
                          (dilations self) p) self)))
    /\ (forall force_custom_impl : bool,
          Nat.eqb (spatial_size self) 2 && negb force_custom_impl = false ->
          list_eqb (strides self) (ones (spatial_size self))
          || (list_eqb (dilations self) (ones (spatial_size self))
              && negb force_custom_impl) = false ->
          p <> "SAME" ->
          dilated_maxpool force_custom_impl self
          = (input_ <- _reduce_dilations ;;
             pt <- getM pooling_type ;;
             call (TfPool (kernel_shape self) (kernel_shape self)
                     (ones (List.length (kernel_shape self))) "VALID") ;;;
             liftR (tf_nn_pool input_ (kernel_shape self) (kernel_shape self)
                      (ones (List.length (kernel_shape self))) "VALID" pt))
              self
          /\ dilated_maxpool force_custom_impl self
             = (fst (dilated_maxpool force_custom_impl
                       (with_padding (PadStr "VALID") self)),
                with_padding (PadStr p)
                  (snd (dilated_maxpool force_custom_impl
                          (with_padding (PadStr "VALID") self)))))
    /\ (startswith (lower p) "same" = false ->
        ceil_mode self = false ->
        forall ins, _calc_pads self ins = Ok (np_zeros (spatial_size self * 2))).
Proof.
  intros self p Hp Hl Hu.
  apply String.eqb_neq in Hl. apply String.eqb_neq in Hu.
  pose proof (padding_dispatch_other self p Hp Hl Hu) as Hd.
  assert (Hrest : forall force_custom_impl,
             dilated_maxpool force_custom_impl self
             = pool_after_dispatch force_custom_impl p self)
    by (intros force_custom_impl; now apply dilated_maxpool_dispatched).
  split; [exact Hd |]. split; [| split; [| split]].
  - (* tf.nn.dilation2d *)
    intros k0 k1 c Hr Hk0 Hk1 Hc. rewrite Hrest.
    unfold pool_after_dispatch, bindM, getM, liftR, call, retM, getitem, Ok.
    assert (Hr' : Nat.eqb (spatial_size self) 2 = true) by now rewrite Hr.
    rewrite Hr'. cbn [negb andb]. cbv iota beta.
    rewrite Hk0. cbv iota beta. rewrite Hk1. cbv iota beta.
    rewrite Hc. cbv iota beta.
    destruct (tf_nn_dilation2d _ _ _ _ _); reflexivity.
  - (* tf.nn.pool *)
    intros force_custom_impl H2 H1. rewrite Hrest.
    unfold pool_after_dispatch, bindM, getM, liftR, call, retM, Ok.
    rewrite H2, H1. cbv iota beta.
    destruct (tf_nn_pool _ _ _ _ _ _); reflexivity.
  - (* the custom path *)
    intros force_custom_impl H2 H1 Hs. apply String.eqb_neq in Hs. split.
    { rewrite Hrest. unfold pool_after_dispatch.
      unfold bindM at 1. unfold getM at 1. unfold Ok. cbv iota beta.
      unfold bindM at 1. unfold getM at 1. unfold Ok. cbv iota beta.
      unfold bindM at 1. unfold getM at 1. unfold Ok. cbv iota beta.
      unfold bindM at 1. unfold getM at 1. unfold Ok. cbv iota beta.
      rewrite H2, H1, Hs. reflexivity. }
    rewrite (dilated_maxpool_dispatched (with_padding (PadStr "VALID") self)
               force_custom_impl "VALID"
               (padding_dispatch_other (with_padding (PadStr "VALID") self)
                  "VALID" eq_refl eq_refl eq_refl)).
    rewrite (padding_frames_pool_after_dispatch (PadStr "VALID")
               force_custom_impl "VALID" eq_refl self).
    cbn [fst snd].
    rewrite Hrest,
      (custom_path_ignores_string self force_custom_impl p "VALID" H2 H1 Hs
         eq_refl).
    rewrite <- (with_padding_same self (PadStr p) Hp) at 1.
    rewrite (padding_frames_pool_after_dispatch (PadStr p)
               force_custom_impl "VALID" eq_refl self).
    reflexivity.
  - intros Hsame Hceil ins. unfold _calc_pads.
    rewrite Hp, Hceil. simpl. rewrite Hsame. reflexivity.
Qed.

Lemma unknown_padding_not_rejected_witness :
  padding_dispatch foo_example = (Ok "FOO", foo_example)
  /\ dilated_maxpool false foo_example
     = (tf_nn_dilation2d (input foo_example) [2; 2] [1; 2; 2; 1] [1; 1; 1; 1]
          "FOO",
        snd (call (TfDilation2d [1; 2; 2; 1] [1; 1; 1; 1] "FOO") foo_example))
  /\ dilated_maxpool true foo_unit_strides_example
     = (tf_nn_pool (input foo_unit_strides_example) [2; 2] [1; 1] [2; 2]
          "FOO" "MAX",
        snd (call (TfPool [2; 2] [1; 1] [2; 2] "FOO")
               foo_unit_strides_example))
  /\ calls (snd (dilated_maxpool true foo_example))
     = [TfGatherNd; TfPool [2; 2] [2; 2] [1; 1] "VALID"]
  /\ dilated_maxpool true foo_example
     = (fst (dilated_maxpool true
               (with_padding (PadStr "VALID") foo_example)),
        with_padding (PadStr "FOO")
          (snd (dilated_maxpool true
                  (with_padding (PadStr "VALID") foo_example))))
  /\ _calc_pads foo_example [4; 4] = Ok [0; 0; 0; 0].
Proof.
  destruct (unknown_padding_not_rejected foo_example "FOO" eq_refl
              ltac:(discriminate) ltac:(discriminate))
    as (H1 & H2 & _ & H4 & H5).
  destruct (unknown_padding_not_rejected foo_unit_strides_example "FOO"
              eq_refl ltac:(discriminate) ltac:(discriminate))
    as (_ & _ & H3 & _).
  split; [exact H1 |].
  split; [exact (H2 2 2 1 eq_refl eq_refl eq_refl eq_refl) |].
  split; [exact (H3 true eq_refl eq_refl) |].
  destruct (H4 true eq_refl eq_refl ltac:(discriminate)) as [H4a H4b].
  split; [rewrite H4a; reflexivity |].
  split; [exact H4b |].
  exact (H5 eq_refl eq_refl [4; 4]).
Defined.

(** C10 as stated fails: with the padding string [FOO], forced custom
    path, strides 2x2, [dilated_maxpool] raises nothing and returns what it
    returns for VALID. *)
Lemma unknown_padding_counterexample :
  fst (dilated_maxpool true foo_example)
  = Ok (fin_tensor [1; 2; 2; 1] [5; 7; 13; 15])
  /\ fst (dilated_maxpool true foo_example)
     = fst (dilated_maxpool true foo_as_valid_example)
  /\ calls (snd (dilated_maxpool true foo_example))
     = [TfGatherNd; TfPool [2; 2] [2; 2] [1; 1] "VALID"]
  /\ ~ (exists e, fst (dilated_maxpool true foo_example) = Raise e).
Proof.
  repeat split; try reflexivity.
  intros [e He]. vm_compute in He. discriminate He.
Qed.

(** ** Dilation reducer *)

(** The index law of [_calc_input_ind]: position [w] of block [o] of the
    reduced axis reads the input position [o * s + w * d]. *)
Lemma calc_input_ind_window (o w k d s : Z) :
  0 <= w < k ->
  _calc_input_ind (o * k + w) k d s = o * s + w * d.
Proof.
  intros Hw. unfold _calc_input_ind.
  replace ((o * k + w) / k) with o; [ring |].
  apply Z.div_unique with (r := w); lia.
Qed.

(** C4. On the 4x4 input 0..15 with kernel 2x2, dilations 2x2 and strides
    1x1, [_calc_input_ind] maps [0, 1, 2, 3] to [0, 2, 1, 3] on each axis,
    [_reduce_dilations] returns
    [[0,2,1,3],[8,10,9,11],[4,6,5,7],[12,14,13,15]], and pooling that with
    window = strides = 2x2 gives [[10,11],[14,15]]. *)
Theorem reduce_dilations_docstring_example :
  map (fun ind => _calc_input_ind ind 2 2 1) [0; 1; 2; 3] = [0; 2; 1; 3]
  /\ fst (_reduce_dilations docstring_example)
     = Ok (fin_tensor [1; 4; 4; 1]
             [0; 2; 1; 3; 8; 10; 9; 11; 4; 6; 5; 7; 12; 14; 13; 15])
  /\ tf_nn_pool
       (fin_tensor [1; 4; 4; 1]
          [0; 2; 1; 3; 8; 10; 9; 11; 4; 6; 5; 7; 12; 14; 13; 15])
       [2; 2] [2; 2] [1; 1] "VALID" "MAX"
     = Ok (fin_tensor [1; 2; 2; 1] [10; 11; 14; 15])
  /\ direct_dilated_maxpool (input docstring_example) [2; 2] [1; 1] [2; 2]
     = Ok (fin_tensor [1; 2; 2; 1] [10; 11; 14; 15]).
Proof. repeat split; vm_compute; reflexivity. Qed.

(** C3 (evaluation of the code).  On a 3x4 input with kernel 2x2,
    dilations 2x2 and strides 1x1 the reduced lengths are [L_1 = 2] and
    [L_2 = 4], so the shape in original axis order is [[1; 2; 4; 1]];
    [_reduce_dilations] gathers the elements in that order but reshapes
    them to [[1; 4; 2; 1]], the lengths being appended while the axes are
    visited last to first. *)
Theorem reduce_dilations_wide_shape :
  reduced_shape wide_example = [1; 2; 4; 1]
  /\ fst (_reduce_dilations wide_example)
     = Ok (fin_tensor [1; 4; 2; 1] [0; 2; 1; 3; 8; 10; 9; 11])
  /\ output_shape (snd (_reduce_dilations wide_example)) = Some [1; 4; 2; 1]
  /\ fst (_reduce_dilations wide_example)
     <> Ok (fin_tensor [1; 2; 4; 1] [0; 2; 1; 3; 8; 10; 9; 11]).
Proof.
  repeat split; try (vm_compute; reflexivity).
  vm_compute. discriminate.
Qed.

(** C1 (evaluation of the code).  On a 3x5 input 0..14 with kernel 2x2,
    dilations 2x2 and strides 2x2, the custom path (forced) pools the
    reduced tensor to [[4],[14]], of shape 2x1, while dilated max pooling
    applied directly gives [[12, 14]], of shape 1x2. *)
Theorem custom_path_strided_example :
  (r <~ fst (_reduce_dilations strided_example) ;;
   tf_nn_pool r [2; 2] [2; 2] [1; 1] "VALID" "MAX")%res
  = Ok (fin_tensor [1; 2; 1; 1] [4; 14])
  /\ fst (dilated_maxpool true strided_example)
     = Ok (fin_tensor [1; 2; 1; 1] [4; 14])
  /\ calls (snd (dilated_maxpool true strided_example))
     = [TfGatherNd; TfPool [2; 2] [2; 2] [1; 1] "VALID"]
  /\ direct_dilated_maxpool (input strided_example) [2; 2] [2; 2] [2; 2]
     = Ok (fin_tensor [1; 1; 2; 1] [12; 14]).
Proof. repeat split; vm_compute; reflexivity. Qed.

(** C2 (evaluation of the code).  On the 3x4 input 0..11 with kernel 2x2,
    dilations 2x2, strides 1x1 and VALID padding,
    [dilated_maxpool_with_argmax] returns the pooled values 3 and 11 with
    the indices 10 and 14: the input holds 10 at index 10, and has no
    index 14. *)
Theorem argmax_wide_example :
  fst (dilated_maxpool_with_argmax false wide_example)
  = Ok (fin_tensor [1; 2; 1; 1] [3; 11], mkTensor [1; 2; 1; 1] [10; 14])
  /\ gather_flat (input wide_example) 10 = Some (Fin 10)
  /\ gather_flat (input wide_example) 14 = None.
Proof. repeat split; vm_compute; reflexivity. Qed.

(** On the square 4x4 example the reduced lengths are equal, the reshape
    is harmless, and every returned index addresses the reported value. *)
Lemma argmax_docstring_example :
  fst (dilated_maxpool_with_argmax false docstring_example)
  = Ok (fin_tensor [1; 2; 2; 1] [10; 11; 14; 15],
        mkTensor [1; 2; 2; 1] [10; 11; 14; 15])
  /\ map (gather_flat (input docstring_example)) [10; 11; 14; 15]
     = map Some (data (fin_tensor [1; 2; 2; 1] [10; 11; 14; 15])).
Proof. split; vm_compute; reflexivity. Qed.

(** *** The shape that the reducer records, for every rank *)

Lemma getitem_Ok_nth (l : list Z) (i : nat) (x : Z) :
  getitem l i = inr x -> nth i l 0 = x.
Proof.
  unfold getitem. destruct (nth_error l i) eqn:E; [| discriminate].
  intros [= <-]. now apply nth_error_nth.
Qed.

Lemma reduce_axis_output_shape (ins : list Z) (dim : nat) (g g' : tensor Z)
  (self self' : DilatedPooling) (os : list Z) :
  reduce_axis ins dim g self = (inr g', self') ->
  output_shape self = Some os ->
  same_config self' self
  /\ output_shape self'
     = Some (os ++ [reduced_length (nth dim ins 0)
                      (nth dim (kernel_shape self) 0)
                      (nth dim (dilations self) 0)
                      (nth dim (strides self) 0)]).
Proof.
  intros Hrun Hos.
  unfold reduce_axis, bindM, getM, liftR, getattr, set_output_shape, Ok in Hrun.
  destruct (getitem (kernel_shape self) dim) as [| k] eqn:Ek; [discriminate |].
  destruct (getitem (dilations self) dim) as [| d] eqn:Ed; [discriminate |].
  destruct (getitem (strides self) dim) as [| s] eqn:Es; [discriminate |].
  destruct (getitem ins dim) as [| n] eqn:En; [discriminate |].
  rewrite Hos in Hrun.
  destruct (_tf_product g _) as [| g''] in Hrun; [discriminate |].
  injection Hrun as _ <-.
  apply getitem_Ok_nth in Ek, Ed, Es, En. subst k d s n.
  split; [repeat split |]. reflexivity.
Qed.

Lemma reduce_loop_output_shape (ins : list Z) (idx : list nat) :
  forall (g g' : tensor Z) (self self' : DilatedPooling) (os : list Z),
    for_loopM idx (reduce_axis ins) g self = (inr g', self') ->
    output_shape self = Some os ->
    same_config self' self
    /\ output_shape self'
       = Some (os ++ map (fun dim =>
                            reduced_length (nth dim ins 0)
                              (nth dim (kernel_shape self) 0)
                              (nth dim (dilations self) 0)
                              (nth dim (strides self) 0)) idx).
Proof.
  induction idx as [| dim idx IH]; intros g g' self self' os Hrun Hos.
  - injection Hrun as _ <-. rewrite app_nil_r.
    split; [repeat split | assumption].
  - simpl in Hrun. unfold bindM in Hrun.
    destruct (reduce_axis ins dim g self) as [[e | g1] self1] eqn:E1;
      [discriminate |].
    destruct (reduce_axis_output_shape _ _ _ _ _ _ _ E1 Hos) as [C1 O1].
    destruct (IH _ _ _ _ _ Hrun O1) as [C2 O2].
    destruct C1 as (K1 & S1 & D1 & I1 & R1).
    destruct C2 as (K2 & S2 & D2 & I2 & R2).
    split; [repeat split; congruence |].
    rewrite O2, K1, S1, D1, <- app_assoc. reflexivity.
Qed.

Lemma expand_loop_frame (idx : list nat) :
  forall (g : tensor Z) (self : DilatedPooling),
    snd (for_loopM idx
           (fun _ gather_ind => retM (tf_expand_dims gather_ind 0)) g self)
    = self
    /\ exists g',
         fst (for_loopM idx
                (fun _ gather_ind => retM (tf_expand_dims gather_ind 0)) g self)
         = inr g'.
Proof.
  induction idx as [| i idx IH]; intros g self; simpl.
  - split; [reflexivity | now exists g].
  - unfold bindM, retM at 1. simpl. apply IH.
Qed.

(** Whenever [_reduce_dilations] returns, the shape it has recorded is
    [[batch, L_R, ..., L_1, channels]]: the reduced lengths in reverse axis
    order. *)
Lemma reduce_dilations_records_reversed_shape
  (self self' : DilatedPooling) (t : tensor value) :
  _reduce_dilations self = (inr t, self') ->
  output_shape self'
  = Some ([nth 0 (shape (input self)) 0]
          ++ rev (map (reducer_axis_length self) (range (spatial_size self)))
          ++ [nth (spatial_size self + 1) (shape (input self)) 0]).
Proof.
  intros Hrun.
  unfold _reduce_dilations in Hrun.
  unfold bindM at 1 2 3 4 5 in Hrun.
  unfold getM, liftR, set_output_shape, Ok, _tf_shape in Hrun.
  destruct (getitem (shape (input self)) (spatial_size self + 1))
    as [| c] eqn:Ec; [discriminate |].
  destruct (getitem (shape (input self)) 0) as [| b] eqn:Eb; [discriminate |].
  unfold bindM at 1 in Hrun.
  match type of Hrun with
  | context [for_loopM (range_down ?r) (reduce_axis ?ins) ?g ?st] =>
      destruct (for_loopM (range_down r) (reduce_axis ins) g st)
        as [[e | g1] self1] eqn:E1; [discriminate |];
      destruct (reduce_loop_output_shape ins _ _ _ _ _ [b] E1 eq_refl)
        as [C1 O1]
  end.
  cbn [kernel_shape dilations strides] in O1.
  unfold bindM at 1 in Hrun. unfold getattr at 1 in Hrun. rewrite O1 in Hrun.
  unfold bindM at 1 2 in Hrun. unfold Ok in Hrun. cbv iota in Hrun.
  match type of Hrun with
  | context [for_loopM ?idx ?body ?g ?st] =>
      destruct (expand_loop_frame idx g st) as [Hs [g2 Hg]];
      destruct (for_loopM idx body g st) as [r2 self2]
  end.
  simpl in Hs, Hg. subst self2 r2.
  unfold bindM, liftR, call, getM, getattr in Hrun. simpl in Hrun.
  destruct (tf_tile g2 _) as [| g3] in Hrun; [discriminate |].
  destruct (tf_gather_nd _ g3) as [| out] in Hrun; [discriminate |].
  injection Hrun as _ <-. simpl output_shape.
  apply getitem_Ok_nth in Ec, Eb. subst b c.
  unfold range_down. rewrite map_rev.
  reflexivity.
Qed.

(** * Further properties of the pooling engine *)

(** ** [_calc_input_ind] *)

(** The implemented expression [(ind // k) * (s - k * d) + ind * d] is the
    formula of the docstring, [(ind // k) * s + (ind % k) * d]. *)
Theorem calc_input_ind_docstring_formula :
  forall ind k d s : Z,
    0 < k ->
    _calc_input_ind ind k d s = (ind / k) * s + (ind mod k) * d.
Proof.
  intros ind k d s Hk. unfold _calc_input_ind.
  pose proof (Z.div_mod ind k ltac:(lia)) as E.
  rewrite E at 2. ring.
Qed.

Lemma calc_input_ind_docstring_formula_witness :
  _calc_input_ind 3 2 2 1 = (3 / 2) * 1 + (3 mod 2) * 2.
Proof. apply (calc_input_ind_docstring_formula 3 2 2 1). lia. Defined.

Lemma calc_input_ind_bounds (in_size k d s ind : Z) :
  0 < k -> 0 <= d -> 0 < s ->
  filter_extent k d <= in_size ->
  0 <= ind < reduced_length in_size k d s ->
  0 <= _calc_input_ind ind k d s < in_size.
Proof.
  intros Hk Hd Hs Hfit [H0 Hlt].
  unfold reduced_length, filter_extent in *.
  pose proof (Z.div_mod ind k ltac:(lia)) as E.
  replace (_calc_input_ind ind k d s)
    with ((ind / k) * s + (ind mod k) * d)
    by (unfold _calc_input_ind; set (o := ind / k) in *;
        set (w := ind mod k) in *; rewrite E; ring).
  pose proof (Z.mod_pos_bound ind k Hk) as B.
  pose proof (Z.div_mod (in_size - ((k - 1) * d + 1)) s ltac:(lia)) as E'.
  pose proof (Z.mod_pos_bound (in_size - ((k - 1) * d + 1)) s Hs) as B'.
  set (o := ind / k) in *. set (w := ind mod k) in *.
  set (q := (in_size - ((k - 1) * d + 1)) / s) in *.
  set (r := (in_size - ((k - 1) * d + 1)) mod s) in *.
  assert (Ho : 0 <= o) by (subst o; apply Z.div_pos; lia).
  assert (Hoq : o <= q) by nia.
  split; [nia |].
  assert (o * s <= q * s) by nia.
  assert (w * d <= (k - 1) * d) by nia.
  lia.
Qed.

(** ** The SAME pads *)

Lemma same_total_pad_output (in_size k d s : Z) :
  0 < s -> 1 <= filter_extent k d ->
  floor_div (in_size + same_total_pad in_size k d s - filter_extent k d) s + 1
  = ceil_div in_size s.
Proof.
  intros Hs Hf. unfold same_total_pad.
  pose proof (ceil_div_spec in_size s Hs) as C.
  set (out := ceil_div in_size s) in *.
  set (f := filter_extent k d) in *.
  assert (E : floor_div (in_size + Z.max ((out - 1) * s + f - in_size) 0 - f) s
              = out - 1).
  { apply floor_div_unique; [assumption |].
    destruct (Z.max_spec ((out - 1) * s + f - in_size) 0)
      as [[Hm ->] | [Hm ->]]; nia. }
  lia.
Qed.

Lemma same_split_nonneg (t : Z) :
  0 <= t ->
  0 <= ceil_div t 2 <= t /\ 0 <= floor_div t 2 <= t.
Proof.
  intros Ht.
  pose proof (ceil_div_spec t 2 ltac:(lia)).
  pose proof (floor_div_spec t 2 ltac:(lia)).
  lia.
Qed.

(** SAME-size law.  The pads that [_calc_pads_same] gives an axis are
    never negative, and pooling the padded axis without further padding
    yields [ceil (in_size / stride)] outputs, whatever the dilation. *)
Theorem calc_pads_same_output_size :
  forall (self : DilatedPooling) (ins : list Z) (i : nat) (in_size k d s : Z),
    axes_ok self ins = true ->
    nth_error ins i = Some in_size ->
    nth_error (kernel_shape self) i = Some k ->
    nth_error (dilations self) i = Some d ->
    nth_error (strides self) i = Some s ->
    1 <= k -> 0 <= d ->
    exists pads_ pad_begin pad_end,
      _calc_pads_same self ins = Ok pads_
      /\ nth_error pads_ (2 * i) = Some pad_begin
      /\ nth_error pads_ (2 * i + 1) = Some pad_end
      /\ 0 <= pad_begin /\ 0 <= pad_end
      /\ floor_div (in_size + pad_begin + pad_end - filter_extent k d) s + 1
         = ceil_div in_size s.
Proof.
  intros self ins i in_size k d s Hok Hin Hk Hd Hs Hk1 Hd0.
  destruct (axes_ok_lengths _ _ Hok) as (L1 & _ & _ & _ & Hpos).
  assert (Hi : (i < spatial_size self)%nat).
  { rewrite <- L1. apply nth_error_Some. congruence. }
  assert (Hs0 : 0 < s) by (eapply Hpos; eassumption).
  assert (Hf : 1 <= filter_extent k d) by (unfold filter_extent; nia).
  destruct (nth_error_pairs (axis_pad_begin self ins)
              (fun j => axis_total_pad self ins j - axis_pad_begin self ins j)
              (spatial_size self) i Hi) as [E1 E2].
  exists (flat_map
            (fun j => [axis_pad_begin self ins j;
                       axis_total_pad self ins j - axis_pad_begin self ins j])
            (range (spatial_size self))),
    (axis_pad_begin self ins i),
    (axis_total_pad self ins i - axis_pad_begin self ins i).
  split; [apply calc_pads_same_closed; assumption |].
  split; [exact E1 |]. split; [exact E2 |].
  assert (Ht : axis_total_pad self ins i = same_total_pad in_size k d s).
  { unfold axis_total_pad.
    now rewrite (nth_error_nth_default _ _ _ Hin),
      (nth_error_nth_default _ _ _ Hk), (nth_error_nth_default _ _ _ Hd),
      (nth_error_nth_default _ _ _ Hs). }
  assert (Ht0 : 0 <= axis_total_pad self ins i).
  { rewrite Ht. unfold same_total_pad. lia. }
  destruct (same_split_nonneg _ Ht0) as [Hc Hfl].
  assert (Hb : 0 <= axis_pad_begin self ins i <= axis_total_pad self ins i).
  { unfold axis_pad_begin. destruct (is_same_lower (padding self)); lia. }
  split; [lia |]. split; [lia |].
  replace (in_size + axis_pad_begin self ins i
           + (axis_total_pad self ins i - axis_pad_begin self ins i))
    with (in_size + same_total_pad in_size k d s) by lia.
  now apply same_total_pad_output.
Qed.

Lemma calc_pads_same_output_size_witness :
  exists pads_ pad_begin pad_end,
    _calc_pads_same (same_example "SAME_UPPER") [5; 4] = Ok pads_
    /\ nth_error pads_ (2 * 0) = Some pad_begin
    /\ nth_error pads_ (2 * 0 + 1) = Some pad_end
    /\ 0 <= pad_begin /\ 0 <= pad_end
    /\ floor_div (5 + pad_begin + pad_end - filter_extent 2 1) 1 + 1
       = ceil_div 5 1.
Proof.
  apply (calc_pads_same_output_size (same_example "SAME_UPPER") [5; 4] 0%nat
           5 2 1 1); first [reflexivity | lia].
Defined.

(** ** [_calc_pads_explicit] *)

Lemma for_loop_fails {A : Type} (pre post : list nat) (j : nat)
  (body : nat -> list A -> res (list A)) (g : nat -> list A) (e : exn) :
  (forall i acc, In i pre -> body i acc = Ok (acc ++ g i)) ->
  (forall acc, body j acc = Raise e) ->
  forall acc, for_loop (pre ++ j :: post) body acc = Raise e.
Proof.
  induction pre as [| i pre IH]; intros Hpre Hj acc; simpl.
  - now rewrite Hj.
  - rewrite Hpre by now left. simpl.
    apply IH; [intros; apply Hpre; now right | assumption].
Qed.

Lemma getitem_out_of_range (l : list Z) (i : nat) :
  (List.length l <= i)%nat -> getitem l i = Raise IndexError.
Proof.
  intros H. unfold getitem.
  now rewrite (proj2 (nth_error_None l i) H).
Qed.

Lemma range_split (n j : nat) :
  (j < n)%nat -> range n = seq 0 j ++ j :: seq (S j) (n - S j).
Proof.
  intros H. unfold range.
  replace n with (j + S (n - S j))%nat at 1 by lia.
  rewrite seq_app. reflexivity.
Qed.

(** [_calc_pads_explicit] turns the ONNX layout
    [[b_1, ..., b_R, e_1, ..., e_R]] into one [(b_i, e_i)] pair per axis;
    entries beyond the first [2 R] are ignored. *)
Theorem calc_pads_explicit_layout :
  forall (self : DilatedPooling) (l : list Z) (i : nat),
    padding self = PadList l ->
    (spatial_size self * 2 <= List.length l)%nat ->
    (i < spatial_size self)%nat ->
    exists pads_,
      _calc_pads_explicit self = Ok pads_
      /\ List.length pads_ = (spatial_size self * 2)%nat
      /\ nth_error pads_ (2 * i) = nth_error l i
      /\ nth_error pads_ (2 * i + 1) = nth_error l (i + spatial_size self).
Proof.
  intros self l i Hp Hlen Hi.
  exists (flat_map (fun j => [nth j l 0; nth (j + spatial_size self) l 0])
            (range (spatial_size self))).
  split.
  - unfold _calc_pads_explicit. rewrite Hp.
    rewrite for_loop_app with
      (g := fun j => [nth j l 0; nth (j + spatial_size self) l 0]);
      [reflexivity |].
    intros j acc Hj. apply in_seq in Hj.
    rewrite !getitem_nth by lia. reflexivity.
  - split; [unfold range; now rewrite length_pairs, length_seq |].
    destruct (nth_error_pairs (fun j => nth j l 0)
                (fun j => nth (j + spatial_size self) l 0)
                (spatial_size self) i Hi) as [E1 E2].
    rewrite E1, E2.
    rewrite !(nth_error_nth' l 0) by lia. auto.
Qed.

Lemma calc_pads_explicit_layout_witness :
  exists pads_,
    _calc_pads_explicit explicit_ceil_example = Ok pads_
    /\ List.length pads_ = (1 * 2)%nat
    /\ nth_error pads_ (2 * 0) = nth_error [1; 0] 0
    /\ nth_error pads_ (2 * 0 + 1) = nth_error [1; 0] (0 + 1).
Proof.
  apply (calc_pads_explicit_layout explicit_ceil_example [1; 0] 0%nat);
    first [reflexivity | simpl; lia].
Defined.

(** An explicit padding list with fewer than [2 R] entries makes
    [_calc_pads_explicit] raise IndexError. *)
Theorem calc_pads_explicit_short_list :
  forall (self : DilatedPooling) (l : list Z),
    padding self = PadList l ->
    (List.length l < spatial_size self * 2)%nat ->
    _calc_pads_explicit self = Raise IndexError.
Proof.
  intros self l Hp Hlen.
  unfold _calc_pads_explicit. rewrite Hp.
  set (r := spatial_size self) in *.
  set (j := (List.length l - r)%nat).
  assert (Hj : (j < r)%nat) by (subst j; lia).
  rewrite (range_split r j Hj).
  apply for_loop_fails with
    (g := fun i => [nth i l 0; nth (i + r) l 0]).
  - intros i acc Hi. apply in_seq in Hi.
    rewrite !getitem_nth by (subst j; lia). reflexivity.
  - intros acc.
    destruct (Nat.lt_ge_cases j (List.length l)) as [Hlt | Hge].
    + rewrite getitem_nth by assumption. simpl.
      rewrite getitem_out_of_range by (subst j; lia). reflexivity.
    + rewrite getitem_out_of_range by assumption. reflexivity.
Qed.

Lemma calc_pads_explicit_short_list_witness :
  _calc_pads_explicit
    (init (fin_tensor [1; 4; 4; 1] (zrange 16)) [2; 2] [1; 1] [1; 1]
       (PadList [1; 1; 1]) false "MAX")
  = Raise IndexError.
Proof.
  apply (calc_pads_explicit_short_list _ [1; 1; 1]); [reflexivity | simpl; lia].
Defined.

(** ** Index remapper *)

Lemma flat_pos_decompose (width channels row col ch : Z) :
  0 < width -> 0 < channels ->
  0 <= col < width -> 0 <= ch < channels ->
  let ind := flat_pos width channels row col ch in
  ind / channels = row * width + col
  /\ (ind / channels) / width = row
  /\ ind / channels - (ind / channels / width) * width = col
  /\ ind - (ind / channels) * channels = ch.
Proof.
  intros Hw Hc Hcol Hch ind. subst ind. unfold flat_pos.
  assert (E1 : ((row * width + col) * channels + ch) / channels
               = row * width + col).
  { symmetry. apply Z.div_unique with (r := ch); lia. }
  assert (E2 : (row * width + col) / width = row).
  { symmetry. apply Z.div_unique with (r := col); lia. }
  rewrite E1, E2. repeat split; lia.
Qed.

(** [_calc_orig_ind] takes the flattened index of position [(row, col, ch)]
    of the reduced tensor to the flattened index, in the original input, of
    position
    [(_calc_input_ind row - pads[0], _calc_input_ind col - pads[2], ch)];
    it changes nothing in the object. *)
Theorem calc_orig_ind_positions :
  forall (self : DilatedPooling) (sh : list Z) (pos : list (Z * Z * Z))
         (in_width C W : Z) (os ps : list Z) (k0 k1 d0 d1 s0 s1 p0 p2 : Z),
    nth_error (orig_input_shape self) 2 = Some in_width ->
    nth_error (orig_input_shape self) 3 = Some C ->
    output_shape self = Some os ->
    nth_error os 2 = Some W ->
    nth_error (kernel_shape self) 0 = Some k0 ->
    nth_error (kernel_shape self) 1 = Some k1 ->
    nth_error (dilations self) 0 = Some d0 ->
    nth_error (dilations self) 1 = Some d1 ->
    nth_error (strides self) 0 = Some s0 ->
    nth_error (strides self) 1 = Some s1 ->
    pads self = Some ps ->
    nth_error ps 0 = Some p0 ->
    nth_error ps 2 = Some p2 ->
    0 < C -> 0 < W ->
    Forall (fun p => 0 <= snd (fst p) < W /\ 0 <= snd p < C) pos ->
    _calc_orig_ind
      (mkTensor sh
         (map (fun p => flat_pos W C (fst (fst p)) (snd (fst p)) (snd p)) pos))
      self
    = (Ok (mkTensor sh
             (map (fun p =>
                     flat_pos in_width C
                       (_calc_input_ind (fst (fst p)) k0 d0 s0 - p0)
                       (_calc_input_ind (snd (fst p)) k1 d1 s1 - p2)
                       (snd p))
                  pos)),
       self).
Proof.
  intros self sh pos in_width C W os ps k0 k1 d0 d1 s0 s1 p0 p2
    Hiw HC Hos HW Hk0 Hk1 Hd0 Hd1 Hs0 Hs1 Hps Hp0 Hp2 HCpos HWpos Hall.
  unfold _calc_orig_ind, bindM, getM, liftR, getattr, retM, getitem, Ok.
  rewrite Hiw, HC, Hos, HW, Hk0, Hk1, Hd0, Hd1, Hs0, Hs1, Hps, Hp0, Hp2.
  cbv iota beta. unfold tmap. simpl shape. simpl data.
  do 3 f_equal. rewrite map_map.
  apply map_ext_in. intros [[row col] ch] Hin.
  rewrite Forall_forall in Hall. specialize (Hall _ Hin).
  simpl in Hall. destruct Hall as [Hcol Hch]. simpl fst. simpl snd.
  destruct (flat_pos_decompose W C row col ch HWpos HCpos Hcol Hch)
    as (E1 & E2 & E3 & E4).
  cbv zeta. rewrite E4, E3, E2. unfold flat_pos. ring.
Qed.

Lemma calc_orig_ind_positions_witness :
  _calc_orig_ind
    (mkTensor [1; 1; 2; 1]
       (map (fun p => flat_pos 4 1 (fst (fst p)) (snd (fst p)) (snd p))
          [(1, 1, 0); (3, 3, 0)]))
    reduced_docstring_state
  = (Ok (mkTensor [1; 1; 2; 1]
           (map (fun p =>
                   flat_pos 4 1
                     (_calc_input_ind (fst (fst p)) 2 2 1 - 0)
                     (_calc_input_ind (snd (fst p)) 2 2 1 - 0)
                     (snd p))
                [(1, 1, 0); (3, 3, 0)])),
     reduced_docstring_state).
Proof.
  apply (calc_orig_ind_positions reduced_docstring_state [1; 1; 2; 1]
           [(1, 1, 0); (3, 3, 0)] 4 1 4 [1; 4; 4; 1] [0; 0; 0; 0]
           2 2 2 2 1 1 0 0);
    try reflexivity; try lia.
  repeat constructor; simpl; lia.
Defined.

(** [_calc_argmax_without_padding] takes the flattened index of position
    [(row, col, ch)] of the padded input to the flattened index of position
    [(row - pads[0], col - pads[2], ch)] of the original input, provided the
    padded width is the original width plus the two column pads. *)
Theorem calc_argmax_without_padding_positions :
  forall (self : DilatedPooling) (sh : list Z) (pos : list (Z * Z * Z))
         (in_width padded_width C : Z) (ps : list Z) (p0 p2 p3 : Z),
    nth_error (orig_input_shape self) 2 = Some in_width ->
    nth_error (input_shape self) 2 = Some padded_width ->
    nth_error (input_shape self) 3 = Some C ->
    pads self = Some ps ->
    nth_error ps 0 = Some p0 ->
    nth_error ps 2 = Some p2 ->
    nth_error ps 3 = Some p3 ->
    padded_width = in_width + p2 + p3 ->
    0 < C -> 0 < padded_width ->
    Forall (fun p => 0 <= snd (fst p) < padded_width /\ 0 <= snd p < C) pos ->
    _calc_argmax_without_padding
      (mkTensor sh
         (map (fun p => flat_pos padded_width C (fst (fst p)) (snd (fst p))
                          (snd p)) pos))
      self
    = (Ok (mkTensor sh
             (map (fun p =>
                     flat_pos in_width C (fst (fst p) - p0)
                       (snd (fst p) - p2) (snd p))
                  pos)),
       self).
Proof.
  intros self sh pos in_width padded_width C ps p0 p2 p3
    Hiw Hpw HC Hps Hp0 Hp2 Hp3 Hsum HCpos HWpos Hall.
  unfold _calc_argmax_without_padding, bindM, getM, liftR, getattr, retM,
    getitem, Ok.
  rewrite Hiw, Hpw, HC, Hps, Hp0, Hp2, Hp3.
  cbv iota beta. unfold tmap. simpl shape. simpl data.
  do 3 f_equal. rewrite map_map.
  apply map_ext_in. intros [[row col] ch] Hin.
  rewrite Forall_forall in Hall. specialize (Hall _ Hin).
  simpl in Hall. destruct Hall as [Hcol Hch]. simpl fst. simpl snd.
  destruct (flat_pos_decompose padded_width C row col ch HWpos HCpos Hcol Hch)
    as (E1 & E2 & E3 & E4).
  cbv zeta. rewrite E4, E2, E1. unfold flat_pos. nia.
Qed.

Lemma calc_argmax_without_padding_positions_witness :
  _calc_argmax_without_padding
    (mkTensor [1; 1; 2; 1]
       (map (fun p => flat_pos 3 1 (fst (fst p)) (snd (fst p)) (snd p))
          [(1, 1, 0); (2, 2, 0)]))
    padded_lower_state
  = (Ok (mkTensor [1; 1; 2; 1]
           (map (fun p =>
                   flat_pos 2 1 (fst (fst p) - 1) (snd (fst p) - 1) (snd p))
                [(1, 1, 0); (2, 2, 0)])),
     padded_lower_state).
Proof.
  apply (calc_argmax_without_padding_positions padded_lower_state
           [1; 1; 2; 1] [(1, 1, 0); (2, 2, 0)] 2 3 1 [1; 0; 1; 0] 1 1 0);
    try reflexivity; try lia.
  repeat constructor; simpl; lia.
Defined.

(** ** [_pad_input] *)

Lemma count_nonzero_zeros (n : nat) : count_nonzero (np_zeros n) = 0%nat.
Proof.
  unfold count_nonzero, np_zeros.
  induction n as [| n IH]; simpl; [reflexivity | exact IH].
Qed.

Lemma flat_map_const_singleton {A B : Type} (x : B) (l : list A) :
  flat_map (fun _ => [x]) l = repeat x (List.length l).
Proof. induction l as [| a l IH]; simpl; [reflexivity | now rewrite IH]. Qed.

Lemma padded_shape_zero (sh : list Z) (n : nat) :
  padded_shape sh (repeat (0, 0) n) = sh.
Proof.
  revert n. induction sh as [| d sh IH]; intros [| n]; simpl;
    try reflexivity.
  rewrite IH. f_equal. lia.
Qed.

Lemma zero_paddings_nonneg (n : nat) :
  forallb (fun q : Z * Z => (0 <=? fst q) && (0 <=? snd q)) (repeat (0, 0) n)
  = true.
Proof. induction n as [| n IH]; simpl; [reflexivity | exact IH]. Qed.

(** With a padding string that does not select SAME padding and without
    ceil mode, every pad that [_pad_input] computes is zero.  When the
    shape of the input is statically known, or the string is exactly
    [VALID], it then only assigns all-zero [pads]: the input and its shape
    are untouched and no host primitive is called.  When the shape is not
    statically known and the string is not [VALID], it still calls
    [tf.pad], with all-zero paddings, and assigns what that call returns,
    a tensor of the same shape, to [input]. *)
Theorem pad_input_string_without_same :
  forall (self : DilatedPooling) (p : string),
    padding self = PadStr p ->
    startswith (lower p) "same" = false ->
    ceil_mode self = false ->
    (is_known_shape self = true \/ p = "VALID" ->
     _pad_input self = set_pads (np_zeros (spatial_size self * 2)) self)
    /\ (is_known_shape self = false ->
        p <> "VALID" ->
        List.length (shape (input self)) = (spatial_size self + 2)%nat ->
        exists self',
          _pad_input self = (Ok tt, self')
          /\ calls self'
             = calls self ++ [TfPad (repeat (0, 0) (spatial_size self + 2))]
          /\ tf_pad (input self) (repeat (0, 0) (spatial_size self + 2))
               (padding_constant self)
             = Ok (input self')
          /\ shape (input self') = shape (input self)
          /\ input_shape self' = shape (input self)
          /\ pads self' = Some (np_zeros (spatial_size self * 2))).
Proof.
  intros self p Hp Hsame Hceil.
  assert (Hpads : forall ins,
             _calc_pads self ins = Ok (np_zeros (spatial_size self * 2))).
  { intros ins. unfold _calc_pads. rewrite Hp, Hceil.
    cbn [is_list lower_startswith_same andb bindR]. rewrite Hsame.
    reflexivity. }
  split.
  - intros Hcase.
    unfold _pad_input, bindM, getM, Ok, nothing_to_pad.
    rewrite Hp, Hceil.
    destruct (String.eqb_spec p "VALID") as [-> | Hne]; cbn [negb andb];
      [reflexivity |].
    destruct Hcase as [Hknown | ->]; [| contradiction].
    cbv beta. rewrite Hpads. unfold Ok. cbv iota beta.
    rewrite Hknown, count_nonzero_zeros. reflexivity.
  - intros Hknown Hne Hrank.
    apply String.eqb_neq in Hne.
    unfold _pad_input, bindM, getM, Ok, nothing_to_pad.
    rewrite Hp, Hceil, Hne. cbn [negb andb]. cbv iota beta.
    rewrite Hpads. unfold Ok. cbv iota beta.
    rewrite Hknown. cbn [andb]. unfold liftR.
    rewrite for_loop_app with (g := fun _ => [(0, 0)]).
    2:{ intros i acc Hi. apply in_seq in Hi. unfold getitem, np_zeros.
        rewrite !nth_error_repeat by lia. reflexivity. }
    cbn [app]. rewrite flat_map_const_singleton. unfold range.
    rewrite length_seq.
    assert (Epad : (0, 0) :: repeat (0, 0) (spatial_size self) ++ [(0, 0)]
                   = repeat (0, 0) (spatial_size self + 2)).
    { rewrite Nat.add_comm. cbn [Nat.add repeat]. f_equal.
      symmetry. apply repeat_cons. }
    unfold Ok. cbv iota beta zeta. unfold call. cbv iota beta.
    cbn [input padding_constant app]. rewrite !Epad. unfold tf_pad.
    rewrite Hrank, repeat_length, Nat.eqb_refl, zero_paddings_nonneg.
    cbn [andb]. unfold Ok, set_input, set_input_shape, set_pads, _tf_shape.
    cbv iota beta. eexists. split; [reflexivity |].
    cbn [calls input shape input_shape pads padding_constant].
    rewrite padded_shape_zero. repeat split; reflexivity.
Qed.

Lemma pad_input_string_without_same_witness :
  _pad_input foo_example = set_pads (np_zeros (2 * 2)) foo_example
  /\ exists self',
       _pad_input foo_deferred_example = (Ok tt, self')
       /\ calls self' = [TfPad (repeat (0, 0) (2 + 2))]
       /\ input_shape self' = [1; 4; 4; 1].
Proof.
  split.
  - apply (pad_input_string_without_same foo_example "FOO");
      first [reflexivity | now left].
  - destruct (pad_input_string_without_same foo_deferred_example "FOO"
                eq_refl eq_refl eq_refl) as [_ H].
    destruct (H eq_refl ltac:(discriminate) eq_refl)
      as (self' & E & Hc & _ & _ & Hs & _).
    exists self'. repeat split; assumption.
Defined.

(** ** Strategy selection of [dilated_maxpool] *)

(** The padding dispatch on any string other than SAME_LOWER. *)
Lemma padding_dispatch_string (self : DilatedPooling) (p : string) :
  padding self = PadStr p ->
  String.eqb (lower p) "same_lower" = false ->
  padding_dispatch self
  = (Ok (if String.eqb (lower p) "same_upper" then "SAME" else p), self).
Proof.
  intros Hp Hl. unfold padding_dispatch, bindM, getM, Ok.
  rewrite Hp. cbv iota beta. rewrite Hl.
  destruct (String.eqb (lower p) "same_upper"); reflexivity.
Qed.

(** With two spatial axes, no forcing and a padding string other than
    SAME_LOWER, [dilated_maxpool] hands the input to the native 2-D
    dilation primitive, whatever the strides and dilations are, and that
    call is its only effect; SAME_UPPER is passed as [SAME] and any other
    string as it is.  (An explicit list and SAME_LOWER first go through
    [_pad_input], which can fail before any primitive is called.) *)
Theorem unforced_rank2_uses_dilation2d :
  forall (self : DilatedPooling) (p : string) (k0 k1 c : Z),
    spatial_size self = 2%nat ->
    padding self = PadStr p ->
    String.eqb (lower p) "same_lower" = false ->
    nth_error (kernel_shape self) 0 = Some k0 ->
    nth_error (kernel_shape self) 1 = Some k1 ->
    nth_error (input_shape self) 3 = Some c ->
    dilated_maxpool false self
    = (tf_nn_dilation2d (input self) [k0; k1] (nhwc (strides self))
         (nhwc (dilations self))
         (if String.eqb (lower p) "same_upper" then "SAME" else p),
       snd (call (TfDilation2d (nhwc (strides self)) (nhwc (dilations self))
                    (if String.eqb (lower p) "same_upper" then "SAME" else p))
              self)).
Proof.
  intros self p k0 k1 c Hr Hp Hl Hk0 Hk1 Hc.
  unfold dilated_maxpool. unfold bindM at 1.
  rewrite (padding_dispatch_string self p Hp Hl).
  unfold bindM, getM, liftR, call, retM, getitem, Ok.
  assert (Hr' : Nat.eqb (spatial_size self) 2 = true) by now rewrite Hr.
  rewrite Hr'. cbn [negb andb]. cbv iota beta.
  rewrite Hk0. cbv iota beta. rewrite Hk1. cbv iota beta.
  rewrite Hc. cbv iota beta.
  destruct (tf_nn_dilation2d _ _ _ _ _); reflexivity.
Qed.

Lemma unforced_rank2_uses_dilation2d_witness :
  dilated_maxpool false strided_example
  = (tf_nn_dilation2d (input strided_example) [2; 2]
       (nhwc (strides strided_example)) (nhwc (dilations strided_example))
       (if String.eqb (lower "VALID") "same_upper" then "SAME" else "VALID"),
     snd (call (TfDilation2d (nhwc (strides strided_example))
                  (nhwc (dilations strided_example))
                  (if String.eqb (lower "VALID") "same_upper" then "SAME"
                   else "VALID"))
            strided_example)).
Proof.
  apply (unforced_rank2_uses_dilation2d strided_example "VALID" 2 2 1);
    reflexivity.
Defined.

(** *** Computations that do not look at the ceil-mode flag *)

Lemma frames_retM {A : Type} (b : bool) (a : A) :
  frames (with_ceil_mode b) (retM a).
Proof. intros self. reflexivity. Qed.

Lemma frames_liftR {A : Type} (b : bool) (r : res A) :
  frames (with_ceil_mode b) (liftR r).
Proof. intros self. reflexivity. Qed.

Lemma frames_getM {A : Type} (b : bool) (f : DilatedPooling -> A) :
  (forall self, f (with_ceil_mode b self) = f self) ->
  frames (with_ceil_mode b) (getM f).
Proof. intros Hf self. unfold getM. now rewrite Hf. Qed.

Lemma frames_getattr {A : Type} (b : bool) (name : string)
  (f : DilatedPooling -> option A) :
  (forall self, f (with_ceil_mode b self) = f self) ->
  frames (with_ceil_mode b) (getattr name f).
Proof.
  intros Hf self. unfold getattr. rewrite Hf.
  destruct (f self); reflexivity.
Qed.

Lemma frames_set_output_shape (b : bool) (v : list Z) :
  frames (with_ceil_mode b) (set_output_shape v).
Proof. intros self. reflexivity. Qed.

Lemma frames_call (b : bool) (p : prim) :
  frames (with_ceil_mode b) (call p).
Proof. intros self. reflexivity. Qed.

Lemma frames_bindM {A B : Type} (b : bool) (c : M A) (k : A -> M B) :
  frames (with_ceil_mode b) c ->
  (forall a, frames (with_ceil_mode b) (k a)) ->
  frames (with_ceil_mode b) (bindM c k).
Proof.
  intros Hc Hk self. unfold bindM. rewrite Hc.
  destruct (c self) as [[e | a] self1]; simpl; [reflexivity |].
  apply Hk.
Qed.

Lemma frames_if {A : Type} (b c : bool) (x y : M A) :
  frames (with_ceil_mode b) x ->
  frames (with_ceil_mode b) y ->
  frames (with_ceil_mode b) (if c then x else y).
Proof. destruct c; auto. Qed.

Lemma frames_for_loopM {S : Type} (b : bool) (idx : list nat)
  (body : nat -> S -> M S) :
  (forall i s, frames (with_ceil_mode b) (body i s)) ->
  forall s, frames (with_ceil_mode b) (for_loopM idx body s).
Proof.
  intros Hbody. induction idx as [| i idx IH]; intros s; simpl.
  - apply frames_retM.
  - apply frames_bindM; [apply Hbody | assumption].
Qed.

Ltac frame_step :=
  first
    [ apply frames_bindM; [| intros ?]
    | apply frames_for_loopM; intros ? ?
    | apply frames_if
    | apply frames_retM
    | apply frames_liftR
    | apply frames_call
    | apply frames_set_output_shape
    | apply frames_getM; reflexivity
    | apply frames_getattr; reflexivity ].

Lemma frames_reduce_axis (b : bool) (ins : list Z) (dim : nat)
  (g : tensor Z) :
  frames (with_ceil_mode b) (reduce_axis ins dim g).
Proof. unfold reduce_axis. repeat frame_step. Qed.

Lemma frames_reduce_dilations (b : bool) :
  frames (with_ceil_mode b) _reduce_dilations.
Proof.
  unfold _reduce_dilations.
  repeat first [apply frames_reduce_axis | frame_step].
Qed.

Lemma dilated_maxpool_unfold (force_custom_impl : bool) :
  dilated_maxpool force_custom_impl
  = bindM padding_dispatch (pool_after_dispatch force_custom_impl).
Proof. reflexivity. Qed.

Lemma frames_pool_after_dispatch (b force_custom_impl : bool) (p : string) :
  String.eqb p "SAME" = false ->
  frames (with_ceil_mode b) (pool_after_dispatch force_custom_impl p).
Proof.
  intros Hs. unfold pool_after_dispatch. rewrite Hs.
  repeat first [apply frames_reduce_dilations | frame_step].
Qed.

(** With a padding string that selects neither SAME mode, [dilated_maxpool]
    never looks at the ceil-mode flag: [_pad_input] is not reached on any
    of its three paths, so the result and every effect are the same with
    the flag set either way. *)
Theorem dilated_maxpool_string_ignores_ceil_mode :
  forall (self : DilatedPooling) (p : string) (force_custom_impl b : bool),
    padding self = PadStr p ->
    String.eqb (lower p) "same_lower" = false ->
    String.eqb (lower p) "same_upper" = false ->
    String.eqb p "SAME" = false ->
    dilated_maxpool force_custom_impl (with_ceil_mode b self)
    = (fst (dilated_maxpool force_custom_impl self),
       with_ceil_mode b (snd (dilated_maxpool force_custom_impl self))).
Proof.
  intros self p force b Hp Hl Hu Hs.
  rewrite !dilated_maxpool_unfold. unfold bindM.
  rewrite (padding_dispatch_other self p Hp Hl Hu).
  rewrite (padding_dispatch_other (with_ceil_mode b self) p Hp Hl Hu).
  apply frames_pool_after_dispatch. assumption.
Qed.

Lemma dilated_maxpool_string_ignores_ceil_mode_witness :
  dilated_maxpool true (with_ceil_mode true strided_example)
  = (fst (dilated_maxpool true strided_example),
     with_ceil_mode true (snd (dilated_maxpool true strided_example))).
Proof.
  apply (dilated_maxpool_string_ignores_ceil_mode strided_example "VALID"
           true true); reflexivity.
Defined.

(** ** [_tf_product] *)

Lemma chunks_fuel_concat {A : Type} (m : nat) (rows : list (list A)) :
  (0 < m)%nat ->
  Forall (fun r => List.length r = m) rows ->
  forall fuel, (List.length (concat rows) <= fuel)%nat ->
    chunks_fuel fuel m (concat rows) = rows.
Proof.
  intros Hm Hrows. induction Hrows as [| r rows Hr Hrows IH]; intros fuel Hf.
  - destruct fuel; reflexivity.
  - simpl concat in *. rewrite length_app in Hf.
    destruct fuel as [| fuel]; [lia |].
    destruct r as [| x r]; [simpl in Hr; lia |].
    cbn [chunks_fuel app].
    change (x :: r ++ concat rows) with ((x :: r) ++ concat rows).
    rewrite <- Hr at 1 3.
    rewrite firstn_app, Nat.sub_diag, firstn_all, firstn_O, app_nil_r.
    rewrite skipn_app, Nat.sub_diag, skipn_all, skipn_O. simpl app.
    rewrite IH by lia. reflexivity.
Qed.

Lemma chunks_concat {A : Type} (m : nat) (rows : list (list A)) :
  (0 < m)%nat ->
  Forall (fun r => List.length r = m) rows ->
  chunks m (concat rows) = rows.
Proof.
  intros Hm Hrows. unfold chunks. now apply chunks_fuel_concat.
Qed.

Lemma concat_map_singleton {A : Type} (l : list A) :
  concat (map (fun x => [x]) l) = l.
Proof.
  induction l as [| x l IH]; simpl; [reflexivity | now rewrite IH].
Qed.

Lemma chunks_1 {A : Type} (l : list A) :
  chunks 1 l = map (fun x => [x]) l.
Proof.
  rewrite <- (concat_map_singleton l) at 1.
  apply chunks_concat; [lia |].
  apply Forall_forall. intros r Hr. apply in_map_iff in Hr.
  destruct Hr as [x [<- _]]. reflexivity.
Qed.

Lemma flat_map_id_singletons {A : Type} (l : list A) :
  flat_map (fun d : list A => d) (map (fun x => [x]) l) = l.
Proof.
  induction l as [| x l IH]; simpl; [reflexivity | now rewrite IH].
Qed.

Lemma tile_data_row {A : Type} (n : Z) (row : list A) :
  tile_data [n] [1] row = row.
Proof.
  cbn [tile_data]. change (Z.to_nat (prod [])) with 1%nat.
  rewrite chunks_1.
  change (Z.to_nat 1) with 1%nat. cbn [repeat concat].
  rewrite app_nil_r. apply flat_map_id_singletons.
Qed.

Lemma concat_repeat_singleton {A : Type} (x : A) (n : nat) :
  concat (repeat [x] n) = repeat x n.
Proof.
  induction n as [| n IH]; simpl; [reflexivity | now rewrite IH].
Qed.

Lemma tile_data_scalar {A : Type} (x : A) (n : nat) :
  tile_data [1] [Z.of_nat n] [x] = repeat x n.
Proof.
  cbn [tile_data]. change (Z.to_nat (prod [])) with 1%nat.
  rewrite chunks_1. cbn [map flat_map app].
  rewrite Nat2Z.id. apply concat_repeat_singleton.
Qed.

Lemma map2_app {A B C : Type} (f : A -> B -> C) (l1 l1' : list A)
  (l2 l2' : list B) :
  List.length l1 = List.length l2 ->
  map2 f (l1 ++ l1') (l2 ++ l2') = map2 f l1 l2 ++ map2 f l1' l2'.
Proof.
  revert l2. induction l1 as [| a l1 IH]; intros [| b l2] H;
    simpl in *; try discriminate; [reflexivity |].
  now rewrite IH by lia.
Qed.

Lemma map2_app_singletons {A : Type} (xs : list A) (rows : list (list A)) :
  map2 (@app A) (map (fun x => [x]) xs) rows = map2 cons xs rows.
Proof.
  revert rows. induction xs as [| x xs IH]; intros [| r rows]; simpl;
    try reflexivity.
  now rewrite IH.
Qed.

Lemma map2_cons_repeat {A : Type} (x : A) (rows : list (list A)) :
  map2 cons (repeat x (List.length rows)) rows = map (cons x) rows.
Proof.
  induction rows as [| r rows IH]; simpl; [reflexivity | now rewrite IH].
Qed.

Lemma concat_repeat_rows {A : Type} (rows : list (list A)) (n : nat) :
  concat (repeat (concat rows) n) = concat (concat (repeat rows n)).
Proof.
  induction n as [| n IH]; simpl; [reflexivity |].
  now rewrite concat_app, IH.
Qed.

Lemma Forall_concat_repeat {A : Type} (P : A -> Prop) (l : list A) (n : nat) :
  Forall P l -> Forall P (concat (repeat l n)).
Proof.
  intros H. induction n as [| n IH]; simpl; [constructor |].
  apply Forall_app. split; assumption.
Qed.

(** The pairing at the heart of the product: every element of [bl], in
    order, in front of every row. *)
Lemma product_rows (bl : list Z) (rows : list (list Z)) :
  map2 cons (flat_map (fun x => repeat x (List.length rows)) bl)
    (concat (repeat rows (List.length bl)))
  = flat_map (fun x => map (cons x) rows) bl.
Proof.
  induction bl as [| x bl IH]; [reflexivity |].
  cbn [flat_map List.length repeat concat].
  rewrite map2_app by now rewrite repeat_length.
  now rewrite map2_cons_repeat, IH.
Qed.

Lemma length_flat_map_repeat (bl : list Z) (n : nat) :
  List.length (flat_map (fun x => repeat x n) bl) = (List.length bl * n)%nat.
Proof.
  induction bl as [| x bl IH]; simpl; [reflexivity |].
  now rewrite length_app, repeat_length, IH.
Qed.

Lemma tile_data_cons {A : Type} (n m : Z) (sh mult : list Z) (d : list A) :
  tile_data (n :: sh) (m :: mult) d
  = concat (repeat (flat_map (tile_data sh mult)
                      (chunks (Z.to_nat (prod sh)) d))
              (Z.to_nat m)).
Proof. reflexivity. Qed.

Lemma tf_reshape_column {A : Type} (sh : list Z) (d : list A) :
  tf_reshape (mkTensor sh d) [-1; 1]
  = Ok (mkTensor [Z.of_nat (List.length d); 1] d).
Proof.
  unfold tf_reshape. cbn [data].
  change (filter (fun x : Z => negb (x =? -1)) [-1; 1]) with [1].
  change (prod [1]) with 1.
  change (map (fun x : Z => if x =? -1 then Z.of_nat (List.length d) / 1 else x)
            [-1; 1])
    with [Z.of_nat (List.length d) / 1; 1].
  rewrite Z.div_1_r. cbn [prod fold_right forallb].
  replace (Z.of_nat (List.length d) * (1 * 1)) with (Z.of_nat (List.length d))
    by lia.
  rewrite Z.eqb_refl.
  replace (0 <=? Z.of_nat (List.length d)) with true
    by (symmetry; apply Z.leb_le; lia).
  reflexivity.
Qed.

Lemma tf_product_rows (rows : list (list Z)) (bl : list Z) (m : nat) :
  (0 < m)%nat ->
  Forall (fun r => List.length r = m) rows ->
  _tf_product
    (mkTensor [Z.of_nat (List.length rows); Z.of_nat m] (concat rows))
    (mkTensor [Z.of_nat (List.length bl)] bl)
  = Ok (mkTensor
          [Z.of_nat (List.length bl * List.length rows); Z.of_nat (S m)]
          (concat (flat_map (fun x => map (cons x) rows) bl))).
Proof.
  intros Hm Hrows.
  unfold _tf_product, tf_expand_dims, tf_tile.
  cbn [shape data hd firstn skipn app List.length Nat.eqb bindR Ok map2].
  (* the tiled column of [b] *)
  assert (Eb : tile_data [Z.of_nat (List.length bl); 1]
                 [1; Z.of_nat (List.length rows)] bl
               = flat_map (fun x => repeat x (List.length rows)) bl).
  { rewrite tile_data_cons. change (Z.to_nat (prod [1])) with 1%nat.
    rewrite chunks_1. change (Z.to_nat 1) with 1%nat.
    cbn [repeat concat]. rewrite app_nil_r.
    rewrite flat_map_concat_map, map_map, <- flat_map_concat_map.
    apply flat_map_ext. intros x. apply tile_data_scalar. }
  rewrite Eb. clear Eb.
  (* the tiled rows of [a] *)
  assert (Ea : tile_data [Z.of_nat (List.length rows); Z.of_nat m]
                 [Z.of_nat (List.length bl); 1] (concat rows)
               = concat (concat (repeat rows (List.length bl)))).
  { rewrite tile_data_cons.
    replace (Z.to_nat (prod [Z.of_nat m])) with m
      by (cbn [prod fold_right]; lia).
    rewrite (chunks_concat m rows Hm Hrows).
    rewrite (flat_map_ext _ (fun d => d) (tile_data_row (Z.of_nat m))).
    rewrite Nat2Z.id.
    replace (flat_map (fun d : list Z => d) rows) with (concat rows)
      by (rewrite flat_map_concat_map; now rewrite map_id).
    apply concat_repeat_rows. }
  rewrite Ea. clear Ea.
  rewrite tf_reshape_column, length_flat_map_repeat.
  unfold tf_concat1. cbn [bindR Ok shape data].
  replace (Z.of_nat (List.length bl * List.length rows)
           =? Z.of_nat (List.length rows) * Z.of_nat (List.length bl))
    with true by (symmetry; apply Z.eqb_eq; lia).
  change (Z.to_nat 1) with 1%nat. rewrite chunks_1.
  replace (Z.to_nat (Z.of_nat m * 1)) with m by lia.
  rewrite chunks_concat
    by (try assumption; now apply Forall_concat_repeat).
  rewrite map2_app_singletons, product_rows.
  replace (1 + Z.of_nat m * 1) with (Z.of_nat (S m)) by lia.
  reflexivity.
Qed.


Lemma nth_error_product_rows (bl : list Z) (rows : list (list Z)) :
  forall (i j : nat) (x : Z) (r : list Z),
    nth_error bl i = Some x ->
    nth_error rows j = Some r ->
    nth_error (flat_map (fun y => map (cons y) rows) bl)
      (i * List.length rows + j)
    = Some (x :: r).
Proof.
  induction bl as [| y bl IH]; intros i j x r Hi Hj; [now destruct i |].
  assert (Hjlt : (j < List.length rows)%nat)
    by (apply nth_error_Some; congruence).
  cbn [flat_map]. destruct i as [| i].
  - injection Hi as ->. simpl.
    rewrite nth_error_app1 by now rewrite length_map.
    now rewrite nth_error_map, Hj.
  - simpl in Hi.
    rewrite nth_error_app2 by (rewrite length_map; simpl; lia).
    rewrite length_map.
    replace (S i * List.length rows + j - List.length rows)%nat
      with (i * List.length rows + j)%nat by (simpl; lia).
    now apply IH.
Qed.

(** [_tf_product a b] is the cartesian product of the vector [b] with the
    rows of the matrix [a]: one row [x :: r] for every element [x] of [b]
    and every row [r] of [a], the elements of [b] varying slowest, so that
    row [i * rows(a) + j] of the result is [b[i] :: a[j]]. *)
Theorem tf_product_cartesian :
  forall (rows : list (list Z)) (bl : list Z) (m : nat),
    (0 < m)%nat ->
    Forall (fun r => List.length r = m) rows ->
    exists out : list (list Z),
      _tf_product
        (mkTensor [Z.of_nat (List.length rows); Z.of_nat m] (concat rows))
        (mkTensor [Z.of_nat (List.length bl)] bl)
      = Ok (mkTensor
              [Z.of_nat (List.length bl * List.length rows); Z.of_nat (S m)]
              (concat out))
      /\ List.length out = (List.length bl * List.length rows)%nat
      /\ Forall (fun r => List.length r = S m) out
      /\ forall (i j : nat) (x : Z) (r : list Z),
           nth_error bl i = Some x ->
           nth_error rows j = Some r ->
           nth_error out (i * List.length rows + j) = Some (x :: r).
Proof.
  intros rows bl m Hm Hrows.
  exists (flat_map (fun x => map (cons x) rows) bl).
  split; [now apply tf_product_rows |]. split; [| split].
  - induction bl as [| y bl IH]; [reflexivity |].
    cbn [flat_map List.length]. rewrite length_app, length_map, IH. lia.
  - apply Forall_forall. intros r Hr. apply in_flat_map in Hr.
    destruct Hr as [y [_ Hr]]. apply in_map_iff in Hr.
    destruct Hr as [r0 [<- Hr0]]. simpl. f_equal.
    rewrite Forall_forall in Hrows. now apply Hrows.
  - apply nth_error_product_rows.
Qed.

Lemma tf_product_cartesian_witness :
  exists out : list (list Z),
    _tf_product
      (mkTensor [Z.of_nat (List.length [[0]; [1]]); Z.of_nat 1]
         (concat [[0]; [1]]))
      (mkTensor [Z.of_nat (List.length [5; 7; 9])] [5; 7; 9])
    = Ok (mkTensor
            [Z.of_nat (List.length [5; 7; 9] * List.length [[0]; [1]]);
             Z.of_nat 2]
            (concat out))
    /\ List.length out = (List.length [5; 7; 9] * List.length [[0]; [1]])%nat
    /\ Forall (fun r => List.length r = 2%nat) out
    /\ forall (i j : nat) (x : Z) (r : list Z),
         nth_error [5; 7; 9] i = Some x ->
         nth_error [[0]; [1]] j = Some r ->
         nth_error out (i * List.length [[0]; [1]] + j) = Some (x :: r).
Proof.
  apply (tf_product_cartesian [[0]; [1]] [5; 7; 9] 1); [lia |].
  repeat constructor.
Defined.

(** ** [_pad_input] with SAME padding *)

Lemma padded_shape_app (l1 l2 : list Z) (p1 p2 : list (Z * Z)) :
  List.length l1 = List.length p1 ->
  padded_shape (l1 ++ l2) (p1 ++ p2) = padded_shape l1 p1 ++ padded_shape l2 p2.
Proof.
  revert p1. induction l1 as [| n l1 IH]; intros [| [lo hi] p1] H;
    simpl in *; try discriminate; [reflexivity |].
  now rewrite IH by lia.
Qed.

Lemma padded_shape_seq (l : list Z) :
  forall (start : nat) (f : nat -> Z * Z),
    padded_shape l (map f (seq start (List.length l)))
    = map (fun j => fst (f (start + j)%nat) + nth j l 0
                    + snd (f (start + j)%nat))
        (seq 0 (List.length l)).
Proof.
  induction l as [| n l IH]; intros start f; [reflexivity |].
  cbn [List.length seq map padded_shape].
  destruct (f start) as [lo hi] eqn:E.
  rewrite IH. rewrite <- seq_shift, map_map.
  rewrite Nat.add_0_r, E. cbn [fst snd nth]. f_equal.
  apply map_ext. intros j.
  now replace (start + S j)%nat with (S start + j)%nat by lia.
Qed.

Lemma map_nth_range (l : list Z) :
  map (fun i => nth i l 0) (range (List.length l)) = l.
Proof.
  unfold range. induction l as [| n l IH]; [reflexivity |].
  cbn [List.length seq map nth]. rewrite <- seq_shift, map_map.
  cbn [nth]. now rewrite IH.
Qed.

Lemma count_nonzero_all_zero (l : list Z) :
  count_nonzero l = 0%nat -> forall x, In x l -> x = 0.
Proof.
  unfold count_nonzero. induction l as [| y l IH]; intros H x Hx;
    [contradiction |].
  simpl in H. destruct (Z.eqb_spec y 0) as [-> | Hy]; simpl in H;
    [| discriminate].
  destruct Hx as [<- | Hx]; [reflexivity | now apply IH].
Qed.

Lemma same_mode_is_not_valid (p : string) :
  startswith (lower p) "same" = true -> String.eqb p "VALID" = false.
Proof.
  intros H. destruct (String.eqb_spec p "VALID") as [-> | _];
    [discriminate H | reflexivity].
Qed.

Lemma axis_total_pad_nonneg (self : DilatedPooling) (ins : list Z) (i : nat) :
  0 <= axis_pad_begin self ins i <= axis_total_pad self ins i.
Proof.
  assert (Ht : 0 <= axis_total_pad self ins i)
    by (unfold axis_total_pad, same_total_pad; lia).
  destruct (same_split_nonneg _ Ht).
  unfold axis_pad_begin. destruct (is_same_lower (padding self)); lia.
Qed.

(** In a SAME mode [_pad_input] returns normally, records the pads of
    [_calc_pads_same], and leaves an input whose spatial axes have grown by
    exactly the total pad of each axis, batch and channel sizes and the
    recorded original shape being unchanged. *)
Theorem pad_input_same_grows_axes :
  forall (self : DilatedPooling) (p : string) (b c : Z) (spatial : list Z),
    padding self = PadStr p ->
    startswith (lower p) "same" = true ->
    shape (input self) = b :: spatial ++ [c] ->
    input_shape self = shape (input self) ->
    axes_ok self spatial = true ->
    exists self',
      _pad_input self = (Ok tt, self')
      /\ pads self'
         = Some (flat_map
                   (fun i => [axis_pad_begin self spatial i;
                              axis_total_pad self spatial i
                              - axis_pad_begin self spatial i])
                   (range (spatial_size self)))
      /\ input_shape self'
         = b :: map (fun i => nth i spatial 0 + axis_total_pad self spatial i)
                  (range (spatial_size self)) ++ [c]
      /\ shape (input self') = input_shape self'
      /\ orig_input_shape self' = orig_input_shape self.
Proof.
  intros self p b c spatial Hp Hsame Hshape Hin Hok.
  destruct (axes_ok_lengths _ _ Hok) as (L1 & _).
  set (A := axis_pad_begin self spatial).
  set (T := axis_total_pad self spatial).
  assert (Hspatial : firstn (spatial_size self) (skipn 1 (input_shape self))
                     = spatial).
  { rewrite Hin, Hshape. cbn [skipn]. rewrite <- L1.
    rewrite firstn_app, Nat.sub_diag, firstn_all, firstn_O.
    apply app_nil_r. }
  assert (Hpads : _calc_pads self spatial
                  = Ok (flat_map (fun i => [A i; T i - A i])
                          (range (spatial_size self)))).
  { rewrite calc_pads_same_mode
      by (try assumption; rewrite Hp; exact Hsame).
    now apply calc_pads_same_closed. }
  unfold _pad_input, bindM, getM, Ok, nothing_to_pad.
  rewrite Hp, (same_mode_is_not_valid p Hsame), andb_false_r.
  cbv iota beta. rewrite Hspatial, Hpads. unfold Ok. cbv iota beta.
  destruct (is_known_shape self && Nat.eqb (count_nonzero _) 0) eqn:Hskip.
  - (* every pad is zero and the shape is statically known: the input is
       handed back as it is *)
    apply andb_true_iff in Hskip. destruct Hskip as [_ Hcount].
    eexists. split; [reflexivity |]. cbn [set_pads snd pads input_shape input
                                          orig_input_shape].
    split; [reflexivity |]. split; [| split; [now rewrite Hin | reflexivity]].
    rewrite Hin, Hshape. f_equal. f_equal.
    rewrite <- (map_nth_range spatial) at 1. rewrite L1.
    apply map_ext_in. intros i Hi.
    apply Nat.eqb_eq in Hcount.
    assert (HA : A i = 0).
    { apply (count_nonzero_all_zero _ Hcount).
      apply in_flat_map. exists i. split; [exact Hi | now left]. }
    assert (HT : T i - A i = 0).
    { apply (count_nonzero_all_zero _ Hcount).
      apply in_flat_map. exists i. split; [exact Hi | right; now left]. }
    fold (T i). lia.
  - (* some pad is not zero: the input is padded *)
    unfold liftR.
    rewrite for_loop_app with (g := fun i => [(A i, T i - A i)]).
    2:{ intros i acc Hi. apply in_seq in Hi.
        destruct (nth_error_pairs A (fun j => T j - A j) (spatial_size self) i
                    ltac:(lia)) as [E1 E2].
        unfold getitem. rewrite (Nat.mul_comm i 2), E1, E2. reflexivity. }
    cbn [app]. rewrite flat_map_singleton. unfold Ok. cbv iota beta.
    unfold call. cbv iota beta. cbn [input padding_constant].
    unfold tf_pad. rewrite Hshape.
    assert (Hlen : Nat.eqb (List.length (b :: spatial ++ [c]))
                     (List.length
                        ((0, 0)
                         :: map (fun i => (A i, T i - A i))
                              (range (spatial_size self)) ++ [(0, 0)]))
                   = true).
    { apply Nat.eqb_eq. cbn [List.length].
      rewrite !length_app, length_map. unfold range.
      rewrite length_seq. simpl. lia. }
    rewrite Hlen.
    assert (Hnonneg : forallb (fun q : Z * Z => (0 <=? fst q) && (0 <=? snd q))
                        ((0, 0)
                         :: map (fun i => (A i, T i - A i))
                              (range (spatial_size self)) ++ [(0, 0)])
                      = true).
    { cbn [forallb fst snd]. rewrite forallb_app. cbn [forallb fst snd].
      replace (0 <=? 0) with true by reflexivity. cbn [andb].
      rewrite andb_true_r. apply forallb_forall. intros q Hq.
      apply in_map_iff in Hq. destruct Hq as [i [<- _]]. cbn [fst snd].
      pose proof (axis_total_pad_nonneg self spatial i) as HAT.
      fold (A i) (T i) in HAT.
      apply andb_true_iff. split; apply Z.leb_le; lia. }
    rewrite Hnonneg. cbn [andb]. unfold Ok, set_input, set_input_shape,
      set_pads, _tf_shape. cbv iota beta.
    eexists. split; [reflexivity |].
    cbn [pads input_shape input orig_input_shape shape].
    split; [reflexivity |]. split; [| split; reflexivity].
    cbn [padded_shape]. f_equal; [lia |].
    rewrite padded_shape_app
      by (rewrite length_map; unfold range; now rewrite length_seq).
    cbn [padded_shape]. f_equal; [| f_equal; lia].
    unfold range. rewrite <- L1, padded_shape_seq.
    apply map_ext. intros i. cbn [fst snd Nat.add]. fold (T i). lia.
Qed.

Lemma pad_input_same_grows_axes_witness :
  exists self',
    _pad_input lower_example = (Ok tt, self')
    /\ pads self'
       = Some (flat_map
                 (fun i => [axis_pad_begin lower_example [2; 2] i;
                            axis_total_pad lower_example [2; 2] i
                            - axis_pad_begin lower_example [2; 2] i])
                 (range (spatial_size lower_example)))
    /\ input_shape self'
       = 1 :: map (fun i => nth i [2; 2] 0
                            + axis_total_pad lower_example [2; 2] i)
                (range (spatial_size lower_example)) ++ [1]
    /\ shape (input self') = input_shape self'
    /\ orig_input_shape self' = orig_input_shape lower_example.
Proof.
  apply (pad_input_same_grows_axes lower_example "SAME_LOWER" 1 1 [2; 2]);
    reflexivity.
Defined.

(** * Properties of the helpers of common/__init__.py *)

(** ** [invertible] and [invert] *)

Section DictFacts.

Context {K V : Type}.
Variable K_eq_dec : forall x y : K, {x = y} + {x <> y}.
Variable V_eq_dec : forall x y : V, {x = y} + {x <> y}.

Lemma nodup_length_le (l : list V) :
  (List.length (nodup V_eq_dec l) <= List.length l)%nat.
Proof.
  induction l as [| x l IH]; simpl; [lia |].
  destruct (in_dec V_eq_dec x l); simpl; lia.
Qed.

Lemma len_set_full_iff (l : list V) :
  List.length l = len_set V_eq_dec l <-> NoDup l.
Proof.
  unfold len_set. split.
  - induction l as [| x l IH]; intros H; [constructor |].
    simpl in H. pose proof (nodup_length_le l) as Hle.
    destruct (in_dec V_eq_dec x l) as [Hin | Hnin]; simpl in H; [lia |].
    constructor; [assumption | apply IH; lia].
  - intros H. now rewrite (nodup_fixed_point V_eq_dec H).
Qed.

Lemma invertible_iff (d : list (K * V)) :
  invertible V_eq_dec d = true <-> NoDup (map snd d).
Proof.
  unfold invertible. rewrite Nat.eqb_eq. apply len_set_full_iff.
Qed.

Lemma dict_setitem_fresh (d : list (K * V)) (k : K) (v : V) :
  ~ In k (map fst d) -> dict_setitem K_eq_dec d k v = d ++ [(k, v)].
Proof.
  induction d as [| [k' v'] d IH]; intros Hnin; simpl; [reflexivity |].
  destruct (K_eq_dec k k') as [-> | _].
  - exfalso. apply Hnin. now left.
  - rewrite IH; [reflexivity |]. intros Hin. apply Hnin. now right.
Qed.

Lemma dict_get_In (d : list (K * V)) (k : K) (v : V) :
  NoDup (map fst d) ->
  dict_get K_eq_dec d k = Some v <-> In (k, v) d.
Proof.
  induction d as [| [k' v'] d IH]; intros Hnd; simpl.
  - split; [discriminate | contradiction].
  - inversion Hnd as [| ? ? Hnin Hnd']; subst.
    destruct (K_eq_dec k k') as [-> | Hne].
    + split.
      * intros [= ->]. now left.
      * intros [[= ->] | Hin]; [reflexivity |].
        exfalso. apply Hnin. apply in_map_iff. now exists (k', v).
    + rewrite (IH Hnd'). split.
      * intros Hin. now right.
      * intros [[= -> _] | Hin]; [contradiction | assumption].
Qed.

End DictFacts.

Lemma comprehension_swaps {K V : Type}
  (V_eq_dec : forall x y : V, {x = y} + {x <> y}) (d : list (K * V)) :
  forall acc : list (V * K),
    NoDup (map fst acc ++ map snd d) ->
    fold_left (fun inverse kv => dict_setitem V_eq_dec inverse (snd kv) (fst kv))
      d acc
    = acc ++ swap_items d.
Proof.
  induction d as [| [k v] d IH]; intros acc Hnd; simpl.
  - now rewrite app_nil_r.
  - simpl in Hnd.
    rewrite dict_setitem_fresh.
    2:{ intros Hin. apply NoDup_remove_2 in Hnd. apply Hnd.
        apply in_or_app. now left. }
    rewrite IH.
    + now rewrite <- app_assoc.
    + rewrite map_app. simpl. rewrite <- app_assoc. simpl.
      exact Hnd.
Qed.

Lemma map_fst_swap_items {K V : Type} (d : list (K * V)) :
  map fst (swap_items d) = map snd d.
Proof. unfold swap_items. rewrite map_map. reflexivity. Qed.

Lemma map_snd_swap_items {K V : Type} (d : list (K * V)) :
  map snd (swap_items d) = map fst d.
Proof. unfold swap_items. rewrite map_map. reflexivity. Qed.

Lemma swap_items_involutive {K V : Type} (d : list (K * V)) :
  swap_items (swap_items d) = d.
Proof.
  unfold swap_items. rewrite map_map. rewrite <- (map_id d) at 2.
  apply map_ext. intros [k v]. reflexivity.
Qed.

Lemma invert_distinct_values {K V : Type}
  (V_eq_dec : forall x y : V, {x = y} + {x <> y}) (d : list (K * V)) :
  NoDup (map snd d) -> invert V_eq_dec d = Ok (swap_items d).
Proof.
  intros Hnd. unfold invert.
  rewrite (proj2 (invertible_iff V_eq_dec d) Hnd). simpl negb. cbv iota.
  now rewrite comprehension_swaps.
Qed.

(** [invert] succeeds exactly on the dictionaries whose values are pairwise
    distinct, and then returns the items with key and value exchanged, in
    the same order; when two keys share a value it raises ValueError. *)
Theorem invert_succeeds_iff_one_to_one :
  forall (K V : Type) (V_eq_dec : forall x y : V, {x = y} + {x <> y})
         (d : list (K * V)),
    (NoDup (map snd d) -> invert V_eq_dec d = Ok (swap_items d))
    /\ (~ NoDup (map snd d) ->
        invert V_eq_dec d
        = Raise (ValueError
                   "The dictionary is not invertible because it is not one-to-one.")).
Proof.
  intros K V V_eq_dec d. split.
  - apply invert_distinct_values.
  - intros Hdup. unfold invert.
    destruct (invertible V_eq_dec d) eqn:E; [| reflexivity].
    exfalso. apply Hdup. now apply (invertible_iff V_eq_dec).
Qed.

Lemma invert_succeeds_iff_one_to_one_witness :
  invert string_dec ONNX_ATTR_TO_TF_ATTR = Ok (swap_items ONNX_ATTR_TO_TF_ATTR)
  /\ invert string_dec [("a", "x"); ("b", "x")]
     = Raise (ValueError
                "The dictionary is not invertible because it is not one-to-one.").
Proof.
  split.
  - apply (proj1 (invert_succeeds_iff_one_to_one string string string_dec
                    ONNX_ATTR_TO_TF_ATTR)).
    repeat constructor; simpl; intuition discriminate.
  - apply (proj2 (invert_succeeds_iff_one_to_one string string string_dec
                    [("a", "x"); ("b", "x")])).
    intros H. inversion H as [| ? ? Hnin _]. apply Hnin. now left.
Defined.

(** Looking up in the inverse: for a dictionary with pairwise distinct
    values, [invert(d)[v] == k] exactly when [d[k] == v]. *)
Theorem invert_lookup :
  forall (K V : Type) (K_eq_dec : forall x y : K, {x = y} + {x <> y})
         (V_eq_dec : forall x y : V, {x = y} + {x <> y})
         (d : list (K * V)),
    NoDup (map fst d) ->
    NoDup (map snd d) ->
    exists inverse,
      invert V_eq_dec d = Ok inverse
      /\ forall k v,
           dict_get V_eq_dec inverse v = Some k
           <-> dict_get K_eq_dec d k = Some v.
Proof.
  intros K V K_eq_dec V_eq_dec d Hk Hv.
  exists (swap_items d). split; [now apply invert_distinct_values |].
  intros k v.
  rewrite (dict_get_In V_eq_dec)
    by now rewrite map_fst_swap_items.
  rewrite (dict_get_In K_eq_dec) by assumption.
  unfold swap_items. rewrite in_map_iff. split.
  - intros [[k' v'] [[= <- <-] Hin]]. exact Hin.
  - intros Hin. now exists (k, v).
Qed.

Lemma invert_lookup_witness :
  exists inverse,
    invert string_dec ONNX_ATTR_TO_TF_ATTR = Ok inverse
    /\ forall k v,
         dict_get string_dec inverse v = Some k
         <-> dict_get string_dec ONNX_ATTR_TO_TF_ATTR k = Some v.
Proof.
  apply (invert_lookup string string string_dec string_dec
           ONNX_ATTR_TO_TF_ATTR);
    repeat constructor; simpl; intuition discriminate.
Defined.

(** Inverting twice gives the dictionary back. *)
Theorem invert_involutive :
  forall (K V : Type) (K_eq_dec : forall x y : K, {x = y} + {x <> y})
         (V_eq_dec : forall x y : V, {x = y} + {x <> y})
         (d : list (K * V)),
    NoDup (map fst d) ->
    NoDup (map snd d) ->
    exists inverse,
      invert V_eq_dec d = Ok inverse
      /\ invert K_eq_dec inverse = Ok d.
Proof.
  intros K V K_eq_dec V_eq_dec d Hk Hv.
  exists (swap_items d). split; [now apply invert_distinct_values |].
  rewrite invert_distinct_values by now rewrite map_snd_swap_items.
  now rewrite swap_items_involutive.
Qed.

Lemma invert_involutive_witness :
  exists inverse,
    invert string_dec ONNX_ATTR_TO_TF_ATTR = Ok inverse
    /\ invert string_dec inverse = Ok ONNX_ATTR_TO_TF_ATTR.
Proof.
  apply (invert_involutive string string string_dec string_dec
           ONNX_ATTR_TO_TF_ATTR);
    repeat constructor; simpl; intuition discriminate.
Defined.

(** ** [op_name_to_lower] *)

Lemma lower_ascii_not_upper (c : ascii) : is_upper (lower_ascii c) = false.
Proof.
  destruct c as [[] [] [] [] [] [] [] []]; reflexivity.
Qed.

Lemma lower_ascii_fixed (c : ascii) :
  is_upper c = false -> lower_ascii c = c.
Proof.
  destruct c as [[] [] [] [] [] [] [] []]; intros H;
    first [reflexivity | discriminate H].
Qed.

Lemma no_upper_lower (s : string) : no_upper (lower s) = true.
Proof.
  induction s as [| c s IH]; simpl; [reflexivity |].
  now rewrite lower_ascii_not_upper, IH.
Qed.

Lemma length_lower (s : string) : String.length (lower s) = String.length s.
Proof.
  induction s as [| c s IH]; simpl; [reflexivity | now rewrite IH].
Qed.

Lemma length_underscore_before_upper (s : string) :
  String.length (underscore_before_upper s)
  = (String.length s + count_upper s)%nat.
Proof.
  induction s as [| c s IH]; simpl; [reflexivity |].
  destruct (is_upper c); simpl; rewrite IH; lia.
Qed.

Lemma lower_fixed (s : string) : no_upper s = true -> lower s = s.
Proof.
  induction s as [| c s IH]; simpl; [reflexivity |].
  intros H. apply andb_true_iff in H. destruct H as [Hc Hs].
  apply negb_true_iff in Hc.
  now rewrite (lower_ascii_fixed c Hc), IH.
Qed.

Lemma underscore_before_upper_fixed (s : string) :
  no_upper s = true -> underscore_before_upper s = s.
Proof.
  induction s as [| c s IH]; simpl; [reflexivity |].
  intros H. apply andb_true_iff in H. destruct H as [Hc Hs].
  apply negb_true_iff in Hc. rewrite Hc. now rewrite IH.
Qed.

(** For a name of ASCII characters, the name [op_name_to_lower] returns
    holds no upper-case letter, and is longer than its argument by one
    underscore per upper-case letter that is not the first character. *)
Theorem op_name_to_lower_shape :
  forall name : string,
    is_ascii name = true ->
    exists s : string,
      op_name_to_lower name = Some s
      /\ no_upper s = true
      /\ String.length s
         = (String.length name
            + count_upper (match name with
                           | EmptyString => EmptyString
                           | String _ rest => rest
                           end))%nat.
Proof.
  intros name Hascii. unfold op_name_to_lower. rewrite Hascii.
  eexists. split; [reflexivity |]. split.
  - apply no_upper_lower.
  - rewrite length_lower. destruct name as [| c rest]; [reflexivity |].
    simpl. now rewrite length_underscore_before_upper.
Qed.

Lemma op_name_to_lower_shape_witness :
  exists s : string,
    op_name_to_lower "MaxPool" = Some s
    /\ no_upper s = true
    /\ String.length s = (String.length "MaxPool" + count_upper "axPool")%nat.
Proof. apply (op_name_to_lower_shape "MaxPool"). reflexivity. Defined.

(** A name of ASCII characters without upper-case letters is returned as
    it is. *)
Theorem op_name_to_lower_fixed :
  forall name : string,
    is_ascii name = true ->
    no_upper name = true ->
    op_name_to_lower name = Some name.
Proof.
  intros name Hascii H. unfold op_name_to_lower. rewrite Hascii. f_equal.
  destruct name as [| c rest]; [reflexivity |].
  simpl in H. apply andb_true_iff in H. destruct H as [Hc Hrest].
  rewrite (underscore_before_upper_fixed rest Hrest).
  apply lower_fixed. simpl. now rewrite Hc, Hrest.
Qed.

Lemma op_name_to_lower_fixed_witness :
  op_name_to_lower "max_pool" = Some "max_pool".
Proof. apply (op_name_to_lower_fixed "max_pool"); reflexivity. Defined.

Lemma op_name_to_lower_examples :
  op_name_to_lower "MaxPool" = Some "max_pool"
  /\ op_name_to_lower "LRN" = Some "l_r_n"
  /\ op_name_to_lower "" = Some "".
Proof. repeat split; reflexivity. Qed.

(** ** [get_perm_from_formats] *)

Lemma find_char_present (s : string) (c : ascii) :
  In c (list_ascii_of_string s) ->
  forall i, exists p : nat,
    find_char s c i = i + Z.of_nat p
    /\ String.get p s = Some c
    /\ forall q, (q < p)%nat -> String.get q s <> Some c.
Proof.
  induction s as [| a s IH]; intros Hin i; [contradiction |].
  simpl in Hin. cbn [find_char].
  destruct (Ascii.eqb_spec a c) as [-> | Hne].
  - exists 0%nat. repeat split; [lia | intros q Hq; lia].
  - destruct Hin as [-> | Hin]; [contradiction |].
    destruct (IH Hin (i + 1)) as [p (E & G & F)].
    exists (S p). repeat split; [lia | exact G |].
    intros [| q] Hq; simpl; [congruence | apply F; lia].
Qed.

Lemma find_char_missing (s : string) (c : ascii) :
  ~ In c (list_ascii_of_string s) -> forall i, find_char s c i = -1.
Proof.
  induction s as [| a s IH]; intros Hnin i; [reflexivity |].
  simpl in Hnin. cbn [find_char].
  destruct (Ascii.eqb_spec a c) as [-> | Hne].
  - exfalso. apply Hnin. now left.
  - apply IH. intros H. apply Hnin. now right.
Qed.

(** Whenever every character of [_to] occurs in [_from], reading [_from]
    at the positions [get_perm_from_formats] returns gives [_to] back, and
    entry [j] is the first position of [_from] that holds character [j] of
    [_to]. *)
Theorem get_perm_from_formats_applies :
  forall _from _to : string,
    (forall c, In c (list_ascii_of_string _to) ->
               In c (list_ascii_of_string _from)) ->
    map (char_at _from) (get_perm_from_formats _from _to)
    = map Some (list_ascii_of_string _to)
    /\ forall (j : nat) (c : ascii),
         nth_error (list_ascii_of_string _to) j = Some c ->
         exists p : nat,
           nth_error (get_perm_from_formats _from _to) j = Some (Z.of_nat p)
           /\ String.get p _from = Some c
           /\ forall q, (q < p)%nat -> String.get q _from <> Some c.
Proof.
  intros _from _to Hall. unfold get_perm_from_formats. split.
  - rewrite map_map. apply map_ext_in. intros c Hc.
    destruct (find_char_present _from c (Hall c Hc) 0) as [p (E & G & _)].
    rewrite E. unfold char_at.
    replace (0 <=? 0 + Z.of_nat p) with true
      by (symmetry; apply Z.leb_le; lia).
    replace (Z.to_nat (0 + Z.of_nat p)) with p by lia. exact G.
  - intros j c Hj.
    assert (Hc : In c (list_ascii_of_string _to))
      by (eapply nth_error_In; eassumption).
    destruct (find_char_present _from c (Hall c Hc) 0) as [p (E & G & F)].
    exists p. split; [| split; assumption].
    rewrite nth_error_map, Hj. simpl. now rewrite E.
Qed.

Lemma get_perm_from_formats_applies_witness :
  map (char_at "NHWC") (get_perm_from_formats "NHWC" "NCHW")
  = map Some (list_ascii_of_string "NCHW")
  /\ exists p : nat,
       nth_error (get_perm_from_formats "NHWC" "NCHW") 1 = Some (Z.of_nat p)
       /\ String.get p "NHWC" = Some "C"%char
       /\ forall q, (q < p)%nat -> String.get q "NHWC" <> Some "C"%char.
Proof.
  destruct (get_perm_from_formats_applies "NHWC" "NCHW") as [H1 H2].
  - intros c Hc. simpl in *. intuition.
  - split; [exact H1 | exact (H2 1%nat "C"%char eq_refl)].
Defined.

(** A character of [_to] that does not occur in [_from] gets the entry
    [-1]; nothing is raised. *)
Theorem get_perm_from_formats_missing :
  forall (_from _to : string) (j : nat) (c : ascii),
    nth_error (list_ascii_of_string _to) j = Some c ->
    ~ In c (list_ascii_of_string _from) ->
    nth_error (get_perm_from_formats _from _to) j = Some (-1).
Proof.
  intros _from _to j c Hj Hnin. unfold get_perm_from_formats.
  rewrite nth_error_map, Hj. simpl.
  now rewrite (find_char_missing _from c Hnin).
Qed.

Lemma get_perm_from_formats_missing_witness :
  nth_error (get_perm_from_formats "NHWC" "NDHWC") 1 = Some (-1).
Proof.
  apply (get_perm_from_formats_missing "NHWC" "NDHWC" 1 "D"%char);
    [reflexivity |].
  simpl. intros H. repeat destruct H as [H | H]; try discriminate H.
  exact H.
Defined.

Lemma get_nth_error (s : string) :
  forall n, String.get n s = nth_error (list_ascii_of_string s) n.
Proof.
  induction s as [| a s IH]; intros [| n]; simpl; auto.
Qed.

(** The permutation from [_to] back to [_from] undoes the one from [_from]
    to [_to]: when the characters of [_to] are pairwise distinct and all
    occur in [_from], entry [j] of [get_perm_from_formats _from _to] is a
    position [p] at which [get_perm_from_formats _to _from] holds [j]. *)
Theorem get_perm_from_formats_inverse :
  forall (_from _to : string) (j : nat) (c : ascii),
    NoDup (list_ascii_of_string _to) ->
    (forall x, In x (list_ascii_of_string _to) ->
               In x (list_ascii_of_string _from)) ->
    nth_error (list_ascii_of_string _to) j = Some c ->
    exists p : nat,
      nth_error (get_perm_from_formats _from _to) j = Some (Z.of_nat p)
      /\ nth_error (get_perm_from_formats _to _from) p = Some (Z.of_nat j).
Proof.
  intros _from _to j c Hnd Hall Hj.
  assert (Hin : In c (list_ascii_of_string _to))
    by (eapply nth_error_In; eassumption).
  destruct (find_char_present _from c (Hall c Hin) 0) as [p (E & G & _)].
  exists p. unfold get_perm_from_formats. split.
  - rewrite nth_error_map, Hj. simpl. now rewrite E.
  - rewrite nth_error_map, <- get_nth_error, G. simpl.
    destruct (find_char_present _to c Hin 0) as [q (E' & G' & _)].
    rewrite E'. rewrite get_nth_error in G'.
    assert (Hq : q = j).
    { apply (proj1 (NoDup_nth_error (list_ascii_of_string _to)) Hnd).
      - apply nth_error_Some. congruence.
      - congruence. }
    now rewrite Hq.
Qed.

Lemma get_perm_from_formats_inverse_witness :
  exists p : nat,
    nth_error (get_perm_from_formats "NHWC" "NCHW") 1 = Some (Z.of_nat p)
    /\ nth_error (get_perm_from_formats "NCHW" "NHWC") p = Some (Z.of_nat 1).
Proof.
  apply (get_perm_from_formats_inverse "NHWC" "NCHW" 1 "C"%char).
  - repeat constructor; simpl; intuition discriminate.
  - intros x Hx. simpl in *. intuition.
  - reflexivity.
Defined.

(** ** The gather index of [_reduce_dilations] *)

Lemma Forall_length_cartesian (cols : list (list Z)) :
  Forall (fun r => List.length r = List.length cols) (cartesian cols).
Proof.
  induction cols as [| col cols IH]; simpl.
  - repeat constructor.
  - apply Forall_forall. intros r Hr. apply in_flat_map in Hr.
    destruct Hr as [x [_ Hr]]. apply in_map_iff in Hr.
    destruct Hr as [r0 [<- Hr0]]. simpl. f_equal.
    rewrite Forall_forall in IH. now apply IH.
Qed.

Lemma length_product_rows (bl : list Z) (rows : list (list Z)) :
  List.length (flat_map (fun x => map (cons x) rows) bl)
  = (List.length bl * List.length rows)%nat.
Proof.
  induction bl as [| y bl IH]; [reflexivity |].
  cbn [flat_map List.length]. rewrite length_app, length_map, IH. lia.
Qed.

Lemma tf_range_vector (f : Z -> Z) (n : Z) :
  tmap f (tf_range n)
  = mkTensor [Z.of_nat (List.length (map f (zrange n)))] (map f (zrange n)).
Proof.
  unfold tmap, tf_range, zrange. cbn [shape data].
  rewrite !length_map, length_seq. f_equal. f_equal. lia.
Qed.

(** One round of the loop, on a gather index given by its rows. *)
Lemma reduce_axis_step (self : DilatedPooling) (ins os : list Z) (dim : nat)
  (cols : list (list Z)) :
  axes_ok self ins = true ->
  (dim < spatial_size self)%nat ->
  output_shape self = Some os ->
  cols <> [] ->
  reduce_axis ins dim (matrix (cartesian cols) (List.length cols)) self
  = (Ok (matrix (cartesian (axis_positions self ins dim :: cols))
           (S (List.length cols))),
     snd (set_output_shape (os ++ [axis_reduced_length self ins dim]) self)).
Proof.
  intros Hok Hdim Hos Hcols.
  destruct (axes_ok_lengths _ _ Hok) as (L1 & L2 & L3 & L4 & _).
  unfold reduce_axis, bindM, getM, liftR, getattr, Ok.
  rewrite !getitem_nth by lia. unfold Ok. cbv iota beta. rewrite Hos.
  cbv iota beta. cbn [set_output_shape].
  rewrite tf_range_vector. unfold matrix at 1.
  rewrite tf_product_rows;
    [| destruct cols; [contradiction | simpl; lia]
     | apply Forall_length_cartesian].
  unfold matrix, Ok. cbn [cartesian snd]. unfold axis_positions.
  rewrite length_product_rows. reflexivity.
Qed.

Lemma reduce_loop_rows (self : DilatedPooling) (ins : list Z) :
  axes_ok self ins = true ->
  forall (idx : list nat) (os : list Z) (cols : list (list Z)),
    (forall dim, In dim idx -> (dim < spatial_size self)%nat) ->
    cols <> [] ->
    for_loopM idx (reduce_axis ins)
      (matrix (cartesian cols) (List.length cols))
      (snd (set_output_shape os self))
    = (Ok (matrix (cartesian (map (axis_positions self ins) (rev idx) ++ cols))
             (List.length idx + List.length cols)),
       snd (set_output_shape (os ++ map (axis_reduced_length self ins) idx)
              self)).
Proof.
  intros Hok. induction idx as [| dim idx IH]; intros os cols Hidx Hcols.
  - simpl. now rewrite app_nil_r.
  - cbn [for_loopM]. unfold bindM.
    rewrite (reduce_axis_step _ ins os dim cols);
      [| exact Hok | apply Hidx; now left | reflexivity | assumption].
    unfold Ok. cbv iota beta.
    change (axis_positions (snd (set_output_shape os self)) ins dim)
      with (axis_positions self ins dim).
    change (axis_reduced_length (snd (set_output_shape os self)) ins dim)
      with (axis_reduced_length self ins dim).
    change (snd (set_output_shape (os ++ [axis_reduced_length self ins dim])
                   (snd (set_output_shape os self))))
      with (snd (set_output_shape (os ++ [axis_reduced_length self ins dim])
                   self)).
    change (S (List.length cols))
      with (List.length (axis_positions self ins dim :: cols)).
    rewrite IH;
      [| intros d Hd; apply Hidx; now right | discriminate].
    cbn [rev map List.length]. rewrite map_app, <- !app_assoc.
    cbn [map app].
    replace (List.length idx + S (List.length cols))%nat
      with (S (List.length idx + List.length cols)) by lia.
    reflexivity.
Qed.

Lemma channel_column (c : Z) :
  tf_expand_dims (tf_range c) 1 = matrix (cartesian [zrange c]) 1.
Proof.
  unfold tf_expand_dims, tf_range, matrix. cbn [shape data firstn skipn app].
  cbn [cartesian]. rewrite flat_map_concat_map.
  change (fun x : Z => map (cons x) [[]]) with (fun x : Z => [[x]]).
  assert (E : concat (map (fun x : Z => [[x]]) (zrange c))
              = map (fun x => [x]) (zrange c)).
  { induction (zrange c) as [| x l IH]; [reflexivity |].
    cbn [map concat app]. now rewrite IH. }
  rewrite E, concat_map_singleton, length_map.
  unfold zrange. rewrite length_map, length_seq.
  f_equal. f_equal. lia.
Qed.

(** The loop of [_reduce_dilations] over the spatial axes: started on the
    channel column, it builds the gather index whose rows are all the
    tuples [(p_1, ..., p_R, ch)] with [p_i] among the input positions of
    axis [i], the first axis varying slowest, and appends the reduced
    lengths to [output_shape] in the order the axes are visited. *)
Lemma reduce_loop_from_channels (self : DilatedPooling) (ins os : list Z)
  (c : Z) :
  axes_ok self ins = true ->
  for_loopM (range_down (spatial_size self)) (reduce_axis ins)
    (tf_expand_dims (tf_range c) 1) (snd (set_output_shape os self))
  = (Ok (matrix
           (cartesian (map (axis_positions self ins) (range (spatial_size self))
                       ++ [zrange c]))
           (S (spatial_size self))),
     snd (set_output_shape
            (os ++ map (axis_reduced_length self ins)
                     (range_down (spatial_size self)))
            self)).
Proof.
  intros Hok. rewrite channel_column.
  change 1%nat with (List.length [zrange c]) at 1.
  rewrite (reduce_loop_rows self ins Hok);
    [| | discriminate].
  - unfold range_down. rewrite rev_involutive, length_rev.
    unfold range. rewrite length_seq. cbn [List.length].
    now rewrite Nat.add_1_r.
  - intros dim Hd. unfold range_down in Hd. apply in_rev, in_seq in Hd. lia.
Qed.

Lemma expand_loop_shape (idx : list nat) :
  forall (g : tensor Z) (self : DilatedPooling),
    for_loopM idx (fun _ gather_ind => retM (tf_expand_dims gather_ind 0)) g
      self
    = (Ok (mkTensor (repeat 1 (List.length idx) ++ shape g) (data g)), self).
Proof.
  induction idx as [| i idx IH]; intros g self.
  - destruct g. reflexivity.
  - cbn [for_loopM]. unfold bindM, retM at 1. unfold Ok. cbv iota beta.
    rewrite IH. unfold tf_expand_dims.
    cbn [shape data firstn skipn app List.length repeat].
    change (1 :: shape g) with ([1] ++ shape g).
    rewrite app_assoc, <- repeat_cons. reflexivity.
Qed.

(** *** Tiling the gather index over the batch *)

Lemma chunks_whole {A : Type} (d : list A) :
  d <> [] -> chunks (List.length d) d = [d].
Proof.
  intros Hd.
  rewrite <- (app_nil_r d) at 2.
  change (d ++ []) with (concat [d]).
  apply chunks_concat.
  - destruct d; [contradiction | simpl; lia].
  - repeat constructor.
Qed.

Lemma prod_ones_prefix (j : nat) (l : list Z) :
  prod (repeat 1 j ++ l) = prod l.
Proof.
  induction j as [| j IH]; [reflexivity |].
  cbn [repeat app prod fold_right]. fold (prod (repeat 1 j ++ l)).
  rewrite IH. unfold prod. lia.
Qed.

Lemma length_concat_rows {A : Type} (rows : list (list A)) (m : nat) :
  Forall (fun r => List.length r = m) rows ->
  List.length (concat rows) = (List.length rows * m)%nat.
Proof.
  induction 1 as [| r rows Hr _ IH]; [reflexivity |].
  cbn [concat List.length]. rewrite length_app, IH, Hr. lia.
Qed.

Lemma flat_map_chunks_whole {A : Type} (f : list A -> list A) (d : list A) :
  f [] = [] -> flat_map f (chunks (List.length d) d) = f d.
Proof.
  intros Hf. destruct d as [| x d].
  - now rewrite Hf.
  - rewrite chunks_whole by discriminate. cbn [flat_map]. apply app_nil_r.
Qed.

Lemma matrix_size (rows : list (list Z)) (m : nat) :
  Forall (fun r => List.length r = m) rows ->
  Z.to_nat (prod [Z.of_nat (List.length rows); Z.of_nat m])
  = List.length (concat rows).
Proof.
  intros H. rewrite (length_concat_rows rows m H).
  cbn [prod fold_right]. lia.
Qed.

Lemma tile_matrix_rows (rows : list (list Z)) (m : nat) (n : Z) :
  (0 < m)%nat ->
  Forall (fun r => List.length r = m) rows ->
  tile_data [Z.of_nat (List.length rows); Z.of_nat m] [n; 1] (concat rows)
  = concat (repeat (concat rows) (Z.to_nat n)).
Proof.
  intros Hm Hrows. rewrite tile_data_cons.
  replace (Z.to_nat (prod [Z.of_nat m])) with m
    by (cbn [prod fold_right]; lia).
  rewrite (chunks_concat m rows Hm Hrows).
  rewrite (flat_map_ext _ (fun d => d) (tile_data_row (Z.of_nat m))).
  replace (flat_map (fun d : list Z => d) rows) with (concat rows)
    by (rewrite flat_map_concat_map; now rewrite map_id).
  reflexivity.
Qed.

Lemma concat_repeat_nil {A : Type} (n : nat) :
  concat (repeat (@nil A) n) = [].
Proof. induction n as [| n IH]; [reflexivity | exact IH]. Qed.

Lemma tile_data_nil {A : Type} (sh mult : list Z) :
  tile_data sh mult (@nil A) = [].
Proof.
  destruct sh as [| n sh]; [reflexivity |].
  destruct mult as [| k mult]; [reflexivity |].
  rewrite tile_data_cons. unfold chunks. cbn [List.length chunks_fuel flat_map].
  apply concat_repeat_nil.
Qed.

Lemma tile_inner_ones (rows : list (list Z)) (m : nat) :
  (0 < m)%nat ->
  Forall (fun r => List.length r = m) rows ->
  forall j : nat,
    tile_data (repeat 1 j ++ [Z.of_nat (List.length rows); Z.of_nat m])
      (ones (j + 2)) (concat rows)
    = concat rows.
Proof.
  intros Hm Hrows. induction j as [| j IH].
  - cbn [repeat app Nat.add ones].
    rewrite (tile_matrix_rows rows m 1 Hm Hrows).
    change (Z.to_nat 1) with 1%nat. cbn [repeat concat]. apply app_nil_r.
  - cbn [repeat app Nat.add ones]. rewrite tile_data_cons.
    rewrite prod_ones_prefix, (matrix_size rows m Hrows).
    fold (ones (j + 2)).
    rewrite flat_map_chunks_whole.
    + change (Z.to_nat 1) with 1%nat. cbn [repeat concat].
      rewrite app_nil_r. exact IH.
    + apply tile_data_nil.
Qed.

Lemma map2_mul_ones (l : list Z) :
  map2 Z.mul l (ones (List.length l)) = l.
Proof.
  unfold ones. induction l as [| x l IH]; [reflexivity |].
  cbn [List.length repeat map2]. rewrite IH. f_equal. lia.
Qed.

Lemma length_ones_shape (j : nat) (a b : Z) :
  List.length (repeat 1 j ++ [a; b]) = (j + 2)%nat.
Proof. rewrite length_app, repeat_length. reflexivity. Qed.

(** [tf.tile] of the expanded gather index by [[batch, 1, ..., 1]]. *)
Lemma tile_batch (rows : list (list Z)) (m j : nat) (nb : Z) :
  (0 < m)%nat ->
  Forall (fun r => List.length r = m) rows ->
  tf_tile
    (mkTensor (repeat 1 (S j) ++ [Z.of_nat (List.length rows); Z.of_nat m])
       (concat rows))
    (nb :: ones (S j + 1))
  = Ok (mkTensor
          (nb :: repeat 1 j ++ [Z.of_nat (List.length rows); Z.of_nat m])
          (concat (repeat (concat rows) (Z.to_nat nb)))).
Proof.
  intros Hm Hrows. unfold tf_tile. cbn [shape data].
  replace (Nat.eqb
             (List.length
                (repeat 1 (S j) ++ [Z.of_nat (List.length rows); Z.of_nat m]))
             (List.length (nb :: ones (S j + 1)))) with true.
  2:{ symmetry. apply Nat.eqb_eq. rewrite length_ones_shape.
      unfold ones. cbn [List.length]. rewrite repeat_length. lia. }
  unfold Ok. f_equal.
  cbn [repeat app map2]. f_equal.
  - f_equal; [lia |].
    replace (S j + 1)%nat with (j + 2)%nat by lia.
    rewrite <- (length_ones_shape j (Z.of_nat (List.length rows)) (Z.of_nat m)).
    apply map2_mul_ones.
  - rewrite tile_data_cons.
    rewrite prod_ones_prefix, (matrix_size rows m Hrows).
    replace (S j + 1)%nat with (j + 2)%nat by lia.
    rewrite flat_map_chunks_whole by apply tile_data_nil.
    now rewrite (tile_inner_ones rows m Hm Hrows).
Qed.

(** *** Reading the input at the gather index *)

Lemma in_bounds_ravel (sh : list Z) :
  forall (idx : list Z) (acc : Z),
    in_bounds sh idx = true -> 0 <= acc ->
    0 < prod sh
    /\ acc * prod sh <= ravel sh idx acc < (acc + 1) * prod sh.
Proof.
  induction sh as [| n sh IH]; intros [| i idx] acc Hb Hacc;
    simpl in Hb; try discriminate.
  - cbn [prod fold_right ravel]. lia.
  - apply andb_true_iff in Hb. destruct Hb as [Hi Hb].
    apply andb_true_iff in Hi. destruct Hi as [Hi0 Hin].
    apply Z.leb_le in Hi0. apply Z.ltb_lt in Hin.
    destruct (IH idx (acc * n + i) Hb ltac:(nia)) as [Hp Hr].
    cbn [prod fold_right ravel]. fold (prod sh). nia.
Qed.

Lemma tget_in_bounds {A : Type} (t : tensor A) (idx : list Z) :
  List.length (data t) = Z.to_nat (prod (shape t)) ->
  in_bounds (shape t) idx = true ->
  exists v, tget t idx = Some v.
Proof.
  intros Hwf Hb. unfold tget. rewrite Hb.
  destruct (in_bounds_ravel (shape t) idx 0 Hb ltac:(lia)) as [Hp Hr].
  destruct (nth_error (data t) (Z.to_nat (ravel (shape t) idx 0))) eqn:E.
  - now exists a.
  - apply nth_error_None in E. lia.
Qed.

Lemma in_bounds_cartesian (dims : list Z) (cols : list (list Z)) :
  Forall2 (fun n col => Forall (fun p => 0 <= p < n) col) dims cols ->
  forall row, In row (cartesian cols) -> in_bounds dims row = true.
Proof.
  induction 1 as [| n col dims cols Hcol _ IH]; intros row Hrow.
  - destruct Hrow as [<- | []]. reflexivity.
  - cbn [cartesian] in Hrow. apply in_flat_map in Hrow.
    destruct Hrow as [x [Hx Hrow]]. apply in_map_iff in Hrow.
    destruct Hrow as [r [<- Hr]]. cbn [in_bounds].
    rewrite Forall_forall in Hcol. specialize (Hcol x Hx).
    rewrite (IH r Hr), andb_true_r.
    apply andb_true_iff. split; [apply Z.leb_le | apply Z.ltb_lt]; lia.
Qed.

Lemma In_zrange (x n : Z) : In x (zrange n) -> 0 <= x < n.
Proof.
  unfold zrange. intros H. apply in_map_iff in H.
  destruct H as [i [<- Hi]]. apply in_seq in Hi. lia.
Qed.

Lemma Forall2_map_seq {A B : Type} (P : A -> B -> Prop) (d : A) (l : list A) :
  forall (start : nat) (f : nat -> B),
    (forall i, (i < List.length l)%nat -> P (nth i l d) (f (start + i)%nat)) ->
    Forall2 P l (map f (seq start (List.length l))).
Proof.
  induction l as [| x l IH]; intros start f H; [constructor |].
  cbn [List.length seq map]. constructor.
  - specialize (H 0%nat ltac:(simpl; lia)). now rewrite Nat.add_0_r in H.
  - apply IH. intros i Hi.
    specialize (H (S i) ltac:(simpl; lia)). cbn [nth] in H.
    now replace (S start + i)%nat with (start + S i)%nat by lia.
Qed.

Lemma sequence_res_gets {A : Type} (t : tensor A) (idxs : list (list Z)) :
  Forall (fun idx => exists v, tget t idx = Some v) idxs ->
  exists vals,
    sequence_res
      (map (fun idx => match tget t idx with
                       | Some v => Ok v
                       | None => Raise (InvalidArgument "gather_nd")
                       end) idxs)
    = Ok vals
    /\ map Some vals = map (tget t) idxs.
Proof.
  induction 1 as [| idx idxs [v Hv] _ [vals [E1 E2]]].
  - now exists [].
  - exists (v :: vals). cbn [map sequence_res]. rewrite Hv, E1.
    split; [reflexivity |]. cbn [map]. now rewrite E2.
Qed.

Lemma map2_repeat_r {A B C : Type} (f : A -> B -> C) (l : list A) (d : B) :
  map2 f l (repeat d (List.length l)) = map (fun x => f x d) l.
Proof.
  induction l as [| x l IH]; [reflexivity |].
  cbn [List.length repeat map2 map]. now rewrite IH.
Qed.

Lemma last_ones_shape (n : Z) (j : nat) (a b : Z) :
  last (n :: repeat 1 j ++ [a; b]) 0 = b.
Proof.
  change (n :: repeat 1 j ++ [a; b]) with ((n :: repeat 1 j) ++ [a; b]).
  change [a; b] with ([a] ++ [b]). rewrite app_assoc. apply last_last.
Qed.

Lemma length_zrange (n : Z) : List.length (zrange n) = Z.to_nat n.
Proof. unfold zrange. now rewrite length_map, length_seq. Qed.

Lemma Forall_repeat {A : Type} (P : A -> Prop) (x : A) (n : nat) :
  P x -> Forall P (repeat x n).
Proof. intros H. induction n; simpl; constructor; assumption. Qed.

(** [tf.gather_nd] on the tiled gather index reads, batch after batch, the
    input at every row of the index. *)
Lemma gather_rows (params : tensor value) (rows : list (list Z))
  (mlen j : nat) (nb : Z) :
  0 < nb -> (0 < mlen)%nat -> rows <> [] ->
  Forall (fun r => List.length r = mlen) rows ->
  hd 0 (shape params) = nb ->
  Z.of_nat (List.length (shape params)) = Z.of_nat mlen + 1 ->
  tf_gather_nd params
    (mkTensor
       (nb :: repeat 1 j ++ [Z.of_nat (List.length rows); Z.of_nat mlen])
       (concat (repeat (concat rows) (Z.to_nat nb))))
  = (vals <~ sequence_res
               (map (fun idx => match tget params idx with
                                | Some v => Ok v
                                | None => Raise (InvalidArgument "gather_nd")
                                end)
                    (flat_map (fun b => map (cons b) rows) (zrange nb))) ;;
     Ok (mkTensor
           (removelast
              (nb :: repeat 1 j ++ [Z.of_nat (List.length rows); Z.of_nat mlen]))
           vals))%res.
Proof.
  intros Hnb Hm Hrows Hlen Hhd Hrank.
  unfold tf_gather_nd. cbn [shape data hd].
  rewrite last_ones_shape, Hhd, Z.eqb_refl, Hrank, Z.eqb_refl. cbn [andb].
  assert (Hd : (0 < List.length (concat rows))%nat).
  { rewrite (length_concat_rows rows mlen Hlen).
    destruct rows; [contradiction | simpl; lia]. }
  assert (Hsize : Z.to_nat
                    (Z.of_nat
                       (List.length
                          (concat (repeat (concat rows) (Z.to_nat nb))))
                     / nb)
                  = List.length (concat rows)).
  { rewrite (length_concat_rows (repeat (concat rows) (Z.to_nat nb))
               (List.length (concat rows)))
      by now apply Forall_repeat.
    rewrite repeat_length, Nat2Z.inj_mul, Z2Nat.id by lia.
    rewrite Z.mul_comm, Z.div_mul by lia. apply Nat2Z.id. }
  rewrite Hsize.
  rewrite chunks_concat by (try assumption; now apply Forall_repeat).
  rewrite <- (length_zrange nb), map2_repeat_r.
  rewrite Nat2Z.id, (chunks_concat mlen rows Hm Hlen).
  f_equal. f_equal.
  rewrite <- flat_map_concat_map.
  generalize (zrange nb). intros l.
  induction l as [| b l IH]; [reflexivity |].
  cbn [flat_map]. rewrite map_app, IH, map_map. reflexivity.
Qed.

Lemma tf_reshape_exact {A : Type} (t : tensor A) (sh : list Z) :
  Forall (fun x => 0 <= x) sh ->
  prod sh = Z.of_nat (List.length (data t)) ->
  tf_reshape t sh = Ok (mkTensor sh (data t)).
Proof.
  intros Hpos Hprod. unfold tf_reshape.
  assert (Esh : map (fun x : Z =>
                       if x =? -1
                       then Z.of_nat (List.length (data t))
                            / prod (filter (fun y : Z => negb (y =? -1)) sh)
                       else x) sh
                = sh).
  { rewrite <- (map_id sh) at 2. apply map_ext_in. intros x Hx.
    rewrite Forall_forall in Hpos. specialize (Hpos x Hx).
    destruct (Z.eqb_spec x (-1)); [lia | reflexivity]. }
  rewrite Esh, Hprod, Z.eqb_refl.
  replace (forallb (fun x : Z => 0 <=? x) sh) with true; [reflexivity |].
  symmetry. apply forallb_forall. intros x Hx.
  rewrite Forall_forall in Hpos. apply Z.leb_le. now apply Hpos.
Qed.

(** *** Sizes *)

Lemma prod_app (l1 l2 : list Z) : prod (l1 ++ l2) = prod l1 * prod l2.
Proof.
  unfold prod. induction l1 as [| x l1 IH]; cbn [app fold_right].
  - now rewrite Z.mul_1_l.
  - rewrite IH. ring.
Qed.

Lemma prod_rev (l : list Z) : prod (rev l) = prod l.
Proof.
  induction l as [| x l IH]; [reflexivity |].
  cbn [rev]. rewrite prod_app, IH. unfold prod. cbn [fold_right]. ring.
Qed.

Lemma length_cartesian (cols : list (list Z)) :
  Z.of_nat (List.length (cartesian cols))
  = prod (map (fun col => Z.of_nat (List.length col)) cols).
Proof.
  induction cols as [| col cols IH]; [reflexivity |].
  cbn [cartesian map]. rewrite length_product_rows, Nat2Z.inj_mul, IH.
  reflexivity.
Qed.

Lemma windows_fit_axis (self : DilatedPooling) (ins : list Z) (dim : nat) :
  windows_fit self ins = true ->
  (dim < spatial_size self)%nat ->
  0 < nth dim (kernel_shape self) 0
  /\ 0 <= nth dim (dilations self) 0
  /\ filter_extent (nth dim (kernel_shape self) 0)
       (nth dim (dilations self) 0) <= nth dim ins 0.
Proof.
  unfold windows_fit. intros H Hdim. rewrite forallb_forall in H.
  specialize (H dim ltac:(apply in_seq; lia)).
  apply andb_true_iff in H. destruct H as [H H3].
  apply andb_true_iff in H. destruct H as [H1 H2].
  repeat split; [now apply Z.ltb_lt | now apply Z.leb_le | now apply Z.leb_le].
Qed.

Lemma axes_ok_stride (self : DilatedPooling) (ins : list Z) (dim : nat) :
  axes_ok self ins = true ->
  (dim < spatial_size self)%nat ->
  0 < nth dim (strides self) 0.
Proof.
  intros Hok Hdim.
  destruct (axes_ok_lengths _ _ Hok) as (_ & _ & _ & L4 & Hpos).
  apply (Hpos dim). apply nth_error_nth'. lia.
Qed.

Lemma reduced_length_positive (in_size k d s : Z) :
  0 < k -> 0 < s -> filter_extent k d <= in_size ->
  0 < reduced_length in_size k d s.
Proof.
  intros Hk Hs Hfit. unfold reduced_length.
  assert (0 <= (in_size - filter_extent k d) / s)
    by (apply Z.div_pos; lia).
  nia.
Qed.

Lemma axis_reduced_length_positive (self : DilatedPooling) (ins : list Z)
  (dim : nat) :
  axes_ok self ins = true ->
  windows_fit self ins = true ->
  (dim < spatial_size self)%nat ->
  0 < axis_reduced_length self ins dim.
Proof.
  intros Hok Hfit Hdim.
  destruct (windows_fit_axis self ins dim Hfit Hdim) as (Hk & Hd & Hf).
  apply reduced_length_positive;
    [assumption | now apply (axes_ok_stride self ins) | assumption].
Qed.

Lemma axis_columns_size (self : DilatedPooling) (ins : list Z) (idx : list nat) :
  axes_ok self ins = true ->
  windows_fit self ins = true ->
  (forall dim, In dim idx -> (dim < spatial_size self)%nat) ->
  prod (map (fun col => Z.of_nat (List.length col))
          (map (axis_positions self ins) idx))
  = prod (map (axis_reduced_length self ins) idx)
  /\ 0 < prod (map (axis_reduced_length self ins) idx).
Proof.
  intros Hok Hfit. induction idx as [| dim idx IH]; intros Hidx.
  - cbn [map prod fold_right]. lia.
  - destruct IH as [E P]; [intros d Hd; apply Hidx; now right |].
    pose proof (axis_reduced_length_positive self ins dim Hok Hfit
                  (Hidx dim ltac:(now left))) as HL.
    cbn [map prod fold_right].
    fold (prod (map (fun col => Z.of_nat (List.length col))
                  (map (axis_positions self ins) idx))).
    fold (prod (map (axis_reduced_length self ins) idx)).
    unfold axis_positions at 1. rewrite length_map, length_zrange.
    fold (axis_reduced_length self ins dim).
    rewrite Z2Nat.id by lia. rewrite E. split; [reflexivity | nia].
Qed.

(** On a configuration whose windows fit, every input position that an
    axis of the reduced tensor reads lies inside that axis of the input:
    the gather of [_reduce_dilations] never reads outside the (padded)
    input. *)
Theorem calc_input_ind_in_range :
  forall (self : DilatedPooling) (ins : list Z) (dim : nat),
    axes_ok self ins = true ->
    windows_fit self ins = true ->
    (dim < spatial_size self)%nat ->
    List.length (axis_positions self ins dim)
    = Z.to_nat (axis_reduced_length self ins dim)
    /\ Forall (fun p => 0 <= p < nth dim ins 0) (axis_positions self ins dim).
Proof.
  intros self ins dim Hok Hfit Hdim. split.
  - unfold axis_positions. now rewrite length_map, length_zrange.
  - destruct (windows_fit_axis self ins dim Hfit Hdim) as (Hk & Hd & Hf).
    pose proof (axes_ok_stride self ins dim Hok Hdim) as Hs.
    apply Forall_forall. intros p Hp. unfold axis_positions in Hp.
    apply in_map_iff in Hp. destruct Hp as [ind [<- Hind]].
    apply In_zrange in Hind.
    now apply calc_input_ind_bounds.
Qed.

Lemma calc_input_ind_in_range_witness :
  List.length (axis_positions docstring_example [4; 4] 1)
  = Z.to_nat (axis_reduced_length docstring_example [4; 4] 1)
  /\ Forall (fun p => 0 <= p < nth 1 [4; 4] 0)
       (axis_positions docstring_example [4; 4] 1).
Proof.
  apply (calc_input_ind_in_range docstring_example [4; 4] 1);
    first [reflexivity | simpl; lia].
Defined.

Lemma gather_rows_in_bounds (self : DilatedPooling) (nb c : Z)
  (spatial : list Z) :
  shape (input self) = nb :: spatial ++ [c] ->
  axes_ok self spatial = true ->
  windows_fit self spatial = true ->
  forall idx,
    In idx (flat_map
              (fun b =>
                 map (cons b)
                   (cartesian
                      (map (axis_positions self spatial)
                         (range (spatial_size self)) ++ [zrange c])))
              (zrange nb)) ->
    in_bounds (shape (input self)) idx = true.
Proof.
  intros Hshape Hok Hfit idx Hidx.
  destruct (axes_ok_lengths _ _ Hok) as (L1 & _).
  apply in_flat_map in Hidx. destruct Hidx as [b [Hb Hidx]].
  apply in_map_iff in Hidx. destruct Hidx as [row [<- Hrow]].
  apply In_zrange in Hb. rewrite Hshape. cbn [in_bounds].
  replace (0 <=? b) with true by (symmetry; apply Z.leb_le; lia).
  replace (b <? nb) with true by (symmetry; apply Z.ltb_lt; lia).
  cbn [andb].
  apply (in_bounds_cartesian (spatial ++ [c])
           (map (axis_positions self spatial) (range (spatial_size self))
            ++ [zrange c])); [| exact Hrow].
  apply Forall2_app.
  - unfold range. rewrite <- L1.
    apply (Forall2_map_seq _ 0 spatial 0%nat). intros i Hi. cbn [Nat.add].
    destruct (windows_fit_axis self spatial i Hfit ltac:(lia))
      as (Hk & Hd & Hf).
    pose proof (axes_ok_stride self spatial i Hok ltac:(lia)) as Hs.
    apply Forall_forall. intros p Hp. unfold axis_positions in Hp.
    apply in_map_iff in Hp. destruct Hp as [ind [<- Hind]].
    apply In_zrange in Hind. now apply calc_input_ind_bounds.
  - repeat constructor. apply Forall_forall. intros p Hp.
    now apply In_zrange.
Qed.

Lemma gather_rows_count (self : DilatedPooling) (nb c : Z) (spatial : list Z) :
  axes_ok self spatial = true ->
  windows_fit self spatial = true ->
  0 < nb -> 0 < c ->
  Z.of_nat
    (List.length
       (flat_map
          (fun b =>
             map (cons b)
               (cartesian
                  (map (axis_positions self spatial)
                     (range (spatial_size self)) ++ [zrange c])))
          (zrange nb)))
  = prod (nb :: map (axis_reduced_length self spatial)
                  (range_down (spatial_size self)) ++ [c])
  /\ 0 < Z.of_nat
           (List.length
              (cartesian
                 (map (axis_positions self spatial)
                    (range (spatial_size self)) ++ [zrange c]))).
Proof.
  intros Hok Hfit Hnb Hc.
  destruct (axis_columns_size self spatial (range (spatial_size self)) Hok Hfit)
    as [E P]; [intros d Hd; apply in_seq in Hd; lia |].
  assert (Erows : Z.of_nat
                    (List.length
                       (cartesian
                          (map (axis_positions self spatial)
                             (range (spatial_size self)) ++ [zrange c])))
                  = prod (map (axis_reduced_length self spatial)
                            (range (spatial_size self))) * c).
  { rewrite length_cartesian, map_app, prod_app, E.
    cbn [map prod fold_right]. rewrite length_zrange, Z2Nat.id by lia. lia. }
  split; [| rewrite Erows; nia].
  rewrite length_product_rows, Nat2Z.inj_mul, length_zrange, Z2Nat.id by lia.
  rewrite Erows.
  change (nb :: map (axis_reduced_length self spatial)
                  (range_down (spatial_size self)) ++ [c])
    with ([nb] ++ map (axis_reduced_length self spatial)
                    (range_down (spatial_size self)) ++ [c]).
  rewrite !prod_app. unfold range_down. rewrite map_rev, prod_rev.
  unfold range. cbn [prod fold_right]. lia.
Qed.

(** What [_reduce_dilations] returns, for every spatial rank.  On a
    well-formed input of shape [[batch, n_1, ..., n_R, channels]] whose
    windows fit, the call succeeds; the elements of the result are, batch
    after batch and in row-major order of [(x_1, ..., x_R, ch)], the input
    elements at
    [(b, _calc_input_ind x_1, ..., _calc_input_ind x_R, ch)]; and the shape
    given to them, also recorded in [output_shape], lists the reduced
    lengths from the last axis to the first. *)
Theorem reduce_dilations_gathers :
  forall (self : DilatedPooling) (nb c : Z) (spatial : list Z),
    shape (input self) = nb :: spatial ++ [c] ->
    List.length (data (input self)) = Z.to_nat (prod (shape (input self))) ->
    axes_ok self spatial = true ->
    windows_fit self spatial = true ->
    (0 < spatial_size self)%nat -> 0 < nb -> 0 < c ->
    exists vals : list value,
      _reduce_dilations self
      = (Ok (mkTensor
               (nb :: map (axis_reduced_length self spatial)
                        (range_down (spatial_size self)) ++ [c])
               vals),
         snd (call TfGatherNd
                (snd (set_output_shape
                        (nb :: map (axis_reduced_length self spatial)
                                 (range_down (spatial_size self)) ++ [c])
                        self))))
      /\ map Some vals
         = map (tget (input self))
             (flat_map
                (fun b =>
                   map (cons b)
                     (cartesian
                        (map (axis_positions self spatial)
                           (range (spatial_size self)) ++ [zrange c])))
                (zrange nb)).
Proof.
  intros self nb c spatial Hshape Hwf Hok Hfit HR Hnb Hc.
  destruct (axes_ok_lengths _ _ Hok) as (L1 & _).
  set (rows := cartesian (map (axis_positions self spatial)
                            (range (spatial_size self)) ++ [zrange c])).
  set (Ls := map (axis_reduced_length self spatial)
               (range_down (spatial_size self))).
  destruct (gather_rows_count self nb c spatial Hok Hfit Hnb Hc)
    as [Hcount Hrows]. fold rows Ls in Hcount, Hrows.
  (* every read is inside the input *)
  destruct (sequence_res_gets (input self)
              (flat_map (fun b => map (cons b) rows) (zrange nb)))
    as [vals [Hseq Hvals]].
  { apply Forall_forall. intros idx Hidx. apply tget_in_bounds; [exact Hwf |].
    now apply (gather_rows_in_bounds self nb c spatial). }
  exists vals. split; [| exact Hvals].
  (* the spatial sizes and the two end sizes read from the shape *)
  assert (Hspatial : firstn (spatial_size self) (skipn 1 (shape (input self)))
                     = spatial).
  { rewrite Hshape. cbn [skipn]. rewrite <- L1.
    rewrite firstn_app, Nat.sub_diag, firstn_all, firstn_O.
    apply app_nil_r. }
  assert (Hchan : getitem (shape (input self)) (spatial_size self + 1) = Ok c).
  { unfold getitem. rewrite Hshape, Nat.add_1_r. cbn [nth_error].
    rewrite nth_error_app2 by lia. rewrite L1, Nat.sub_diag. reflexivity. }
  assert (Hbatch : getitem (shape (input self)) 0 = Ok nb).
  { unfold getitem. now rewrite Hshape. }
  assert (Hrows_len : Forall (fun r => List.length r = S (spatial_size self))
                        rows).
  { pose proof (Forall_length_cartesian
                  (map (axis_positions self spatial)
                     (range (spatial_size self)) ++ [zrange c])) as HF.
    rewrite length_app, length_map in HF. unfold range in HF.
    rewrite length_seq in HF. cbn [List.length] in HF.
    rewrite Nat.add_1_r in HF. exact HF. }
  assert (Hrows_ne : rows <> []).
  { intros E. rewrite E in Hrows. simpl in Hrows. lia. }
  unfold _reduce_dilations.
  unfold bindM at 1. unfold getM at 1. unfold Ok. unfold Ok. cbv iota beta zeta.
  unfold bindM at 1. unfold getM at 1. unfold Ok. cbv iota beta zeta.
  unfold _tf_shape. rewrite Hspatial.
  unfold bindM at 1. unfold liftR at 1. rewrite Hchan. unfold Ok. unfold Ok. cbv iota beta zeta.
  unfold bindM at 1. unfold liftR at 1. rewrite Hbatch. unfold Ok. unfold Ok. cbv iota beta zeta.
  unfold bindM at 1.
  change (set_output_shape [nb] self)
    with (@inr exn unit tt, snd (set_output_shape [nb] self)).
  unfold Ok. cbv iota beta zeta.
  unfold bindM at 1.
  rewrite (reduce_loop_from_channels self spatial [nb] c Hok).
  fold rows Ls. unfold Ok. unfold Ok. cbv iota beta zeta.
  unfold bindM at 1. unfold getattr at 1.
  cbn [output_shape set_output_shape snd]. unfold Ok. cbv iota beta zeta.
  unfold bindM at 1. unfold set_output_shape at 1. unfold Ok.
  unfold Ok. cbv iota beta zeta.
  unfold bindM at 1. rewrite expand_loop_shape. unfold Ok.
  unfold Ok. cbv iota beta zeta.
  unfold matrix. cbn [shape data]. unfold range at 1. rewrite length_seq.
  unfold bindM at 1. unfold liftR at 1.
  assert (Etile : tf_tile
            {| shape := repeat 1 (spatial_size self)
                        ++ [Z.of_nat (List.length rows);
                            Z.of_nat (S (spatial_size self))];
               data := concat rows |}
            (nb :: ones (spatial_size self + 1))
          = inr {| shape := nb :: repeat 1 (spatial_size self - 1)
                            ++ [Z.of_nat (List.length rows);
                                Z.of_nat (S (spatial_size self))];
                   data := concat (repeat (concat rows) (Z.to_nat nb)) |}).
  { destruct (spatial_size self) as [| j]; [lia |].
    rewrite (tile_batch rows (S (S j)) j nb ltac:(lia) Hrows_len).
    cbn [Nat.sub]. now rewrite Nat.sub_0_r. }
  rewrite Etile. unfold Ok. cbv iota beta zeta.
  unfold bindM at 1. unfold call at 1. unfold Ok. unfold Ok. cbv iota beta zeta.
  unfold bindM at 1. unfold getM at 1. unfold Ok. cbv iota beta zeta.
  cbn [input].
  unfold bindM at 1. unfold liftR at 1.
  rewrite (gather_rows (input self) rows (S (spatial_size self))
             (spatial_size self - 1) nb Hnb ltac:(lia) Hrows_ne Hrows_len).
  2:{ now rewrite Hshape. }
  2:{ rewrite Hshape. cbn [List.length]. rewrite length_app, L1.
      cbn [List.length]. lia. }
  rewrite Hseq. unfold bindR, Ok. cbv iota beta zeta.
  unfold bindM at 1. unfold getattr at 1. cbn [output_shape].
  unfold Ok. cbv iota beta zeta. unfold liftR.
  assert (HLs : Forall (fun x => 0 <= x) Ls).
  { apply Forall_forall. intros x Hx. unfold Ls in Hx.
    apply in_map_iff in Hx. destruct Hx as [dim [<- Hdim]].
    unfold range_down in Hdim. apply in_rev, in_seq in Hdim.
    pose proof (axis_reduced_length_positive self spatial dim Hok Hfit
                  ltac:(lia)). lia. }
  rewrite tf_reshape_exact.
  - reflexivity.
  - cbn [app]. constructor; [lia |]. apply Forall_app. split; [exact HLs |].
    repeat constructor. lia.
  - cbn [data]. change (([nb] ++ Ls) ++ [c]) with (nb :: Ls ++ [c]).
    rewrite <- Hcount.
    rewrite <- (length_map Some vals), Hvals, length_map. reflexivity.
Qed.

Lemma reduce_dilations_gathers_witness :
  exists vals : list value,
    _reduce_dilations docstring_example
    = (Ok (mkTensor
             (1 :: map (axis_reduced_length docstring_example [4; 4])
                     (range_down (spatial_size docstring_example)) ++ [1])
             vals),
       snd (call TfGatherNd
              (snd (set_output_shape
                      (1 :: map (axis_reduced_length docstring_example [4; 4])
                              (range_down (spatial_size docstring_example))
                            ++ [1])
                      docstring_example))))
    /\ map Some vals
       = map (tget (input docstring_example))
           (flat_map
              (fun b =>
                 map (cons b)
                   (cartesian
                      (map (axis_positions docstring_example [4; 4])
                         (range (spatial_size docstring_example))
                       ++ [zrange 1])))
              (zrange 1)).
Proof.
  apply (reduce_dilations_gathers docstring_example 1 1 [4; 4]);
    first [reflexivity | simpl; lia].
Defined.
